(** * Internet Object (JavaScript implementation): tokenizer, AST parser and
    type validators, embedded in Rocq.

    The development follows the TypeScript sources function by function:

    - [Tokenizer]  : the position-indexed lexer ([tokenizer/index.ts]);
    - [AST]        : the stack-based tree builder ([ASTParser]);
    - [StringDef]  : the string validator ([_process], [_validatePattern])
                     and, in [StringDefClass], the methods of the class
                     ([validate], [serialize]);
    - [NumberDef]  : the number validators ([_intValidator],
                     [_getValidator], [NumberDef.parse]).

    JavaScript strings are sequences of UTF-16 code units.  The tokenizer
    decodes [\uXXXX] escapes, so it works on lists of code units; the tree
    builder and the validators only compare and measure strings, and use
    Rocq's [string].  JavaScript numbers are modelled by [number]: a
    rational for every finite double, plus the two infinities and NaN. *)

From Stdlib Require Import ZArith QArith Lia Ascii String.
From stdpp Require Import base option list strings pretty gmap sorting.

Local Open Scope nat_scope.
#[local] Set Warnings "-register-all".

(** ** JavaScript numbers *)

Inductive number : Type :=
  | NaN
  | NegInfinity
  | Finite (q : Q)
  | PosInfinity.

(** Strict order on the rationals, as a boolean (this is [Qlt] unfolded). *)
Definition Qltb (x y : Q) : bool :=
  (Qnum x * QDen y <? Qnum y * QDen x)%Z.

(** [a < b] on numbers: any comparison with NaN is false. *)
Definition num_lt (a b : number) : bool :=
  match a, b with
  | NaN, _ | _, NaN => false
  | NegInfinity, NegInfinity => false
  | NegInfinity, _ => true
  | _, NegInfinity => false
  | PosInfinity, _ => false
  | Finite _, PosInfinity => true
  | Finite x, Finite y => Qltb x y
  end.

(** [a > b] is [b < a]. *)
Definition num_gt (a b : number) : bool := num_lt b a.

Definition num_of_Z (z : Z) : number := Finite (inject_Z z).
Definition num_of_nat (n : nat) : number := num_of_Z (Z.of_nat n).

Definition isFinite (n : number) : bool :=
  match n with Finite _ => true | _ => false end.

(** * The tokenizer *)

Module Tokenizer.

(** A character is a UTF-16 code unit; [input[i]] is [input !! i], with
    [None] for JavaScript's [undefined]. *)
Abbreviation char := N (only parsing).
Abbreviation jsstring := (list N) (only parsing).

Definition chr (a : ascii) : char := N_of_ascii a.
Arguments chr a%_char.
Definition lit (s : string) : jsstring := chr <$> list_ascii_of_string s.

(** [s.substring(a, b)] for [a <= b]: both ends are clamped to the length. *)
Definition substring (s : jsstring) (a b : nat) : jsstring :=
  take (b - a) (drop a s).

(** String concatenation with a possibly undefined character:
    [value += input[pos]] appends the text "undefined" when the index is
    out of range. *)
Definition str_of (c : option char) : jsstring :=
  match c with
  | Some x => [x]
  | None => lit "undefined"
  end.

(** [c === x] for an indexed character [c] and a one-character literal. *)
Definition is_char (c : option char) (x : char) : bool :=
  bool_decide (c = Some x).

(** Modelled from the spec: the [Symbols] table ([./symbols] is not among
    the sources); the names are the ones the tokenizer uses. *)
Module Symbols.
Definition BACKSLASH : char := chr "\".
Definition HASH : char := chr "#".
Definition DOUBLE_QUOTE : char := 34%N.
Definition SINGLE_QUOTE : char := chr "'".
Definition R : char := chr "r".
Definition B : char := chr "b".
Definition PLUS : char := chr "+".
Definition MINUS : char := chr "-".
End Symbols.

(** Modelled from the spec: the [Literals] table ([./literals] is not among
    the sources). *)
Module Literals.
Definition TRUE : jsstring := lit "true".
Definition T : jsstring := lit "T".
Definition FALSE : jsstring := lit "false".
Definition F : jsstring := lit "F".
Definition NULL : jsstring := lit "null".
Definition N : jsstring := lit "N".
End Literals.

(** Modelled from the spec: the token kinds of [./token-types] (section 3,
    Token).  The string literal ["STRING"] used by [parseRegularString] is
    the value of [TokenType.STRING]. *)
Module TokenType.
Inductive t : Type :=
  | STRING | NUMBER | BOOLEAN | NULL | BINARY | SECTION_SEP
  | CURLY_OPEN | CURLY_CLOSE | BRACKET_OPEN | BRACKET_CLOSE
  | COMMA | COLON | TILDE
  | UNDEFINED.
End TokenType.

(** The sub-types the tokenizer passes as string literals; a byte string
    passes [TokenType.BINARY] in that slot. *)
Module SubType.
Inductive t : Type :=
  | REGULAR_STRING | RAW_STRING | OPEN_STRING | HEX | OCTAL | BINARY.
End SubType.

(** The dynamically typed [value] field of a token. *)
Inductive TokenValue : Type :=
  | VStr (s : jsstring)
  | VBool (b : bool)
  | VNull
  | VNum (n : number)
  | VBuffer (bytes : list N).

Record Token : Type := mkToken {
  position : nat;
  trow : nat;
  tcol : nat;
  text : jsstring;
  value : TokenValue;
  type : TokenType.t;
  subType : option SubType.t
}.

(** Modelled from the spec: the character classifier of [./is] (section
    4.1); the [is.ts] among the sources is another module.  The predicates
    take [input[i]], which may be undefined. *)
Module is_.

Definition isWhitespace (c : option char) : bool :=
  match c with
  | Some x => bool_decide (x ∈ [32; 9; 13; 10; 12; 11; 160; 65279]%N)
  | None => false
  end.

Definition isDigit (c : option char) : bool :=
  match c with
  | Some x => (48 <=? x)%N && (x <=? 57)%N
  | None => false
  end.

Definition isSpecialSymbol (c : option char) : bool :=
  match c with
  | Some x => bool_decide (x ∈ lit "{}[],:~")
  | None => false
  end.

Definition isQuote (c : option char) : bool :=
  is_char c Symbols.DOUBLE_QUOTE || is_char c Symbols.SINGLE_QUOTE.

Definition isValidOpenStringChar (c : option char) : bool :=
  match c with
  | Some _ =>
      negb (isSpecialSymbol c) && negb (isQuote c)
      && negb (is_char c Symbols.HASH)
  | None => false
  end.

Definition getSymbolTokenType (c : option char) : TokenType.t :=
  if is_char c (chr "{") then TokenType.CURLY_OPEN
  else if is_char c (chr "}") then TokenType.CURLY_CLOSE
  else if is_char c (chr "[") then TokenType.BRACKET_OPEN
  else if is_char c (chr "]") then TokenType.BRACKET_CLOSE
  else if is_char c (chr ",") then TokenType.COMMA
  else if is_char c (chr ":") then TokenType.COLON
  else if is_char c (chr "~") then TokenType.TILDE
  else TokenType.UNDEFINED.

End is_.

(** *** Regular expressions of the tokenizer *)

Definition isHexChar (x : char) : bool :=
  ((48 <=? x) && (x <=? 57) || (97 <=? x) && (x <=? 102)
   || (65 <=? x) && (x <=? 70))%N.
Definition isOctalChar (x : char) : bool := ((48 <=? x) && (x <=? 55))%N.
Definition isBinaryChar (x : char) : bool := ((48 <=? x) && (x <=? 49))%N.
Definition isDecimalChar (x : char) : bool := ((48 <=? x) && (x <=? 57))%N.
Definition isFloatChar (x : char) : bool :=
  isDecimalChar x || (x =? chr ".")%N.

(** [/[class]/.test(input[pos])]: [test] converts its argument to a
    string, so an undefined character is searched as the text "undefined";
    the class is not anchored and matches if any character is in it. *)
Definition class_test (cls : char → bool) (c : option char) : bool :=
  existsb cls (str_of c).

(** [/^[0-9a-fA-F]{n}$/.test(s)] *)
Definition regexHexN (n : nat) (s : jsstring) : bool :=
  bool_decide (length s = n) && forallb isHexChar s.
Definition regexHex4 : jsstring → bool := regexHexN 4.
Definition regexHex2 : jsstring → bool := regexHexN 2.

(** *** [parseInt] and [String.fromCharCode] *)

Definition digitValue (x : char) : option N :=
  if ((48 <=? x) && (x <=? 57))%N then Some (x - 48)%N
  else if ((97 <=? x) && (x <=? 122))%N then Some (x - 87)%N
  else if ((65 <=? x) && (x <=? 90))%N then Some (x - 55)%N
  else None.

(** The longest prefix of radix-[R] digits, read as an integer; [None] when
    that prefix is empty. *)
Fixpoint radixDigits (R : N) (s : jsstring) (acc : option N) : option N :=
  match s with
  | [] => acc
  | x :: r =>
      match digitValue x with
      | Some d =>
          if (d <? R)%N then radixDigits R r (Some (default 0 acc * R + d)%N)
          else acc
      | None => acc
      end
  end.

(** White space and line terminators skipped by [parseInt]. *)
Definition isStrWhiteSpaceChar (x : char) : bool :=
  bool_decide (x ∈ [9; 10; 11; 12; 13; 32; 160; 5760; 8232; 8233; 8239;
                    8287; 12288; 65279]%N)
  || ((8192 <=? x) && (x <=? 8202))%N.

Fixpoint trimStart (s : jsstring) : jsstring :=
  match s with
  | x :: r => if isStrWhiteSpaceChar x then trimStart r else s
  | [] => []
  end.

(** [parseInt(s, radix)] as ECMAScript defines it; the result is the exact
    integer (the final rounding to a double is not modelled). *)
Definition parseInt (s : jsstring) (radix : N) : number :=
  let s1 := trimStart s in
  let negative := is_char (head s1) Symbols.MINUS in
  let s2 := if negative || is_char (head s1) Symbols.PLUS
            then drop 1 s1 else s1 in
  if negb (radix =? 0)%N && ((radix <? 2) || (36 <? radix))%N then NaN
  else
    let R := if (radix =? 0)%N then 10%N else radix in
    let stripPrefix := (radix =? 0)%N || (radix =? 16)%N in
    let hasPrefix :=
      stripPrefix
      && (bool_decide (take 2 s2 = lit "0x")
          || bool_decide (take 2 s2 = lit "0X")) in
    let s3 := if hasPrefix then drop 2 s2 else s2 in
    let R := if hasPrefix then 16%N else R in
    match radixDigits R s3 None with
    | None => NaN
    | Some v =>
        num_of_Z (if negative then - Z.of_N v else Z.of_N v)
    end.

(** [String.fromCharCode(n)]: one code unit, [n] truncated modulo 2^16. *)
Definition fromCharCode (n : number) : jsstring :=
  match n with
  | Finite q => [Z.to_N ((Qnum q ÷ Z.pos (Qden q)) `mod` 65536)]
  | _ => [0%N]
  end.

(** *** Results *)

Inductive Error : Type :=
  | EscapeAtEnd (row col : nat)
  | InvalidUnicodeEscape (hex : jsstring) (row col : nat)
  | InvalidHexEscape (hex : jsstring) (row col : nat)
  | StringNotClosed (row col : nat)
  | RawUnexpectedEnd (row col : nat)
  | RawExpectedQuote (row col : nat) (found : option char)
  | RawNotClosed (row col : nat)
  | ByteUnexpectedEnd (row col : nat)
  | ByteExpectedQuote (row col : nat) (found : option char)
  | ByteNotClosed (row col : nat)
  | UnexpectedCharacter (found : option char) (row col : nat).

(** A call returns, throws, or is still running when the fuel given to its
    loops is used up. *)
Inductive outcome (A : Type) : Type :=
  | Ok (a : A)
  | Throw (e : Error)
  | Hang.
Arguments Ok {A} a.
Arguments Throw {A} e.
Arguments Hang {A}.

Definition bind {A B} (m : outcome A) (k : A → outcome B) : outcome B :=
  match m with
  | Ok a => k a
  | Throw e => Throw e
  | Hang => Hang
  end.

Notation "'let*' p ':=' m 'in' k" := (bind m (λ p, k))
  (at level 10, p pattern, m at level 100, k at level 200, only parsing).

(** *** The tokenizer state *)

Record Tokenizer : Type := mkTokenizer {
  pos : nat;
  row : nat;
  col : nat;
  reachedEnd : bool
}.

Definition initial : Tokenizer :=
  {| pos := 0; row := 1; col := 1; reachedEnd := false |}.

Section WithInput.

(** The built-ins the tokenizer calls and whose results it only stores:
    [String.prototype.normalize('NFC')], [parseFloat] and
    [Buffer.from(_, 'base64')]. *)
Variable normalizeNFC : jsstring → jsstring.
Variable parseFloat : jsstring → number.
Variable bufferFromBase64 : jsstring → list N.

Variable input : jsstring.

(** One iteration of the [for] loop of [advance]. *)
Definition advance_once (t : Tokenizer) : Tokenizer :=
  let t1 :=
    if is_char (input !! pos t) 10%N
    then {| pos := pos t; row := S (row t); col := 1;
            reachedEnd := reachedEnd t |}
    else {| pos := pos t; row := row t; col := S (col t);
            reachedEnd := reachedEnd t |} in
  {| pos := S (pos t1); row := row t1; col := col t1;
     reachedEnd := bool_decide (length input ≤ S (pos t1)) |}.

Fixpoint advance_loop (step : nat) (t : Tokenizer) : Tokenizer :=
  match step with
  | 0 => t
  | S step' =>
      let t' := advance_once t in
      if reachedEnd t' then t' else advance_loop step' t'
  end.

Definition advance (step : nat) (t : Tokenizer) : Tokenizer :=
  if reachedEnd t then t else advance_loop step t.

Fixpoint parseSingleLineComment (fuel : nat) (t : Tokenizer)
  : outcome Tokenizer :=
  match fuel with
  | 0 => Hang
  | S fuel' =>
      if negb (reachedEnd t) && negb (is_char (input !! pos t) 10%N)
      then parseSingleLineComment fuel' (advance 1 t)
      else Ok t
  end.

(** The [while] loop of [parseRegularString]; it carries [value] and
    [needToNormalize]. *)
Fixpoint regularString_loop (fuel : nat) (encloser : char)
    (value : jsstring) (needToNormalize : bool) (t : Tokenizer)
  : outcome (jsstring * bool * Tokenizer) :=
  match fuel with
  | 0 => Hang
  | S fuel' =>
      if negb (reachedEnd t) && negb (is_char (input !! pos t) encloser)
      then
        if is_char (input !! pos t) Symbols.BACKSLASH then
          let t := advance 1 t in
          if reachedEnd t then Throw (EscapeAtEnd (row t) (col t))
          else
            let c := input !! pos t in
            if is_char c (chr "b") then
              regularString_loop fuel' encloser (value ++ [8%N])
                needToNormalize (advance 1 t)
            else if is_char c (chr "f") then
              regularString_loop fuel' encloser (value ++ [12%N])
                needToNormalize (advance 1 t)
            else if is_char c (chr "n") then
              regularString_loop fuel' encloser (value ++ [10%N])
                needToNormalize (advance 1 t)
            else if is_char c (chr "r") then
              regularString_loop fuel' encloser (value ++ [13%N])
                needToNormalize (advance 1 t)
            else if is_char c (chr "t") then
              regularString_loop fuel' encloser (value ++ [9%N])
                needToNormalize (advance 1 t)
            else if is_char c (chr "u") then
              let hex := substring input (pos t + 1) (pos t + 5) in
              if regexHex4 hex then
                regularString_loop fuel' encloser
                  (value ++ fromCharCode (parseInt hex 16)) true
                  (advance 1 (advance 4 t))
              else Throw (InvalidUnicodeEscape hex (row t) (col t))
            else if is_char c (chr "x") then
              let hexByte := substring input (pos t + 1) (pos t + 3) in
              if regexHex2 hexByte then
                regularString_loop fuel' encloser
                  (value ++ fromCharCode (parseInt hexByte 16)) true
                  (advance 1 (advance 2 t))
              else Throw (InvalidHexEscape hexByte (row t) (col t))
            else
              regularString_loop fuel' encloser (value ++ str_of c)
                needToNormalize (advance 1 t)
        else
          regularString_loop fuel' encloser
            (value ++ str_of (input !! pos t)) needToNormalize (advance 1 t)
      else Ok (value, needToNormalize, t)
  end.

Definition parseRegularString (fuel : nat) (encloser : char) (t : Tokenizer)
  : outcome (Token * Tokenizer) :=
  let start := pos t in
  let startRow := row t in
  let startCol := col t in
  let t := advance 1 t in
  let* (value, needToNormalize, t) := regularString_loop fuel encloser [] false t in
  if reachedEnd t then Throw (StringNotClosed startRow startCol)
  else
    let t := advance 1 t in
    let tokenText := [encloser] ++ value ++ [encloser] in
    let value := if needToNormalize then normalizeNFC value else value in
    Ok (mkToken start startRow startCol tokenText (VStr value)
          TokenType.STRING (Some SubType.REGULAR_STRING), t).

(** The scanning loop shared by [parseRawString] and [parseByteString]. *)
Fixpoint untilEncloser_loop (fuel : nat) (encloser : option char)
    (t : Tokenizer) : outcome Tokenizer :=
  match fuel with
  | 0 => Hang
  | S fuel' =>
      if negb (reachedEnd t) && negb (bool_decide (input !! pos t = encloser))
      then untilEncloser_loop fuel' encloser (advance 1 t)
      else Ok t
  end.

Definition parseRawString (fuel : nat) (t : Tokenizer)
  : outcome (Token * Tokenizer) :=
  let start := pos t in
  let startRow := row t in
  let startCol := col t in
  let t := advance 1 t in
  if reachedEnd t then Throw (RawUnexpectedEnd startRow startCol)
  else
    let encloser := input !! pos t in
    if negb (is_char encloser Symbols.DOUBLE_QUOTE)
       && negb (is_char encloser Symbols.SINGLE_QUOTE)
    then Throw (RawExpectedQuote startRow startCol encloser)
    else
      let t := advance 1 t in
      let* t := untilEncloser_loop fuel encloser t in
      if reachedEnd t then Throw (RawNotClosed startRow startCol)
      else
        let t := advance 1 t in
        let tokenText := substring input start (pos t) in
        let value := substring tokenText 2 (length tokenText - 1) in
        Ok (mkToken start startRow startCol tokenText (VStr value)
              TokenType.STRING (Some SubType.RAW_STRING), t).

Definition parseByteString (fuel : nat) (t : Tokenizer)
  : outcome (Token * Tokenizer) :=
  let start := pos t in
  let startRow := row t in
  let startCol := col t in
  let t := advance 1 t in
  if reachedEnd t then Throw (ByteUnexpectedEnd startRow startCol)
  else
    let encloser := input !! pos t in
    if negb (is_char encloser Symbols.DOUBLE_QUOTE)
       && negb (is_char encloser Symbols.SINGLE_QUOTE)
    then Throw (ByteExpectedQuote startRow startCol encloser)
    else
      let t := advance 1 t in
      let* t := untilEncloser_loop fuel encloser t in
      if reachedEnd t then Throw (ByteNotClosed startRow startCol)
      else
        let t := advance 1 t in
        let tokenText := substring input start (pos t) in
        let base64 := substring tokenText 2 (length tokenText - 1) in
        Ok (mkToken start startRow startCol tokenText
              (VBuffer (bufferFromBase64 base64))
              TokenType.BINARY (Some SubType.BINARY), t).

(** [while (/[class]/.test(input[pos])) { value += input[pos]; advance() }]
    The text has no largest length here; an engine throws a RangeError
    when [value] outgrows the strings it can hold. *)
Fixpoint digits_loop (fuel : nat) (cls : char → bool) (value : jsstring)
    (t : Tokenizer) : outcome (jsstring * Tokenizer) :=
  match fuel with
  | 0 => Hang
  | S fuel' =>
      if class_test cls (input !! pos t)
      then digits_loop fuel' cls (value ++ str_of (input !! pos t))
             (advance 1 t)
      else Ok (value, t)
  end.

(** The prefixed forms [0x], [0c] and [0b]. *)
Definition parsePrefixed (fuel : nat) (cls : char → bool) (value : jsstring)
    (t : Tokenizer) : outcome (jsstring * Tokenizer) :=
  let value :=
    value ++ str_of (input !! pos t) ++ str_of (input !! (pos t + 1)) in
  digits_loop fuel cls value (advance 2 t).

(** The branch of [parseNumber] taken when the number starts with [0]:
    the [switch] on the following character. *)
Definition parseZeroPrefixed (fuel : nat) (value : jsstring) (t : Tokenizer)
  : outcome (jsstring * N * bool * option SubType.t * Tokenizer) :=
  let next := input !! (pos t + 1) in
  if is_char next (chr "X") || is_char next (chr "x") then
    let* (value, t) := parsePrefixed fuel isHexChar value t in
    Ok (value, 16%N, false, Some SubType.HEX, t)
  else if is_char next (chr "C") || is_char next (chr "c") then
    let* (value, t) := parsePrefixed fuel isOctalChar value t in
    Ok (value, 8%N, false, Some SubType.OCTAL, t)
  else if is_char next (chr "B") || is_char next (chr "b") then
    let* (value, t) := parsePrefixed fuel isBinaryChar value t in
    Ok (value, 2%N, false, Some SubType.BINARY, t)
  else
    let* (value, t) := digits_loop fuel isFloatChar value t in
    Ok (value, 10%N, false, None, t).

(** The other branch: whole part, fraction and exponent. *)
Definition parseDecimal (fuel : nat) (value : jsstring) (t : Tokenizer)
  : outcome (jsstring * N * bool * option SubType.t * Tokenizer) :=
  let* (value, t) := digits_loop fuel isDecimalChar value t in
  let* (value, hasDecimal, t) :=
    (if is_char (input !! pos t) (chr ".") then
       let* (value, t) :=
         digits_loop fuel isDecimalChar (value ++ lit ".") (advance 1 t) in
       Ok (value, true, t)
     else Ok (value, false, t)) in
  let* (value, hasExponent, t) :=
    (if is_char (input !! pos t) (chr "e")
        || is_char (input !! pos t) (chr "E") then
       let value := value ++ str_of (input !! pos t) in
       let t := advance 1 t in
       let '(value, t) :=
         if is_char (input !! pos t) Symbols.PLUS
            || is_char (input !! pos t) Symbols.MINUS
         then (value ++ str_of (input !! pos t), advance 1 t)
         else (value, t) in
       let* (value, t) := digits_loop fuel isDecimalChar value t in
       Ok (value, true, t)
     else Ok (value, false, t)) in
  Ok (value, 10%N, hasDecimal || hasExponent, None, t).

Definition parseNumber (fuel : nat) (t : Tokenizer)
  : outcome (option Token * Tokenizer) :=
  let start := pos t in
  let startRow := row t in
  let startCol := col t in
  let value : jsstring := [] in
  if is_char (input !! pos t) Symbols.MINUS
     && negb (is_.isDigit (input !! (pos t + 1)))
  then Ok (None, t)
  else
    let '(value, t) :=
      if is_char (input !! pos t) Symbols.MINUS
      then (value ++ str_of (input !! pos t), advance 1 t)
      else (value, t) in
    let '(value, t) :=
      if is_char (input !! pos t) Symbols.PLUS
      then (value ++ str_of (input !! pos t), advance 1 t)
      else (value, t) in
    let* (value, base, isFloat, subType, t) :=
      (if is_char (input !! pos t) (chr "0")
       then parseZeroPrefixed fuel value t
       else parseDecimal fuel value t) in
    let numberValue :=
      if (base =? 10)%N && isFloat then parseFloat value
      else parseInt value base in
    Ok (Some (mkToken start startRow startCol value (VNum numberValue)
                TokenType.NUMBER subType), t).

(** The [while] loop of [parseLiteralOrOpenString]; it carries [lastPos]. *)
Fixpoint openString_loop (fuel : nat) (lastPos : nat) (t : Tokenizer)
  : outcome (nat * Tokenizer) :=
  match fuel with
  | 0 => Hang
  | S fuel' =>
      if negb (reachedEnd t) && is_.isValidOpenStringChar (input !! pos t)
      then
        let char := input !! pos t in
        if is_char char Symbols.MINUS
           && bool_decide (substring input (pos t) (pos t + 3) = lit "---")
        then Ok (lastPos, t)
        else
          let lastPos :=
            if negb (is_.isWhitespace char) then pos t else lastPos in
          openString_loop fuel' lastPos (advance 1 t)
      else Ok (lastPos, t)
  end.

(** The final [switch (value)] of [parseLiteralOrOpenString]. *)
Definition literalToken (start startRow startCol : nat) (value : jsstring)
  : Token :=
  if bool_decide (value = Literals.TRUE) || bool_decide (value = Literals.T)
  then mkToken start startRow startCol value (VBool true)
         TokenType.BOOLEAN None
  else if bool_decide (value = Literals.FALSE)
          || bool_decide (value = Literals.F)
  then mkToken start startRow startCol value (VBool false)
         TokenType.BOOLEAN None
  else if bool_decide (value = Literals.NULL)
          || bool_decide (value = Literals.N)
  then mkToken start startRow startCol value VNull TokenType.NULL None
  else mkToken start startRow startCol value (VStr value)
         TokenType.STRING (Some SubType.OPEN_STRING).

Definition parseLiteralOrOpenString (fuel : nat) (t : Tokenizer)
  : outcome (Token * Tokenizer) :=
  let start := pos t in
  let startRow := row t in
  let startCol := col t in
  let startPos := pos t in
  let* (lastPos, t) := openString_loop fuel (pos t) t in
  let value := substring input startPos (lastPos + 1) in
  if bool_decide (value = [])
  then Throw (UnexpectedCharacter (input !! pos t) startRow startCol)
  else Ok (literalToken start startRow startCol value, t).

(** The main loop of [tokenize]. *)
Fixpoint tokenize_loop (fuel : nat) (tokens : list Token) (t : Tokenizer)
  : outcome (list Token) :=
  match fuel with
  | 0 => Hang
  | S fuel' =>
      if bool_decide (pos t < length input) then
        let char := input !! pos t in
        let next := input !! (pos t + 1) in
        if is_.isWhitespace char then
          tokenize_loop fuel' tokens (advance 1 t)
        else if is_char char Symbols.HASH then
          let* t := parseSingleLineComment fuel' t in
          tokenize_loop fuel' tokens t
        else if is_.isQuote char then
          let* (token, t) := parseRegularString fuel' (default 0%N char) t in
          tokenize_loop fuel' (tokens ++ [token]) t
        else if is_char char Symbols.R && is_.isQuote next then
          let* (token, t) := parseRawString fuel' t in
          tokenize_loop fuel' (tokens ++ [token]) t
        else if is_char char Symbols.B && is_.isQuote next then
          let* (token, t) := parseByteString fuel' t in
          tokenize_loop fuel' (tokens ++ [token]) t
        else if is_.isSpecialSymbol char then
          let token :=
            mkToken (pos t) (row t) (col t) (str_of char)
              (VStr (str_of char)) (is_.getSymbolTokenType char) None in
          tokenize_loop fuel' (tokens ++ [token]) (advance 1 t)
        else if is_char char Symbols.PLUS || is_char char Symbols.MINUS
                || is_.isDigit char then
          if is_char char Symbols.MINUS
             && bool_decide (substring input (pos t) (pos t + 3) = lit "---")
          then
            let token :=
              mkToken (pos t) (row t) (col t) (lit "---") (VStr (lit "---"))
                TokenType.SECTION_SEP None in
            tokenize_loop fuel' (tokens ++ [token]) (advance 3 t)
          else
            let* (token, t) := parseNumber fuel' t in
            match token with
            | Some token => tokenize_loop fuel' (tokens ++ [token]) t
            | None =>
                let* (token, t) := parseLiteralOrOpenString fuel' t in
                tokenize_loop fuel' (tokens ++ [token]) t
            end
        else
          let* (token, t) := parseLiteralOrOpenString fuel' t in
          tokenize_loop fuel' (tokens ++ [token]) t
      else Ok tokens
  end.

Definition tokenize (fuel : nat) : outcome (list Token) :=
  tokenize_loop fuel [] initial.

End WithInput.

End Tokenizer.

(** ** The tokenizer's specification *)

Module TokenizerSpec.
Import Tokenizer.

(** *** Specification side of the regular string (spec section 4.2.3) *)

(** The value of a run of hexadecimal digits. *)
Definition hexDigit (x : char) : N := default 0%N (digitValue x).
Definition hexValue (s : jsstring) : N :=
  foldl (λ acc x, acc * 16 + hexDigit x)%N 0%N s.

(** The table of simple escapes: [\b \f \n \r \t] give a control
    character, any other character stands for itself. *)
Definition simpleEscape (e : char) : char :=
  if bool_decide (e = chr "b") then 8%N
  else if bool_decide (e = chr "f") then 12%N
  else if bool_decide (e = chr "n") then 10%N
  else if bool_decide (e = chr "r") then 13%N
  else if bool_decide (e = chr "t") then 9%N
  else e.

Inductive decoded : Type :=
  | Decoded (value : jsstring) (numericEscape : bool) (rest : jsstring)
  | BadUnicodeEscape
  | BadHexEscape
  | EndsMidEscape
  | Unterminated.

(** Decoding of the characters that follow the opening quote [q], as the
    specification words it.  [value] is what has been decoded so far and
    [numeric] records whether a [\u] or [\x] escape was used; [rest] is the
    source text after the closing quote. *)
Fixpoint decode (q : char) (s : jsstring) (value : jsstring) (numeric : bool)
  : decoded :=
  match s with
  | [] => Unterminated
  | c :: r =>
      if bool_decide (c = q) then Decoded value numeric r
      else if bool_decide (c = Symbols.BACKSLASH) then
        match r with
        | [] => EndsMidEscape
        | e :: r1 =>
            if bool_decide (e = chr "u") then
              match r1 with
              | h1 :: h2 :: h3 :: h4 :: r2 =>
                  if forallb isHexChar [h1; h2; h3; h4]
                  then decode q r2 (value ++ [hexValue [h1; h2; h3; h4]]) true
                  else BadUnicodeEscape
              | _ => BadUnicodeEscape
              end
            else if bool_decide (e = chr "x") then
              match r1 with
              | h1 :: h2 :: r2 =>
                  if forallb isHexChar [h1; h2]
                  then decode q r2 (value ++ [hexValue [h1; h2]]) true
                  else BadHexEscape
              | _ => BadHexEscape
              end
            else decode q r1 (value ++ [simpleEscape e]) numeric
        end
      else decode q r (value ++ [c]) numeric
  end.

(** The end flag of a tokenizer state agrees with its position. *)
Definition wf (input : jsstring) (t : Tokenizer) : Prop :=
  reachedEnd t = bool_decide (length input ≤ pos t).

(** What the loop of [parseRegularString] returns, in terms of [decode]. *)
Definition loop_post (input : jsstring) (q : char) (d : decoded)
    (o : outcome (jsstring * bool * Tokenizer)) : Prop :=
  match d with
  | Decoded v numeric rest =>
      ∃ t', o = Ok (v, numeric, t') ∧ wf input t' ∧ drop (pos t') input = q :: rest
  | BadUnicodeEscape => ∃ h r c, o = Throw (InvalidUnicodeEscape h r c)
  | BadHexEscape => ∃ h r c, o = Throw (InvalidHexEscape h r c)
  | EndsMidEscape => ∃ r c, o = Throw (EscapeAtEnd r c)
  | Unterminated =>
      ∃ v numeric t', o = Ok (v, numeric, t') ∧ reachedEnd t' = true
  end.

(** *** Specification side of the open string (spec section 4.2.5) *)

(** The characters an open string reads: while the character is legal in
    an open string and the text does not continue with [---]. *)
Fixpoint openRun (s : jsstring) : jsstring :=
  match s with
  | [] => []
  | c :: r =>
      if is_.isValidOpenStringChar (Some c)
         && negb (bool_decide (substring s 0 3 = lit "---"))
      then c :: openRun r
      else []
  end.

(** Removal of the trailing white space. *)
Fixpoint trimEnd (s : jsstring) : jsstring :=
  match s with
  | [] => []
  | c :: r =>
      match trimEnd r with
      | [] => if is_.isWhitespace (Some c) then [] else [c]
      | r' => c :: r'
      end
  end.

Definition whitespace (x : char) : bool := is_.isWhitespace (Some x).

(** The six literals of the final [switch]. *)
Definition literals : list jsstring :=
  [lit "T"; lit "true"; lit "F"; lit "false"; lit "N"; lit "null"].

(** The tokens that [parseLiteralOrOpenString] makes: open strings,
    booleans and null. *)
Definition isOpenStringKind (tok : Token) : Prop :=
  subType tok = Some SubType.OPEN_STRING
  ∨ type tok = TokenType.BOOLEAN ∨ type tok = TokenType.NULL.

(** What such a token must be, given the input it was read from. *)
Definition openStringToken (input : jsstring) (tok : Token) : Prop :=
  let v := trimEnd (openRun (drop (position tok) input)) in
  text tok = v ∧ v ≠ []
  ∧ (v = lit "T" ∨ v = lit "true" →
     value tok = VBool true ∧ type tok = TokenType.BOOLEAN)
  ∧ (v = lit "F" ∨ v = lit "false" →
     value tok = VBool false ∧ type tok = TokenType.BOOLEAN)
  ∧ (v = lit "N" ∨ v = lit "null" →
     value tok = VNull ∧ type tok = TokenType.NULL)
  ∧ (v ∉ literals →
     value tok = VStr v ∧ type tok = TokenType.STRING
     ∧ subType tok = Some SubType.OPEN_STRING).

(** Whether [s] occurs in [input] as a substring. *)
Definition occursIn (s input : jsstring) : bool :=
  existsb (λ i, bool_decide (substring input i (i + length s) = s))
    (seq 0 (S (length input))).

(** The input ["a\nb"]: a quoted string with the escape [\n] (six
    characters; Rocq strings have no escapes). *)
Definition quoted_a_nl_b : jsstring := [34%N] ++ lit "a\nb" ++ [34%N].

End TokenizerSpec.

(** * The AST parser *)

Module AST.

Local Open Scope string_scope.

(** The [value] of a token handed to the parser: a string, a number, a
    boolean or null. *)
Inductive Prim : Type :=
  | PStr (s : string)
  | PNum (n : number)
  | PBool (b : bool)
  | PNull.

(** A token as the parser reads it: [value], [type] and the position that
    an error reports. *)
Record Token : Type := mkToken {
  value : Prim;
  type : string;
  index : nat;
  row : nat;
  col : nat
}.

(** Containers are JavaScript objects shared between the stack and the
    [values] array of their parent: they live in a store and are named by
    their address.  A key-value pair is referenced from one array slot
    only, so it is stored in place; its [value] is [None] while undefined. *)
Abbreviation addr := nat (only parsing).

Inductive ParserTreeValue : Type :=
  | VPrim (p : Prim)
  | VKeyVal (key : string) (value : option ParserTreeValue)
  | VTree (a : addr).

Record ASTParserTree : Type := mkTree {
  ttype : string;
  values : list ParserTreeValue
}.

#[export] Instance ASTParserTree_inhabited : Inhabited ASTParserTree :=
  populate (mkTree "" []).

(** The parser object: the store of containers, [stack] (bottom first, as
    the JavaScript array) and [lastToken].  The field [lastObj] is never
    read or written and is left out. *)
Record ASTParser : Type := mkParser {
  store : list ASTParserTree;
  stack : list addr;
  lastToken : option Token
}.

Definition initial : ASTParser :=
  {| store := []; stack := []; lastToken := None |}.

(** The error built by [throwError(token, message)]; the message
    [Expecting "x" but found "y"] is kept as its two parts. *)
Record Error : Type := mkError {
  errorToken : Token;
  expecting : string;
  found : string
}.

(** [process] returns or throws; in both cases the parser object keeps the
    changes made so far. *)
Inductive result : Type :=
  | Done (p : ASTParser)
  | Throw (e : Error) (p : ASTParser).

(** [v === s] for a string literal [s]. *)
Definition is_str (v : Prim) (s : string) : bool :=
  match v with
  | PStr x => bool_decide (x = s)
  | _ => false
  end.

Definition lastTokenIs (p : ASTParser) (s : string) : bool :=
  match lastToken p with
  | Some t => is_str (value t) s
  | None => false
  end.

(** Modelled from the spec: [isKeyVal] and [isParserTree] of [../is] (not
    among the sources), the tests for the two object shapes of section 3,
    Parser tree node. *)
Definition isKeyVal (v : ParserTreeValue) : bool :=
  match v with VKeyVal _ _ => true | _ => false end.

Definition isParserTree (v : ParserTreeValue) : bool :=
  match v with VTree _ => true | _ => false end.

(** JavaScript truthiness of a child: the empty string, zero, NaN, false
    and null are falsy, every object is truthy. *)
Definition truthy (v : ParserTreeValue) : bool :=
  match v with
  | VPrim (PStr s) => negb (bool_decide (s = ""))
  | VPrim (PNum (Finite q)) => negb (Qeq_bool q 0)
  | VPrim (PNum NaN) => false
  | VPrim (PNum _) => true
  | VPrim (PBool b) => b
  | VPrim PNull => false
  | VKeyVal _ _ | VTree _ => true
  end.

(** [['string', 'number', 'boolean'].indexOf(typeof v) > -1] *)
Definition isPrimitiveType (v : ParserTreeValue) : bool :=
  match v with
  | VPrim (PStr _) | VPrim (PNum _) | VPrim (PBool _) => true
  | _ => false
  end.

Definition setStore (s : list ASTParserTree) (p : ASTParser) : ASTParser :=
  {| store := s; stack := stack p; lastToken := lastToken p |}.
Definition setStack (s : list addr) (p : ASTParser) : ASTParser :=
  {| store := store p; stack := s; lastToken := lastToken p |}.
Definition setLastToken (t : option Token) (p : ASTParser) : ASTParser :=
  {| store := store p; stack := stack p; lastToken := t |}.

(** [obj.values] and its update, for the container at address [a]. *)
Definition valuesAt (p : ASTParser) (a : addr) : list ParserTreeValue :=
  values (store p !!! a).
Definition setValuesAt (a : addr) (vs : list ParserTreeValue)
    (p : ASTParser) : ASTParser :=
  setStore (<[a := mkTree (ttype (store p !!! a)) vs]> (store p)) p.

(** [obj.values[obj.values.length - 1] = v] on a non-empty array. *)
Definition setLast (v : ParserTreeValue) (vs : list ParserTreeValue)
  : list ParserTreeValue :=
  <[length vs - 1 := v]> vs.

Definition getObject (p : ASTParser) : addr * ASTParser :=
  let p :=
    if bool_decide (length (stack p) = 0)
    then setStack (stack p ++ [length (store p)])
           (setStore (store p ++ [mkTree "object" []]) p)
    else p in
  (default 0 (last (stack p)), p).

Definition addValue (v : ParserTreeValue) (p : ASTParser) : ASTParser :=
  let '(obj, p) := getObject p in
  if lastTokenIs p ":" then
    match last (valuesAt p obj) with
    | Some (VKeyVal key _) =>
        setValuesAt obj (setLast (VKeyVal key (Some v)) (valuesAt p obj)) p
    | _ => p
    end
  else setValuesAt obj (valuesAt p obj ++ [v]) p.

Definition push (type : string) (p : ASTParser) : ASTParser :=
  let '(_, p) := getObject p in
  let newObject := length (store p) in
  let p := setStore (store p ++ [mkTree type []]) p in
  let p := addValue (VTree newObject) p in
  setStack (stack p ++ [newObject]) p.

Definition pop (type : string) (token : Token) (p : ASTParser) : result :=
  let '(obj, p) := getObject p in
  let objType := ttype (store p !!! obj) in
  if negb (bool_decide (objType = type)) then
    Throw
      (mkError token
         (if bool_decide (objType = "object") then "}" else "]")
         (if bool_decide (objType = "object") then "]" else "}"))
      p
  else Done (setStack (removelast (stack p)) p).

Section Process.

(** [Number.prototype.toString], used to turn a numeric key into text. *)
Variable numberToString : number → string.

(** [lastVal.toString()] for a primitive. *)
Definition toString (v : ParserTreeValue) : string :=
  match v with
  | VPrim (PStr s) => s
  | VPrim (PNum n) => numberToString n
  | VPrim (PBool b) => if b then "true" else "false"
  | _ => "[object Object]"
  end.

(** The [:] branch of [process]; it throws nothing. *)
Definition processColon (obj : addr) (p : ASTParser) : ASTParser :=
  match last (valuesAt p obj) with
  | Some lastVal =>
      if truthy lastVal && isPrimitiveType lastVal
      then setValuesAt obj
             (setLast (VKeyVal (toString lastVal) None) (valuesAt p obj)) p
      else p
  | None => p
  end.

Definition process (token : Token) (p : ASTParser) : result :=
  let '(obj, p) := getObject p in
  let r :=
    if is_str (value token) "{" then Done (push "object" p)
    else if is_str (value token) "[" then Done (push "array" p)
    else if negb (bool_decide (type token = "sep"))
    then Done (addValue (VPrim (value token)) p)
    else if is_str (value token) ":" then Done (processColon obj p)
    else if is_str (value token) "," then
      Done (if lastTokenIs p "," then addValue (VPrim (PStr "")) p else p)
    else if is_str (value token) "}" || is_str (value token) "]" then
      pop (if is_str (value token) "}" then "object" else "array") token p
    else Done p in
  match r with
  | Done p => Done (setLastToken (Some token) p)
  | Throw e p => Throw e p
  end.

(** The caller's loop: [process] on each token, until one throws. *)
Fixpoint processAll (tokens : list Token) (p : ASTParser) : result :=
  match tokens with
  | [] => Done p
  | token :: rest =>
      match process token p with
      | Done p => processAll rest p
      | Throw e p => Throw e p
      end
  end.

End Process.

(** *** [toObject] *)

(** What [generateObject] builds: a JavaScript object or array with the
    properties of its own in the order of their first assignment (the
    engine enumerates integer keys before the others), whose leaves are
    the tree values stored as they are (or undefined). *)
Inductive Materialized : Type :=
  | MLeaf (v : option ParserTreeValue)
  | MContainer (isArray : bool) (props : list (string * Materialized)).

(** [container[key] = m], for a key other than [__proto__]: that name is
    the accessor inherited from [Object.prototype], and assigning to it
    adds no property of the container's own. *)
Fixpoint assign (key : string) (m : Materialized)
    (props : list (string * Materialized)) : list (string * Materialized) :=
  match props with
  | [] => [(key, m)]
  | (k, x) :: rest =>
      if bool_decide (k = key) then (k, m) :: rest
      else (k, x) :: assign key m rest
  end.

(** [generateObject(root, container)]; the fuel bounds the nesting depth
    and [None] means it ran out. *)
Fixpoint generateObject (fuel : nat) (st : list ASTParserTree)
    (root : ASTParserTree) (isArray : bool) : option Materialized :=
  match fuel with
  | 0 => None
  | S fuel' =>
      let step (acc : option (nat * list (string * Materialized)))
               (value : ParserTreeValue) :=
        '(index, props) ← acc;
        match value with
        | VTree a =>
            let child := st !!! a in
            if bool_decide (ttype child = "object") then
              m ← generateObject fuel' st child false;
              Some (S index, assign (pretty index) m props)
            else if bool_decide (ttype child = "array") then
              m ← generateObject fuel' st child true;
              Some (S index, assign (pretty index) m props)
            else Some (S index, props)
        | VKeyVal key (Some (VTree a)) =>
            let child := st !!! a in
            m ← generateObject fuel' st child
                  (negb (bool_decide (ttype child = "object")));
            Some (S index, assign key m props)
        | VKeyVal key v => Some (S index, assign key (MLeaf v) props)
        | VPrim _ => Some (S index, assign (pretty index) (MLeaf (Some value)) props)
        end in
      '(_, props) ← foldl step (Some (0, [])) (values root);
      Some (MContainer isArray props)
  end.

Inductive ToObjectResult : Type :=
  | RNull
  | RUndefined
  | RChild (v : ParserTreeValue)
  | RGenerated (m : Materialized).

Definition toObject (fuel : nat) (p : ASTParser) : option ToObjectResult :=
  match stack p with
  | [] => Some RNull
  | root :: _ =>
      let tree := store p !!! root in
      match values tree with
      | [] => Some RUndefined
      | [v] => Some (RChild v)
      | _ => RGenerated <$> generateObject fuel (store p) tree false
      end
  end.

End AST.

(** ** Vocabulary for the parser's properties *)

Module ASTSpec.
Import AST.

Local Open Scope string_scope.

(** A token that opens a container: [process] tests its value first,
    whatever its type. *)
Definition isOpen (t : Token) : bool :=
  is_str (value t) "{" || is_str (value t) "[".

(** A token that closes a container: a separator whose value is a closing
    bracket. *)
Definition isClose (t : Token) : bool :=
  bool_decide (type t = "sep")
  && (is_str (value t) "}" || is_str (value t) "]").

(** The separator [:]. *)
Definition isColon (t : Token) : bool :=
  bool_decide (type t = "sep") && is_str (value t) ":".

(** The type of container a closing token closes. *)
Definition closingType (t : Token) : string :=
  if is_str (value t) "}" then "object" else "array".

(** The depth of the stack after a token, from the depth before it: the
    root is created if the stack is empty, an opening token adds one
    container and a closing token removes one. *)
Definition depthAfter (depth : nat) (t : Token) : nat :=
  let depth := Nat.max depth 1 in
  if isOpen t then S depth
  else if isClose t then depth - 1
  else depth.

(** Brackets balance: no closing token without a container opened before
    it, and none left open at the end. *)
Fixpoint balanced (opened : nat) (tokens : list Token) : bool :=
  match tokens with
  | [] => bool_decide (opened = 0)
  | t :: rest =>
      if isOpen t then balanced (S opened) rest
      else if isClose t then
        match opened with
        | 0 => false
        | S n => balanced n rest
        end
      else balanced opened rest
  end.

(** Tokens for the examples. *)
Definition sep (s : string) : Token := mkToken (PStr s) "sep" 0 1 1.
Definition str (s : string) : Token := mkToken (PStr s) "string" 0 1 1.
Definition num (z : Z) : Token := mkToken (PNum (num_of_Z z)) "number" 0 1 1.

(** The parser after the tokens [[] and after [[ 1]. *)
Definition afterOpenArray : ASTParser :=
  mkParser [mkTree "object" [VTree 1]; mkTree "array" []] [0; 1]
    (Some (sep "[")).
Definition afterOpenArrayOne : ASTParser :=
  mkParser
    [mkTree "object" [VTree 1]; mkTree "array" [VPrim (PNum (num_of_Z 1))]]
    [0; 1] (Some (num 1)).

(** A printer for the examples: the decimal digits of an integer. *)
Definition integerToString (n : number) : string :=
  match n with
  | Finite q => pretty (Qnum q)
  | NaN => "NaN"
  | PosInfinity => "Infinity"
  | NegInfinity => "-Infinity"
  end.

End ASTSpec.

(** * Type definitions and validators *)

(** ** Values, member definitions and errors *)

Module Schema.

Local Open Scope string_scope.

(** A JavaScript value as the validators see it.  Arrays and other
    objects are opaque: the validators below only look at their type. *)
Inductive Value : Type :=
  | VUndefined
  | VNull
  | VBool (b : bool)
  | VNum (n : number)
  | VBigInt (z : Z)
  | VStr (s : string)
  | VObject (id : nat).

#[export] Instance Q_eq_dec : EqDecision Q.
Proof. solve_decision. Defined.
#[export] Instance number_eq_dec : EqDecision number.
Proof. solve_decision. Defined.
#[export] Instance Value_eq_dec : EqDecision Value.
Proof. solve_decision. Defined.

Definition typeof (v : Value) : string :=
  match v with
  | VUndefined => "undefined"
  | VNull | VObject _ => "object"
  | VBool _ => "boolean"
  | VNum _ => "number"
  | VBigInt _ => "bigint"
  | VStr _ => "string"
  end.

(** [isNumber] and [isString] of [is.ts]. *)
Definition isNumber (v : Value) : bool := bool_decide (typeof v = "number").
Definition isString (v : Value) : bool := bool_decide (typeof v = "string").

(** Truthiness, for [a || b]. *)
Definition truthy (v : Value) : bool :=
  match v with
  | VUndefined | VNull => false
  | VBool b => b
  | VNum (Finite q) => negb (Qeq_bool q 0)
  | VNum NaN => false
  | VNum _ => true
  | VBigInt z => negb (z =? 0)%Z
  | VStr s => negb (bool_decide (s = ""))
  | VObject _ => true
  end.

(** [a === b] *)
Definition strictEq (a b : Value) : bool :=
  match a, b with
  | VNum (Finite x), VNum (Finite y) => Qeq_bool x y
  | VNum NaN, VNum NaN => false
  | _, _ => bool_decide (a = b)
  end.

(** The number a value is compared as by [<] and [>].  A bigint compares
    by its exact value.  Strings and objects, which JavaScript converts
    before it compares, are not converted here: a comparison with one of
    them is false, and the properties below take the value and the bounds
    of a member to be numbers or null. *)
Definition toNumeric (v : Value) : option number :=
  match v with
  | VUndefined => Some NaN
  | VNull => Some (num_of_Z 0)
  | VBool b => Some (num_of_Z (if b then 1 else 0))
  | VNum n => Some n
  | VBigInt z => Some (num_of_Z z)
  | VStr _ | VObject _ => None
  end.

Definition js_lt (a b : Value) : bool :=
  match toNumeric a, toNumeric b with
  | Some x, Some y => num_lt x y
  | _, _ => false
  end.
Definition js_gt (a b : Value) : bool := js_lt b a.

(** The option bag of a schema member (section 3, MemberDef); an option
    that is not set is [VUndefined] (or [None]).  [re] is the compiled
    pattern cached by the string validator, kept as its source text. *)
Record MemberDef : Type := mkMemberDef {
  type : string;
  path : string;
  optional : bool;
  null : bool;
  default : Value;
  choices : option (list Value);
  min : Value;
  max : Value;
  minLength : Value;
  maxLength : Value;
  pattern : option string;
  re : option string
}.

(** A member definition with only its type set. *)
Definition memberOf (type : string) : MemberDef :=
  {| type := type; path := ""; optional := false; null := false;
     default := VUndefined; choices := None; min := VNull; max := VNull;
     minLength := VUndefined; maxLength := VUndefined; pattern := None;
     re := None |}.

(** The error codes of [io-error-codes]. *)
Module ErrorCodes.
Definition invalidType := "invalid-type".
Definition invalidValue := "invalid-value".
Definition valueRequired := "value-required".
Definition nullNotAllowed := "null-not-allowed".
Definition notAString := "not-a-string".
Definition invalidEmail := "invalid-email".
Definition invalidUrl := "invalid-url".
Definition valueNotInChoice := "value-not-in-choice".
Definition invalidMinLength := "invalid-min-length".
Definition invalidMaxLength := "invalid-max-length".
Definition outOfRange := "out-of-range".
(** Modelled from the spec: the two codes the number validators use that
    the listed enumeration does not contain (sections 4.4.3 and 7). *)
Definition invalidRange := "invalid-range".
Definition unsupportedNumberType := "unsupported-number-type".
End ErrorCodes.

(** A validator returns a value or throws an error with a code. *)
Inductive outcome (A : Type) : Type :=
  | Ok (a : A)
  | Throw (code : string).
Arguments Ok {A} a.
Arguments Throw {A} code.

Definition bind {A B} (m : outcome A) (k : A → outcome B) : outcome B :=
  match m with
  | Ok a => k a
  | Throw e => Throw e
  end.

(** Modelled from the spec: [doCommonTypeCheck] ([./utils], [./common-type]
    are not among the sources), section 4.4.1 step 2: an absent value gives
    the default if the member is optional and fails [value-required]
    otherwise; null is returned if allowed and fails [null-not-allowed]
    otherwise; a value outside the choices fails [value-not-in-choice];
    any other value is returned unchanged. *)
Definition doCommonTypeCheck (memberDef : MemberDef) (value : Value)
  : outcome Value :=
  match value with
  | VUndefined =>
      if optional memberDef then Ok (default memberDef)
      else Throw ErrorCodes.valueRequired
  | VNull =>
      if null memberDef then Ok VNull
      else Throw ErrorCodes.nullNotAllowed
  | _ =>
      match choices memberDef with
      | Some cs =>
          if bool_decide (value ∈ cs) then Ok value
          else Throw ErrorCodes.valueNotInChoice
      | None => Ok value
      end
  end.

End Schema.

(** ** The string validator *)

Module StringDef.
Import Schema.

Local Open Scope string_scope.

Notation "'let*' p ':=' m 'in' k" := (bind m (λ p, k))
  (at level 10, p pattern, m at level 100, k at level 200, only parsing).

(** [s.endsWith(t)] *)
Definition endsWith (s t : string) : bool :=
  String.prefix (String.rev t) (String.rev s).

Definition setRe (re : option string) (m : MemberDef) : MemberDef :=
  {| type := type m; path := path m; optional := optional m;
     null := null m; default := default m; choices := choices m;
     min := min m; max := max m; minLength := minLength m;
     maxLength := maxLength m; pattern := pattern m; re := re |}.

Section WithRegExp.

(** [new RegExp(source).test(value)], and the [test] of the two built-in
    expressions [emailExp] and [urlExp]. *)
Variable regExpTest : string → string → bool.
Variable emailExpTest : string → bool.
Variable urlExpTest : string → bool.

(** [_validatePattern]; it returns the member definition, whose pattern
    cache it may have filled. *)
Definition _validatePattern (memberDef : MemberDef) (value : string)
  : outcome MemberDef :=
  match bool_decide (type memberDef = "string"), pattern memberDef with
  | true, Some pattern0 =>
      let '(re, memberDef) :=
        match re memberDef with
        | Some re => (re, memberDef)
        | None =>
            let pattern1 :=
              if String.prefix "^" pattern0 then pattern0
              else "^" ++ pattern0 in
            let pattern2 :=
              if endsWith pattern1 "$" then pattern1
              else pattern1 ++ "$" in
            (pattern2, setRe (Some pattern2) memberDef)
        end in
      if negb (regExpTest re value) then Throw ErrorCodes.invalidValue
      else Ok memberDef
  | _, _ =>
      if bool_decide (type memberDef = "email") then
        if negb (emailExpTest value) then Throw ErrorCodes.invalidEmail
        else Ok memberDef
      else if bool_decide (type memberDef = "url") then
        if negb (urlExpTest value) then Throw ErrorCodes.invalidUrl
        else Ok memberDef
      else Ok memberDef
  end.

(** [_process]: the variables ([vars.getV]), the common check, then the
    string checks.  It returns the validated value and the member
    definition (for the pattern cache). *)
Definition _process (memberDef : MemberDef) (value : Value)
    (vars : option (Value → Value)) : outcome (Value * MemberDef) :=
  let value :=
    match vars with
    | Some getV =>
        let valueFound := getV value in
        if truthy valueFound then valueFound else value
    | None => value
    end in
  let* validatedData := doCommonTypeCheck memberDef value in
  if negb (strictEq validatedData value)
     || strictEq validatedData VNull || strictEq validatedData VUndefined
  then Ok (validatedData, memberDef)
  else
    match value with
    | VStr s =>
        let* memberDef := _validatePattern memberDef s in
        let maxLength := maxLength memberDef in
        let* _ :=
          (if negb (strictEq maxLength VUndefined) && isNumber maxLength
           then
             if js_gt (VNum (num_of_nat (String.length s))) maxLength
             then Throw ErrorCodes.invalidMaxLength
             else Ok tt
           else Ok tt) in
        let minLength := minLength memberDef in
        let* _ :=
          (if negb (strictEq minLength VUndefined) && isNumber minLength
           then
             if js_gt (VNum (num_of_nat (String.length s))) minLength
             then Throw ErrorCodes.invalidMinLength
             else Ok tt
           else Ok tt) in
        Ok (value, memberDef)
    | _ => Throw ErrorCodes.notAString
    end.

End WithRegExp.

End StringDef.

(** ** The number validators *)

Module NumberDef.
Import Schema.

Local Open Scope string_scope.

Notation "'let*' p ':=' m 'in' k" := (bind m (λ p, k))
  (at level 10, p pattern, m at level 100, k at level 200, only parsing).

Definition NUMBER_TYPES : list string :=
  [ "bigint";
    "int"; "uint"; "float"; "number";
    "int8"; "int16"; "int32";
    "uint8"; "uint16"; "uint32"; "uint64";
    "float32"; "float64" ].

Definition NUMBER_MAP : gmap string bool :=
  foldl (λ acc type, <[type := true]> acc) ∅ NUMBER_TYPES.

(** A node carries the value to validate. *)
Record Node : Type := mkNode {
  nodeValue : Value;
  nodeRow : nat;
  nodeCol : nat
}.

Definition nodeOf (v : Value) : Node := mkNode v 1 1.

(** A validator, as returned by [_getValidator]. *)
Definition Validator : Type := MemberDef → Value → outcome unit.

Definition _intValidator (min max : option number) (memberDef : MemberDef)
    (value : Value) : outcome unit :=
  let valueType :=
    if bool_decide (typeof value = "bigint") then "bigint"
    else if bool_decide (NUMBER_MAP !! typeof value = Some true)
    then "number" else "" in
  let memberdefType :=
    if bool_decide (type memberDef = "bigint") then "bigint" else "number" in
  if bool_decide (valueType = "") then Throw ErrorCodes.invalidType
  else if negb (bool_decide (memberdefType = valueType))
  then Throw ("not-a-" ++ type memberDef)
  else if match min with
          | Some min => js_lt value (VNum min)
          | None => false
          end
          || match max with
             | Some max => js_gt value (VNum max)
             | None => false
             end
  then Throw ErrorCodes.invalidRange
  else Ok tt.

(** The validator of the unsupported types. *)
Definition unsupported : Validator :=
  λ _ _, Throw ErrorCodes.unsupportedNumberType.

(** [_getValidator]: the first [case] label that equals [type] decides;
    the constructor fails for an unknown type. *)
Definition _getValidator (type : string) : outcome Validator :=
  if bool_decide (type ∈ ["float"; "float64"; "number"; "bigint"; "int"])
  then Ok (_intValidator None None)
  else if bool_decide (type = "uint")
  then Ok (_intValidator (Some (num_of_Z 0)) None)
  else if bool_decide (type = "int8")
  then Ok (_intValidator (Some (num_of_Z (- 2 ^ 7)))
             (Some (num_of_Z (2 ^ 7 - 1))))
  else if bool_decide (type = "uint8")
  then Ok (_intValidator (Some (num_of_Z 0)) (Some (num_of_Z (2 ^ 8 - 1))))
  else if bool_decide (type = "int16")
  then Ok (_intValidator (Some (num_of_Z (- 2 ^ 15)))
             (Some (num_of_Z (2 ^ 15 - 1))))
  else if bool_decide (type = "uint16")
  then Ok (_intValidator (Some (num_of_Z 0)) (Some (num_of_Z (2 ^ 16 - 1))))
  else if bool_decide (type = "int32")
  then Ok (_intValidator (Some (num_of_Z (- 2 ^ 31)))
             (Some (num_of_Z (2 ^ 31 - 1))))
  else if bool_decide (type = "uint32")
  then Ok (_intValidator (Some (num_of_Z 0)) (Some (num_of_Z (2 ^ 32 - 1))))
  else if bool_decide (type ∈ ["uint64"; "int64"; "float32"; "float64"])
  then Ok unsupported
  else Throw ErrorCodes.invalidType.

(** The object built by [new NumberDef(type)]. *)
Record NumberDef : Type := mkNumberDef {
  _type : string;
  _validator : Validator
}.

Definition new (type : string) : outcome NumberDef :=
  let* validator := _getValidator type in
  Ok (mkNumberDef type validator).

(** [defs?.getV(node) || node] *)
Definition getValueNode (defs : option (Node → option Node)) (node : Node)
  : Node :=
  match defs with
  | Some getV =>
      match getV node with
      | Some found => found
      | None => node
      end
  | None => node
  end.

(** [NumberDef.parse]; [defs] is the [Definitions] collaborator's [getV]. *)
Definition parse (self : NumberDef) (node : Node) (memberDef : MemberDef)
    (defs : option (Node → option Node)) : outcome Value :=
  let valueNode := getValueNode defs node in
  let* value := doCommonTypeCheck memberDef (nodeValue valueNode) in
  let* _ := _validator self memberDef value in
  if negb (strictEq (min memberDef) VNull) && js_lt value (min memberDef)
  then Throw ErrorCodes.outOfRange
  else if negb (strictEq (max memberDef) VNull)
          && js_gt value (max memberDef)
  then Throw ErrorCodes.outOfRange
  else Ok value.

End NumberDef.

(** ** Vocabulary for the validators' properties *)

Module ValidatorSpec.
Import Schema.

Local Open Scope string_scope.

(** The width-qualified integer types: signedness and number of bits. *)
Definition fixedWidth : list (string * (bool * Z)) :=
  [ ("int8", (true, 8%Z)); ("int16", (true, 16%Z)); ("int32", (true, 32%Z));
    ("uint8", (false, 8%Z)); ("uint16", (false, 16%Z));
    ("uint32", (false, 32%Z)) ].

(** The two's-complement range of a width. *)
Definition lowerBound (signed : bool) (bits : Z) : Z :=
  if signed then (- 2 ^ (bits - 1))%Z else 0%Z.
Definition upperBound (signed : bool) (bits : Z) : Z :=
  if signed then (2 ^ (bits - 1) - 1)%Z else (2 ^ bits - 1)%Z.

(** The number value of an integer. *)
Definition int (z : Z) : Value := VNum (num_of_Z z).

(** A string member with a minimum length of 3 and nothing else set. *)
Definition minLength3 : MemberDef :=
  {| type := "string"; path := "name"; optional := false; null := false;
     default := VUndefined; choices := None; min := VNull; max := VNull;
     minLength := int 3; maxLength := VUndefined; pattern := None;
     re := None |}.

End ValidatorSpec.

(** ** More vocabulary for the tokenizer *)

Module TokenizerMore.
Import Tokenizer TokenizerSpec.

(** Row and column after one more character. *)
Definition lineColStep (rc : nat * nat) (c : char) : nat * nat :=
  if is_char (Some c) 10%N then (S rc.1, 1) else (rc.1, S rc.2).

(** Row and column of the character that follows the text [s], counted
    from row 1 and column 1. *)
Definition lineCol (s : jsstring) : nat * nat := foldl lineColStep (1, 1) s.

(** The state is inside the input and its row and column are those of its
    position. *)
Definition located (input : jsstring) (t : Tokenizer) : Prop :=
  pos t ≤ length input ∧ (row t, col t) = lineCol (take (pos t) input).

(** The invariant of the tokenizer's state. *)
Definition tracked (input : jsstring) (t : Tokenizer) : Prop :=
  wf input t ∧ located input t.

(** A parser went from [t] to [t'] keeping [I] and moving forward. *)
Definition keeps (I : Tokenizer → Prop) (t t' : Tokenizer) : Prop :=
  I t' ∧ pos t ≤ pos t'.

(** The text [v] read so far is the source text from [p0] to the state's
    position, which is at least [m]. *)
Definition reading (input : jsstring) (p0 m : nat) (v : jsstring)
    (t : Tokenizer) : Prop :=
  tracked input t ∧ p0 ≤ pos t ∧ m ≤ pos t
  ∧ v = substring input p0 (pos t).

(** A token starts at [position], on the row and column of that
    position. *)
Definition tokenLocated (input : jsstring) (tok : Token) : Prop :=
  position tok < length input
  ∧ (trow tok, tcol tok) = lineCol (take (position tok) input).

(** The text of a token is the source text at its position. *)
Definition textIsSource (input : jsstring) (tok : Token) : Prop :=
  substring input (position tok) (position tok + length (text tok))
  = text tok.

(** What [tokenize] keeps true of a token: where it is, and that its text
    is the source text unless it is a regular string. *)
Definition tokenFaithful (input : jsstring) (tok : Token) : Prop :=
  tokenLocated input tok
  ∧ (subType tok ≠ Some SubType.REGULAR_STRING → textIsSource input tok).

(** Tokens in the order of the source. *)
Definition inSourceOrder (tokens : list Token) : Prop :=
  StronglySorted (λ a b, position a < position b) tokens.

(** What the main loop keeps true of the tokens collected so far. *)
Definition collected (input : jsstring) (tokens : list Token)
    (t : Tokenizer) : Prop :=
  Forall (tokenFaithful input) tokens
  ∧ Forall (λ tok, position tok < pos t) tokens
  ∧ inSourceOrder tokens.

(** A hexadecimal literal starts at [i] and runs to the end of the input:
    [0x] or [0X] and then nothing but hexadecimal digits. *)
Definition hexLiteralAt (input : jsstring) (i : nat) : bool :=
  is_char (input !! i) (chr "0")
  && (is_char (input !! (i + 1)) (chr "X")
      || is_char (input !! (i + 1)) (chr "x"))
  && forallb isHexChar (drop (i + 2) input).

(** No place of the input starts such a literal. *)
Definition noHexLiteralToEnd (input : jsstring) : bool :=
  forallb (λ i, negb (hexLiteralAt input i)) (seq 0 (length input)).

(** The fuel is enough for a loop that starts at [t] and moves forward in
    every iteration. *)
Definition fits (input : jsstring) (fuel : nat) (t : Tokenizer) : Prop :=
  tracked input t ∧ length input - pos t < fuel.

(** An input for the examples: an open string, a comma, a line feed, a raw
    string with a backslash in it, a hexadecimal number, a comma, a regular
    string and a comment. *)
Definition exampleSource : jsstring :=
  lit "a, " ++ [10%N] ++ lit "r'b" ++ [Symbols.BACKSLASH]
  ++ lit "' 0x1F, 'c' # z".

(** Its tokens. *)
Definition exampleTokens : list Token :=
  [mkToken 0 1 1 (lit "a") (VStr (lit "a")) TokenType.STRING
     (Some SubType.OPEN_STRING);
   mkToken 1 1 2 (lit ",") (VStr (lit ",")) TokenType.COMMA None;
   mkToken 4 2 1 (lit "r'b" ++ [Symbols.BACKSLASH] ++ lit "'")
     (VStr (lit "b" ++ [Symbols.BACKSLASH])) TokenType.STRING
     (Some SubType.RAW_STRING);
   mkToken 10 2 7 (lit "0x1F") (VNum (num_of_Z 31)) TokenType.NUMBER
     (Some SubType.HEX);
   mkToken 14 2 11 (lit ",") (VStr (lit ",")) TokenType.COMMA None;
   mkToken 16 2 13 (lit "'c'") (VStr (lit "c")) TokenType.STRING
     (Some SubType.REGULAR_STRING)].

End TokenizerMore.

(** ** More vocabulary for the AST parser *)

Module ASTMore.
Import AST ASTSpec.

Local Open Scope string_scope.
Local Open Scope list_scope.

(** The container on top of a non-empty stack. *)
Definition top (p : ASTParser) : addr := default 0 (last (stack p)).

(** The children of the container the next token goes to: the top of the
    stack, or the root that [getObject] creates on an empty stack. *)
Definition current (p : ASTParser) : list ParserTreeValue :=
  valuesAt (getObject p).2 (getObject p).1.

(** A token that reaches [addValue] with its own value: neither an opening
    bracket nor a separator. *)
Definition isValue (t : Token) : bool :=
  negb (isOpen t) && negb (bool_decide (type t = "sep")).

(** The separator [,]. *)
Definition isComma (t : Token) : bool :=
  bool_decide (type t = "sep") && is_str (value t) ",".

(** A value that [:] turns into a key: a truthy string, number or
    boolean. *)
Definition isKey (v : Prim) : bool :=
  truthy (VPrim v) && isPrimitiveType (VPrim v).

(** The type of container an opening token pushes: [process] tests for
    the brace first. *)
Definition openingType (t : Token) : string :=
  if is_str (value t) "{" then "object" else "array".

(** A child without a container in it. *)
Definition isFlat (v : ParserTreeValue) : bool :=
  match v with
  | VTree _ | VKeyVal _ (Some (VTree _)) => false
  | _ => true
  end.

(** The key under which [generateObject] stores the child at [index], and
    what it stores for a flat child. *)
Definition keyOf (index : nat) (v : ParserTreeValue) : string :=
  match v with
  | VKeyVal key _ => key
  | _ => pretty index
  end.
Definition leafOf (v : ParserTreeValue) : Materialized :=
  match v with
  | VKeyVal _ x => MLeaf x
  | _ => MLeaf (Some v)
  end.

(** The property of its own that what [generateObject] built has under
    [key]. *)
Definition getProp (key : string) (props : list (string * Materialized))
  : option Materialized :=
  snd <$> List.find (λ kv, bool_decide (kv.1 = key)) props.

(** A pair whose key is [__proto__].  On the object that [toObject]
    starts from this name is the accessor inherited from
    [Object.prototype]: assigning to it sets the prototype, or does
    nothing, and gives the object no property of its own. *)
Definition isProtoKey (v : ParserTreeValue) : bool :=
  match v with
  | VKeyVal key _ => bool_decide (key = "__proto__")
  | _ => false
  end.

(** The last of the children [vs], counted from [index], that is stored
    under [key]. *)
Fixpoint lastWritten (key : string) (index : nat)
    (vs : list ParserTreeValue) : option Materialized :=
  match vs with
  | [] => None
  | v :: rest =>
      match lastWritten key (S index) rest with
      | Some m => Some m
      | None =>
          if bool_decide (keyOf index v = key) then Some (leafOf v)
          else None
      end
  end.

(** What holds of the parser after any tokens: the stack names containers
    of the store, and its bottom is an object. *)
Definition invariant (p : ASTParser) : Prop :=
  Forall (λ a, a < length (store p)) (stack p)
  ∧ (∀ r, head (stack p) = Some r → ttype (store p !!! r) = "object").

(** The parser after the tokens [1 ,] and after [a : 1]. *)
Definition afterOneComma : ASTParser :=
  mkParser [mkTree "object" [VPrim (PNum (num_of_Z 1))]] [0]
    (Some (sep ",")).
Definition afterPair : ASTParser :=
  mkParser
    [mkTree "object" [VKeyVal "a" (Some (VPrim (PNum (num_of_Z 1))))]]
    [0] (Some (num 1)).

(** A parser whose root holds [a], the pair [0 : b] and [c]. *)
Definition flatRoot : ASTParser :=
  mkParser
    [mkTree "object"
       [VPrim (PStr "a"); VKeyVal "0" (Some (VPrim (PStr "b")));
        VPrim (PStr "c")]]
    [0] None.

(** The token [null]. *)
Definition nullToken : Token := mkToken PNull "null" 0 1 1.

End ASTMore.

(** ** More vocabulary for the validators *)

Module ValidatorMore.
Import Schema.

Local Open Scope string_scope.

(** The number types that are validated without a range of their own. *)
Definition generalTypes : list string :=
  ["float"; "float64"; "number"; "int"].

(** A member of a given type with a minimum and a maximum. *)
Definition memberBetween (type : string) (lo hi : Z) : MemberDef :=
  {| type := type; path := ""; optional := false; null := false;
     default := VUndefined; choices := None;
     min := VNum (num_of_Z lo); max := VNum (num_of_Z hi);
     minLength := VUndefined; maxLength := VUndefined; pattern := None;
     re := None |}.

(** A string member with a pattern and a maximum length. *)
Definition memberWithPattern (pattern : string) (maxLength : Z)
  : MemberDef :=
  {| type := "string"; path := ""; optional := false; null := false;
     default := VUndefined; choices := None; min := VNull; max := VNull;
     minLength := VUndefined; maxLength := VNum (num_of_Z maxLength);
     pattern := Some pattern; re := None |}.

(** A stand-in for the regular expression engine in the examples: the
    expression [^abc$] matches the text [abc] and nothing else matches. *)
Definition onlyAbc (re value : string) : bool :=
  bool_decide (re = "^abc$") && bool_decide (value = "abc").

End ValidatorMore.

(** ** The class [StringDef]: [validate] and [serialize] *)

Module StringDefClass.
Import Schema StringDef.

Local Open Scope string_scope.

(** The double quote, as a one-character string. *)
Definition QUOTE : string := String (ascii_of_nat 34) "".

(** [/[~,:\{\}\[\]\@]|(?:---)/g.exec(s) !== null], for the expression that
    [serialize] creates at each call: [s] holds one of the characters of
    the class, or three hyphens in a row. *)
Definition isSeparatorChar (a : ascii) : bool :=
  bool_decide (a ∈ list_ascii_of_string "~,:{}[]@").

Fixpoint regexSepFound (s : string) : bool :=
  match s with
  | "" => false
  | String a rest =>
      isSeparatorChar a || String.prefix "---" s || regexSepFound rest
  end.

Section WithRuntime.

Variable regExpTest : string → string → bool.
Variable emailExpTest : string → bool.
Variable urlExpTest : string → bool.

(** [isToken] of [../utils/is], which is not among the sources, and the
    [value] of a token. *)
Variable isToken : Value → bool.
Variable tokenValue : Value → Value.

(** The text of a value that is not a string, where [serialize] uses it
    as one ([regexSep.exec(value)] and ['"' + value + '"']). *)
Variable valueToString : Value → string.

Definition validate (data : Value) (memberDef : MemberDef)
    (vars : option (Value → Value)) : outcome (Value * MemberDef) :=
  let node := if isToken data then Some data else None in
  let value :=
    match node with
    | Some node => tokenValue node
    | None => data
    end in
  _process regExpTest emailExpTest urlExpTest memberDef value vars.

(** [parse] and [load] are [validate]. *)
Definition parse (data : Value) (memberDef : MemberDef)
    (vars : option (Value → Value)) : outcome (Value * MemberDef) :=
  validate data memberDef vars.
Definition load (data : Value) (memberDef : MemberDef)
  : outcome (Value * MemberDef) :=
  validate data memberDef None.

Definition textOf (value : Value) : string :=
  match value with
  | VStr s => s
  | _ => valueToString value
  end.

Definition serialize (data : Value) (memberDef : MemberDef)
  : outcome (Value * MemberDef) :=
  let* (value, memberDef) := validate data memberDef None in
  if regexSepFound (textOf value)
  then Ok (VStr (QUOTE ++ textOf value ++ QUOTE), memberDef)
  else Ok (value, memberDef).

End WithRuntime.

End StringDefClass.

(** * Proofs *)

(** ** Numbers *)

Lemma Qltb_lt (x y : Q) : Qltb x y = true <-> (x < y)%Q.
Proof. unfold Qltb, Qlt. apply Z.ltb_lt. Qed.

Lemma Qltb_ge (x y : Q) : Qltb x y = false <-> (y <= x)%Q.
Proof. unfold Qltb, Qle. apply Z.ltb_ge. Qed.

(** ** The tokenizer *)

Module TokenizerProofs.
Import Tokenizer TokenizerSpec.

Ltac cases_leb :=
  repeat match goal with
         | |- context [N.leb ?a ?b] => destruct (N.leb_spec a b)
         end.


Section Proofs.

Variable input : jsstring.

Lemma wf_initial_nonempty : input ≠ [] → wf input initial.
Proof.
  intros H. unfold wf; simpl. destruct input; [done|].
  rewrite bool_decide_eq_false_2; [done | simpl; lia].
Qed.

Lemma advance_once_pos t : pos (advance_once input t) = S (pos t).
Proof. unfold advance_once. by destruct (is_char _ _). Qed.

Lemma advance_once_wf t : wf input (advance_once input t).
Proof. unfold wf, advance_once. by destruct (is_char _ _). Qed.

Lemma advance_loop_wf n t : wf input t → wf input (advance_loop input n t).
Proof.
  revert t. induction n as [|n IH]; intros t Ht; cbn [advance_loop]; [done|].
  destruct (reachedEnd (advance_once input t)) eqn:E.
  - apply advance_once_wf.
  - apply IH, advance_once_wf.
Qed.

Lemma advance_wf n t : wf input t → wf input (advance input n t).
Proof.
  intros Ht. unfold advance. destruct (reachedEnd t); [done|].
  by apply advance_loop_wf.
Qed.

Lemma advance_loop_pos n t :
  pos t + n ≤ length input → pos (advance_loop input n t) = pos t + n.
Proof.
  revert t. induction n as [|n IH]; intros t Hn; cbn [advance_loop]; [lia|].
  pose proof (advance_once_wf t) as Hwf.
  pose proof (advance_once_pos t) as Hp.
  destruct (reachedEnd (advance_once input t)) eqn:E.
  - unfold wf in Hwf. rewrite E in Hwf. symmetry in Hwf.
    apply bool_decide_eq_true_1 in Hwf. lia.
  - rewrite IH; lia.
Qed.

Lemma advance_pos n t :
  wf input t → pos t + n ≤ length input → pos (advance input n t) = pos t + n.
Proof.
  intros Hwf Hn. unfold advance. destruct (reachedEnd t) eqn:E.
  - unfold wf in Hwf. rewrite E in Hwf. symmetry in Hwf.
    apply bool_decide_eq_true_1 in Hwf. lia.
  - by apply advance_loop_pos.
Qed.

(** What the state sees of the input: the suffix at [pos]. *)
Lemma drop_cons_lookup (p : nat) (c : char) (s : jsstring) :
  drop p input = c :: s →
  input !! p = Some c ∧ drop (S p) input = s ∧ p < length input.
Proof.
  intros H. assert (Hl : input !! p = Some c).
  { pose proof (lookup_drop input p 0) as E. rewrite H in E.
    rewrite Nat.add_0_r in E. done. }
  split; [done|]. split.
  - rewrite (drop_S _ _ _ Hl) in H. by inversion H.
  - by apply lookup_lt_Some in Hl.
Qed.

Lemma drop_nil_end (p : nat) : drop p input = [] → length input ≤ p.
Proof. intros H. apply (f_equal length) in H. rewrite length_drop in H. simpl in H. lia. Qed.

Lemma is_char_Some (c x : char) : is_char (Some c) x = bool_decide (c = x).
Proof. unfold is_char. apply bool_decide_ext. split; [by inversion 1 | by intros ->]. Qed.

Lemma is_char_None (x : char) : is_char None x = false.
Proof. done. Qed.

(** Facts on hexadecimal digits. *)
Lemma isHexChar_digit x :
  isHexChar x = true → ∃ d, digitValue x = Some d ∧ (d < 16)%N.
Proof.
  unfold isHexChar, digitValue. cases_leb; simpl; try discriminate; try lia;
    intros _; eexists; (split; [reflexivity | lia]).
Qed.

Lemma isHexChar_not_space x : isHexChar x = true → isStrWhiteSpaceChar x = false.
Proof.
  unfold isHexChar, isStrWhiteSpaceChar. intros H.
  apply orb_false_intro.
  - apply bool_decide_eq_false_2. rewrite !elem_of_cons, elem_of_nil.
    intros Hx. revert H. cases_leb; simpl; try discriminate; lia.
  - revert H. cases_leb; simpl; try discriminate; try done; lia.
Qed.


Lemma isHexChar_hexDigit x : isHexChar x = true → digitValue x = Some (hexDigit x) ∧ (hexDigit x < 16)%N.
Proof.
  intros H. destruct (isHexChar_digit x H) as (d & Hd & Hlt).
  unfold hexDigit. rewrite Hd. done.
Qed.

Lemma radixDigits_hex_step x r acc :
  isHexChar x = true →
  radixDigits 16 (x :: r) acc
  = radixDigits 16 r (Some (default 0 acc * 16 + hexDigit x)%N).
Proof.
  intros Hx. cbn [radixDigits].
  destruct (isHexChar_hexDigit x Hx) as [-> Hlt].
  by rewrite (proj2 (N.ltb_lt _ _) Hlt).
Qed.

Lemma radixDigits_hex x r acc :
  forallb isHexChar (x :: r) = true →
  radixDigits 16 (x :: r) acc
  = Some (foldl (λ a y, a * 16 + hexDigit y)%N (default 0%N acc) (x :: r)).
Proof.
  revert x acc. induction r as [|y r IH]; intros x acc H;
    cbn [forallb] in H; apply andb_true_iff in H as [Hx H];
    rewrite radixDigits_hex_step by done.
  - done.
  - by rewrite IH.
Qed.

Lemma parseInt_hex x r :
  forallb isHexChar (x :: r) = true →
  parseInt (x :: r) 16 = num_of_Z (Z.of_N (hexValue (x :: r))).
Proof.
  intros H. pose proof H as H0. cbn [forallb] in H0.
  apply andb_true_iff in H0 as [Hx Hr].
  unfold parseInt. cbn [trimStart]. rewrite (isHexChar_not_space x Hx).
  cbn [head]. rewrite !is_char_Some.
  assert (x ≠ Symbols.MINUS) as Hm by (intros ->; done).
  assert (x ≠ Symbols.PLUS) as Hp by (intros ->; done).
  rewrite (bool_decide_eq_false_2 (x = Symbols.MINUS)) by done.
  rewrite (bool_decide_eq_false_2 (x = Symbols.PLUS)) by done. cbn [orb negb].
  change ((16 =? 0)%N) with false. change ((16 <? 2)%N) with false.
  change ((36 <? 16)%N) with false. change ((16 =? 16)%N) with true.
  cbn [orb andb negb].
  assert (bool_decide (take 2 (x :: r) = lit "0x") = false) as ->.
  { apply bool_decide_eq_false_2. destruct r as [|y r]; [done|].
    cbn. intros [= -> ->]. cbn in Hr. done. }
  assert (bool_decide (take 2 (x :: r) = lit "0X") = false) as ->.
  { apply bool_decide_eq_false_2. destruct r as [|y r]; [done|].
    cbn. intros [= -> ->]. cbn in Hr. done. }
  cbn [orb]. rewrite radixDigits_hex by done. done.
Qed.

Lemma fromCharCode_small (v : N) :
  (v < 65536)%N → fromCharCode (num_of_Z (Z.of_N v)) = [v].
Proof.
  intros Hv. unfold fromCharCode, num_of_Z, inject_Z. cbn [Qnum Qden].
  rewrite Z.quot_1_r, Z.mod_small by lia. by rewrite N2Z.id.
Qed.

Lemma fromCharCode_hex4 h1 h2 h3 h4 :
  forallb isHexChar [h1; h2; h3; h4] = true →
  fromCharCode (parseInt [h1; h2; h3; h4] 16) = [hexValue [h1; h2; h3; h4]].
Proof.
  intros H. rewrite parseInt_hex by done. apply fromCharCode_small.
  cbn [forallb] in H. repeat (apply andb_true_iff in H as [?%isHexChar_hexDigit H]).
  unfold hexValue. cbn [foldl]. lia.
Qed.

Lemma fromCharCode_hex2 h1 h2 :
  forallb isHexChar [h1; h2] = true →
  fromCharCode (parseInt [h1; h2] 16) = [hexValue [h1; h2]].
Proof.
  intros H. rewrite parseInt_hex by done. apply fromCharCode_small.
  cbn [forallb] in H. repeat (apply andb_true_iff in H as [?%isHexChar_hexDigit H]).
  unfold hexValue. cbn [foldl]. lia.
Qed.


Lemma at_end t : wf input t → drop (pos t) input = [] → reachedEnd t = true.
Proof.
  intros Hwf H%drop_nil_end. rewrite Hwf. by apply bool_decide_eq_true_2.
Qed.

Lemma at_cons t c s :
  wf input t → drop (pos t) input = c :: s →
  reachedEnd t = false ∧ input !! pos t = Some c.
Proof.
  intros Hwf (Hl & _ & Hlt)%drop_cons_lookup. split; [|done].
  rewrite Hwf. apply bool_decide_eq_false_2. lia.
Qed.

Lemma advance_at n t s :
  wf input t → drop (pos t) input = s → n ≤ length s →
  wf input (advance input n t) ∧ drop (pos (advance input n t)) input = drop n s.
Proof.
  intros Hwf Hs Hn. split; [by apply advance_wf|].
  assert (length s = length input - pos t) as Hl by (by rewrite <- Hs, length_drop).
  destruct n as [|n].
  - unfold advance. by destruct (reachedEnd t).
  - rewrite advance_pos by (done || lia). by rewrite <- Hs, drop_drop.
Qed.

Lemma substring_at t s a b :
  drop (pos t) input = s →
  substring input (pos t + a) (pos t + b) = take (b - a) (drop a s).
Proof.
  intros <-. unfold substring. rewrite drop_drop. f_equal. lia.
Qed.

Lemma substring_from t s b :
  drop (pos t) input = s → substring input (pos t) (pos t + b) = take b s.
Proof. intros <-. unfold substring. f_equal. lia. Qed.

Lemma regularString_loop_decode fuel q value nn t s :
  wf input t → drop (pos t) input = s → length s < fuel →
  loop_post input q (decode q s value nn)
    (regularString_loop input fuel q value nn t).
Proof.
  revert value nn t s.
  induction fuel as [|fuel IH]; intros value nn t s Hwf Hs Hf; [lia|].
  cbn [regularString_loop].
  destruct s as [|c r].
  { cbn [decode loop_post]. rewrite (at_end t) by done. cbn.
    repeat eexists. by apply at_end. }
  destruct (at_cons t c r Hwf Hs) as [He Hc]. rewrite He, Hc.
  cbn [negb andb decode]. rewrite !is_char_Some.
  case_bool_decide as Hq.
  { cbn. exists t. by subst. }
  cbn [negb]. cbn [length] in Hf.
  assert (∀ t', advance input 1 t = t' → wf input t' ∧ drop (pos t') input = r) as Hadv.
  { intros t' <-. by apply (advance_at 1 t (c :: r)); [| |simpl; lia]. }
  case_bool_decide as Hb; cycle 1.
  { (* an ordinary character *)
    destruct (Hadv _ eq_refl) as [Hwf1 Hs1]. cbn [str_of].
    apply IH; [done..|lia]. }
  destruct (Hadv _ eq_refl) as [Hwf1 Hs1].
  set (t1 := advance input 1 t) in *. clearbody t1.
  destruct r as [|e r1].
  { cbn [loop_post]. rewrite (at_end t1) by done. eauto. }
  destruct (at_cons t1 e r1 Hwf1 Hs1) as [He1 Hc1]. rewrite He1, Hc1.
  rewrite !is_char_Some. cbn [length] in Hf.
  assert (∀ n, n ≤ length r1 → wf input (advance input 1 (advance input n t1))
     ∧ drop (pos (advance input 1 (advance input n t1))) input = drop n r1)
    as Hadv1.
  { intros n Hn. destruct (advance_at n t1 (e :: r1) Hwf1 Hs1) as [Hw Hd];
      [simpl; lia|].
    destruct (advance_at 1 _ _ Hw Hd) as [Hw' Hd'].
    { rewrite length_drop. cbn [length]. lia. }
    split; [done|]. rewrite Hd', drop_drop.
    replace (n + 1) with (S n) by lia. done. }
  destruct (decide (e = chr "u")) as [->|Hu].
  { (* \u *)
    change (bool_decide (chr "u" = chr "b")) with false.
    change (bool_decide (chr "u" = chr "f")) with false.
    change (bool_decide (chr "u" = chr "n")) with false.
    change (bool_decide (chr "u" = chr "r")) with false.
    change (bool_decide (chr "u" = chr "t")) with false.
    change (bool_decide (chr "u" = chr "u")) with true. cbv iota.
    rewrite (substring_at t1 _ 1 5 Hs1).
    change (take (5 - 1) (drop 1 (chr "u" :: r1))) with (take 4 r1).
    destruct r1 as [|h1 [|h2 [|h3 [|h4 r2]]]]; try (cbn; eauto; fail).
    change (take 4 (h1 :: h2 :: h3 :: h4 :: r2)) with [h1; h2; h3; h4].
    unfold regexHex4, regexHexN. cbn [length].
    rewrite bool_decide_eq_true_2 by done. cbn [andb].
    destruct (forallb isHexChar [h1; h2; h3; h4]) eqn:Hh; [|cbn; eauto].
    rewrite fromCharCode_hex4 by done.
    destruct (Hadv1 4) as [Hw Hd]; [simpl; lia|].
    apply IH; [done..|]. cbn [length] in Hf. lia. }
  rewrite (bool_decide_eq_false_2 (e = chr "u")) by done.
  destruct (decide (e = chr "x")) as [->|Hx].
  { (* \x *)
    change (bool_decide (chr "x" = chr "b")) with false.
    change (bool_decide (chr "x" = chr "f")) with false.
    change (bool_decide (chr "x" = chr "n")) with false.
    change (bool_decide (chr "x" = chr "r")) with false.
    change (bool_decide (chr "x" = chr "t")) with false.
    change (bool_decide (chr "x" = chr "x")) with true. cbv iota.
    rewrite (substring_at t1 _ 1 3 Hs1).
    change (take (3 - 1) (drop 1 (chr "x" :: r1))) with (take 2 r1).
    destruct r1 as [|h1 [|h2 r2]]; try (cbn; eauto; fail).
    change (take 2 (h1 :: h2 :: r2)) with [h1; h2].
    unfold regexHex2, regexHexN. cbn [length].
    rewrite bool_decide_eq_true_2 by done. cbn [andb].
    destruct (forallb isHexChar [h1; h2]) eqn:Hh; [|cbn; eauto].
    rewrite fromCharCode_hex2 by done.
    destruct (Hadv1 2) as [Hw Hd]; [simpl; lia|].
    apply IH; [done..|]. cbn [length] in Hf. lia. }
  rewrite (bool_decide_eq_false_2 (e = chr "x")) by done.
  destruct (Hadv1 0) as [Hw Hd]; [lia|].
  assert (advance input 0 t1 = t1) as E0.
  { unfold advance. by destruct (reachedEnd t1). }
  rewrite E0 in Hw, Hd. cbn [skipn] in Hd.
  unfold simpleEscape. cbn [str_of].
  repeat case_bool_decide; (apply IH; [done..|lia]).
Qed.


(** Claim C7.  A regular string called at its opening quote [q] behaves
    as [decode] says on the characters after the quote: a [\u] escape needs
    four hexadecimal digits and a [\x] escape two, otherwise tokenization
    fails; the decoded value is normalized (NFC) once, at the end, if and
    only if a [\u] or [\x] escape was decoded; and tokenization fails if
    the input ends inside an escape or before the closing quote.  The loop
    has fuel for every character of the input. *)
Theorem parseRegularString_decode (normalizeNFC : jsstring → jsstring)
    (fuel : nat) (q : char) (t : Tokenizer) (body : jsstring) :
  reachedEnd t = false →
  drop (pos t) input = q :: body →
  length body < fuel →
  match decode q body [] false with
  | Decoded v numeric rest =>
      ∃ tok t',
        parseRegularString normalizeNFC input fuel q t = Ok (tok, t')
        ∧ value tok = VStr (if numeric then normalizeNFC v else v)
        ∧ type tok = TokenType.STRING
        ∧ subType tok = Some SubType.REGULAR_STRING
        ∧ position tok = pos t
        ∧ drop (pos t') input = rest
  | BadUnicodeEscape =>
      ∃ h r c, parseRegularString normalizeNFC input fuel q t
               = Throw (InvalidUnicodeEscape h r c)
  | BadHexEscape =>
      ∃ h r c, parseRegularString normalizeNFC input fuel q t
               = Throw (InvalidHexEscape h r c)
  | EndsMidEscape =>
      ∃ r c, parseRegularString normalizeNFC input fuel q t
             = Throw (EscapeAtEnd r c)
  | Unterminated =>
      parseRegularString normalizeNFC input fuel q t
      = Throw (StringNotClosed (row t) (col t))
  end.
Proof.
  intros He Hs Hf.
  assert (wf input t) as Hwf.
  { apply drop_cons_lookup in Hs as (_ & _ & Hlt). unfold wf. rewrite He.
    symmetry. apply bool_decide_eq_false_2. lia. }
  destruct (advance_at 1 t _ Hwf Hs) as [Hwf1 Hs1]; [simpl; lia|].
  change (drop 1 (q :: body)) with body in Hs1.
  pose proof (regularString_loop_decode fuel q [] false _ body Hwf1 Hs1 Hf)
    as Hloop.
  unfold parseRegularString.
  destruct (decode q body [] false) as [v numeric rest| | | |];
    cbn [loop_post] in Hloop.
  - destruct Hloop as (t' & -> & Hwf' & Hs'). cbn [bind].
    destruct (at_cons t' _ _ Hwf' Hs') as [-> _].
    destruct (advance_at 1 t' _ Hwf' Hs') as [_ Hs'']; [simpl; lia|].
    eexists _, _. repeat split; done.
  - destruct Hloop as (h & r & c & ->). cbn. eauto.
  - destruct Hloop as (h & r & c & ->). cbn. eauto.
  - destruct Hloop as (r & c & ->). cbn. eauto.
  - destruct Hloop as (v & numeric & t' & -> & Hend). cbn [bind].
    by rewrite Hend.
Qed.

End Proofs.

(** *** The open string *)

Lemma openRun_take s : take (length (openRun s)) s = openRun s.
Proof.
  induction s as [|c r IH]; [done|]. cbn [openRun].
  destruct (_ && _); [|done]. cbn [length firstn]. by rewrite IH.
Qed.

Lemma trimEnd_take s : take (length (trimEnd s)) s = trimEnd s.
Proof.
  induction s as [|c r IH]; [done|]. cbn [trimEnd].
  destruct (trimEnd r) as [|x r'] eqn:E.
  - by destruct (is_.isWhitespace (Some c)).
  - cbn [length firstn] in *. by rewrite IH.
Qed.

Lemma trimEnd_length s : length (trimEnd s) ≤ length s.
Proof. rewrite <- (trimEnd_take s) at 1. rewrite length_take. lia. Qed.

Lemma openRun_length s : length (openRun s) ≤ length s.
Proof. rewrite <- (openRun_take s) at 1. rewrite length_take. lia. Qed.

Lemma trimEnd_openRun_take s :
  take (length (trimEnd (openRun s))) s = trimEnd (openRun s).
Proof.
  rewrite <- (trimEnd_take (openRun s)) at 2.
  rewrite <- (openRun_take s) at 3. rewrite take_take.
  f_equal. pose proof (trimEnd_length (openRun s)). lia.
Qed.

Section OpenString.

Variable input : jsstring.

Lemma openString_loop_run fuel lastPos t s :
  wf input t → drop (pos t) input = s → length s < fuel →
  ∃ t', openString_loop input fuel lastPos t
        = Ok (match trimEnd (openRun s) with
              | [] => lastPos
              | _ => pos t + length (trimEnd (openRun s)) - 1
              end, t')
        ∧ wf input t'
        ∧ pos t' = pos t + length (openRun s).
Proof.
  revert lastPos t s.
  induction fuel as [|fuel IH]; intros lastPos t s Hwf Hs Hf; [lia|].
  cbn [openString_loop].
  destruct s as [|c r].
  { rewrite (at_end input t) by done. cbn. exists t. split_and!; [done..|lia]. }
  destruct (at_cons input t c r Hwf Hs) as [He Hc]. rewrite He, Hc.
  cbn [negb andb openRun].
  rewrite (substring_from input t (c :: r) 3 Hs).
  change (substring (c :: r) 0 3) with (take 3 (c :: r)).
  destruct (is_.isValidOpenStringChar (Some c)) eqn:Hv; cycle 1.
  { cbn. exists t. split_and!; [done..|lia]. }
  cbn [andb]. case_bool_decide as Hsep.
  { assert (is_char (Some c) Symbols.MINUS = true) as ->.
    { change (lit "---") with [45; 45; 45]%N in Hsep.
      destruct r as [|c2 [|c3 r3]]; by simplify_eq/=. }
    cbn. exists t. split_and!; [done..|lia]. }
  rewrite andb_false_r. cbn [negb].
  destruct (advance_at input 1 t _ Hwf Hs) as [Hwf1 Hs1]; [simpl; lia|].
  change (drop 1 (c :: r)) with r in Hs1. cbn [length] in Hf.
  destruct (IH (if negb (is_.isWhitespace (Some c)) then pos t else lastPos)
              _ r Hwf1 Hs1) as (t' & -> & Hwf' & Hp); [lia|].
  exists t'. rewrite advance_pos in * by (done || apply lookup_lt_Some in Hc; lia).
  split_and!; [|done|cbn [length]; lia].
  do 2 f_equal. cbn [trimEnd]. destruct (trimEnd (openRun r)) as [|x r'].
  - destruct (is_.isWhitespace (Some c)); cbn [negb length]; lia.
  - cbn [length]. lia.
Qed.

End OpenString.


Lemma trimEnd_split s :
  ∃ ws, s = trimEnd s ++ ws ∧ forallb whitespace ws = true.
Proof.
  induction s as [|c r (ws & Hr & Hws)]; [by exists []|]. cbn [trimEnd].
  destruct (trimEnd r) as [|x r'] eqn:E.
  - destruct (is_.isWhitespace (Some c)) eqn:Hc.
    + exists (c :: ws). split; [by rewrite Hr at 1|].
      cbn [forallb]. unfold whitespace at 1. by rewrite Hc, Hws.
    + exists ws. by rewrite Hr at 1.
  - exists ws. by rewrite Hr at 1.
Qed.

Lemma trimEnd_last s x :
  last (trimEnd s) = Some x → whitespace x = false.
Proof.
  revert x. induction s as [|c r IH]; intros x; [done|]. cbn [trimEnd].
  destruct (trimEnd r) as [|y r'] eqn:E.
  - destruct (is_.isWhitespace (Some c)) eqn:Hc; [done|].
    by intros [= <-].
  - rewrite last_cons. destruct (last (y :: r')) eqn:El.
    + intros [= <-]. by apply IH.
    + by apply last_None in El.
Qed.

Lemma literalToken_cases start r c v :
  let tok := literalToken start r c v in
  text tok = v ∧ position tok = start
  ∧ (v = lit "T" ∨ v = lit "true" →
     value tok = VBool true ∧ type tok = TokenType.BOOLEAN)
  ∧ (v = lit "F" ∨ v = lit "false" →
     value tok = VBool false ∧ type tok = TokenType.BOOLEAN)
  ∧ (v = lit "N" ∨ v = lit "null" →
     value tok = VNull ∧ type tok = TokenType.NULL)
  ∧ (v ∉ literals →
     value tok = VStr v ∧ type tok = TokenType.STRING
     ∧ subType tok = Some SubType.OPEN_STRING).
Proof.
  cbn zeta. unfold literals. rewrite !elem_of_cons, elem_of_nil.
  assert (∀ a b : jsstring, a = b ∨ a ≠ b) as Hdec
    by (intros a b; destruct (decide (a = b)); auto).
  destruct (Hdec v (lit "true")) as [->|H1];
    [split_and!; try done; intros Hx; try (by destruct Hx);
     exfalso; apply Hx; auto 10|].
  destruct (Hdec v (lit "T")) as [->|H2];
    [split_and!; try done; intros Hx; try (by destruct Hx);
     exfalso; apply Hx; auto 10|].
  destruct (Hdec v (lit "false")) as [->|H3];
    [split_and!; try done; intros Hx; try (by destruct Hx);
     exfalso; apply Hx; auto 10|].
  destruct (Hdec v (lit "F")) as [->|H4];
    [split_and!; try done; intros Hx; try (by destruct Hx);
     exfalso; apply Hx; auto 10|].
  destruct (Hdec v (lit "null")) as [->|H5];
    [split_and!; try done; intros Hx; try (by destruct Hx);
     exfalso; apply Hx; auto 10|].
  destruct (Hdec v (lit "N")) as [->|H6];
    [split_and!; try done; intros Hx; try (by destruct Hx);
     exfalso; apply Hx; auto 10|].
  unfold literalToken, Literals.TRUE, Literals.T, Literals.FALSE,
    Literals.F, Literals.NULL, Literals.N.
  rewrite !bool_decide_eq_false_2 by done.
  cbn [orb text position value type subType].
  split_and!; try done; intros [?|?]; done.
Qed.

Section OpenStringToken.

Variable input : jsstring.

(** The open string (and literal) token against its specification. *)
Lemma parseLiteralOrOpenString_run (fuel : nat) (t : Tokenizer) :
  (∀ c s,
     reachedEnd t = false →
     drop (pos t) input = c :: s →
     whitespace c = false →
     is_.isValidOpenStringChar (Some c) = true →
     substring (c :: s) 0 3 ≠ lit "---" →
     length s + 1 < fuel →
     let consumed := openRun (c :: s) in
     let v := trimEnd consumed in
     ∃ tok t',
       parseLiteralOrOpenString input fuel t = Ok (tok, t')
       ∧ pos t' = pos t + length consumed
       ∧ consumed = substring input (pos t) (pos t')
       ∧ (∃ ws, consumed = v ++ ws ∧ forallb whitespace ws = true)
       ∧ (∀ x, last v = Some x → whitespace x = false)
       ∧ v ≠ []
       ∧ text tok = v ∧ position tok = pos t
       ∧ (v = lit "T" ∨ v = lit "true" →
          value tok = VBool true ∧ type tok = TokenType.BOOLEAN)
       ∧ (v = lit "F" ∨ v = lit "false" →
          value tok = VBool false ∧ type tok = TokenType.BOOLEAN)
       ∧ (v = lit "N" ∨ v = lit "null" →
          value tok = VNull ∧ type tok = TokenType.NULL)
       ∧ (v ∉ literals →
          value tok = VStr v ∧ type tok = TokenType.STRING
          ∧ subType tok = Some SubType.OPEN_STRING))
  ∧ (∀ lastPos t',
       openString_loop input fuel (pos t) t = Ok (lastPos, t') →
       substring input (pos t) (lastPos + 1) = [] →
       parseLiteralOrOpenString input fuel t
       = Throw (UnexpectedCharacter (input !! pos t') (row t) (col t)))
  ∧ (0 < fuel → length input ≤ pos t →
     parseLiteralOrOpenString input fuel t
     = Throw (UnexpectedCharacter None (row t) (col t))).
Proof.
  split_and!.
  - intros c s He Hs Hws Hv Hsep Hf consumed v.
    assert (wf input t) as Hwf.
    { apply drop_cons_lookup in Hs as (_ & _ & Hlt). unfold wf. rewrite He.
      symmetry. apply bool_decide_eq_false_2. lia. }
    destruct (openString_loop_run input fuel (pos t) t _ Hwf Hs)
      as (t' & Hloop & Hwf' & Hp); [cbn [length]; lia|].
    fold consumed in Hloop, Hp. fold v in Hloop.
    assert (∃ r, v = c :: r) as [r Hr].
    { unfold v, consumed. cbn [openRun]. rewrite Hv.
      rewrite (bool_decide_eq_false_2 _ Hsep). cbn [andb negb trimEnd].
      unfold whitespace in Hws. rewrite Hws.
      destruct (trimEnd (openRun s)); eauto. }
    unfold parseLiteralOrOpenString. rewrite Hloop. cbn [bind].
    assert (substring input (pos t) (pos t + length v - 1 + 1) = v) as Hval.
    { replace (pos t + length v - 1 + 1) with (pos t + length v)
        by (rewrite Hr; cbn [length]; lia).
      rewrite (substring_from input t _ _ Hs). apply trimEnd_openRun_take. }
    assert (match v with [] => pos t | _ => pos t + length v - 1 end
            = pos t + length v - 1) as -> by (by rewrite Hr).
    rewrite Hval. rewrite bool_decide_eq_false_2 by (by rewrite Hr).
    pose proof (literalToken_cases (pos t) (row t) (col t) v) as Hlit.
    cbn zeta in Hlit. destruct Hlit as (? & ? & ? & ? & ? & ?).
    eexists _, t'. split_and!; try done.
    + rewrite Hp. rewrite (substring_from input t _ _ Hs).
      symmetry. apply openRun_take.
    + apply trimEnd_split.
    + apply trimEnd_last.
    + by rewrite Hr.
  - intros lastPos t' Hloop Hempty. unfold parseLiteralOrOpenString.
    rewrite Hloop. cbn [bind]. by rewrite Hempty.
  - intros Hf Hend. unfold parseLiteralOrOpenString.
    destruct fuel as [|fuel]; [lia|]. cbn [openString_loop].
    rewrite (lookup_ge_None_2 _ _ Hend).
    cbn [is_.isValidOpenStringChar]. rewrite andb_false_r. cbn [bind].
    unfold substring. rewrite (drop_ge _ _ Hend), take_nil.
    rewrite (lookup_ge_None_2 _ _ Hend). done.
Qed.

End OpenStringToken.


(** The two call sites of [parseLiteralOrOpenString] in [tokenize] are
    reached only after the tests for white space, [#], quotes and special
    symbols have failed and, for a [-], after the test for [---] has
    failed: the first character is then read by the open string. *)
Lemma open_string_call_site (c : char) (s : jsstring) :
  is_.isWhitespace (Some c) = false →
  is_char (Some c) Symbols.HASH = false →
  is_.isQuote (Some c) = false →
  is_.isSpecialSymbol (Some c) = false →
  is_char (Some c) Symbols.MINUS
  && bool_decide (substring (c :: s) 0 3 = lit "---") = false →
  whitespace c = false
  ∧ is_.isValidOpenStringChar (Some c) = true
  ∧ substring (c :: s) 0 3 ≠ lit "---".
Proof.
  intros Hw Hh Hq Hs Hsep. split; [done|]. split.
  - unfold is_.isValidOpenStringChar. by rewrite Hs, Hq, Hh.
  - intros E. rewrite (bool_decide_eq_true_2 _ E), andb_true_r in Hsep.
    change (lit "---") with [45; 45; 45]%N in E.
    destruct s as [|c2 [|c3 r3]]; cbv [substring] in E; by simplify_eq/=.
Qed.

(** A [-] that is not followed by a digit is not a number: [parseNumber]
    returns nothing and leaves the state as it was. *)
Lemma parseNumber_minus_not_digit parseFloat input fuel t :
  input !! pos t = Some Symbols.MINUS →
  is_.isDigit (input !! (pos t + 1)) = false →
  parseNumber parseFloat input fuel t = Ok (None, t).
Proof.
  intros Hc Hd. unfold parseNumber. rewrite Hc, Hd. done.
Qed.

(** Claim C1 fails on the code.  On the six characters ["a\nb"] the tokenizer emits one
    regular-string token whose [text] is rebuilt from the decoded value
    (quote, a, line feed, b, quote): five characters that occur nowhere in
    the input, whereas the raw and byte strings take their text from the
    input with [substring]. *)
Theorem regular_string_text_is_rebuilt
    (normalizeNFC : jsstring → jsstring) (parseFloat : jsstring → number)
    (bufferFromBase64 : jsstring → list N) :
  ∃ tok,
    tokenize normalizeNFC parseFloat bufferFromBase64 quoted_a_nl_b 10
    = Ok [tok]
    ∧ subType tok = Some SubType.REGULAR_STRING
    ∧ value tok = VStr [97; 10; 98]%N
    ∧ text tok = [34; 97; 10; 98; 34]%N
    ∧ occursIn (text tok) quoted_a_nl_b = false
    ∧ substring quoted_a_nl_b (position tok) 6 ≠ text tok.
Proof. eexists. vm_compute. split_and!; done. Qed.

(** Claim C5 fails on the code.  On the input [+a] the number branch
    accepts the sign without looking at the next character: [parseNumber]
    returns a NUMBER token with text [+] whose value, [parseInt("+", 10)],
    is NaN, and the open string starts only at [a].  For a [-] the digit
    test is made and [parseNumber] returns nothing. *)
Theorem plus_without_digit_is_a_NaN_number
    (normalizeNFC : jsstring → jsstring) (parseFloat : jsstring → number)
    (bufferFromBase64 : jsstring → list N) :
  parseNumber parseFloat (lit "+a") 10 initial
  = Ok (Some (mkToken 0 1 1 (lit "+") (VNum NaN) TokenType.NUMBER None),
        mkTokenizer 1 1 2 false)
  ∧ isFinite NaN = false
  ∧ tokenize normalizeNFC parseFloat bufferFromBase64 (lit "+a") 10
    = Ok [mkToken 0 1 1 (lit "+") (VNum NaN) TokenType.NUMBER None;
          mkToken 1 1 2 (lit "a") (VStr (lit "a")) TokenType.STRING
            (Some SubType.OPEN_STRING)]
  ∧ tokenize normalizeNFC parseFloat bufferFromBase64 (lit "-a") 10
    = Ok [mkToken 0 1 1 (lit "-a") (VStr (lit "-a")) TokenType.STRING
            (Some SubType.OPEN_STRING)].
Proof. split_and!; vm_compute; done. Qed.

(** An instance: the input ["\u0041\n"], with a normalizer that is visible
    in the result. *)
Lemma parseRegularString_decode_witness :
  let input := [34%N] ++ lit "\u0041\n" ++ [34%N] in
  ∃ tok t',
    parseRegularString (λ s, s ++ lit "!") input 10 34%N initial
    = Ok (tok, t')
    ∧ value tok = VStr (lit "A" ++ [10%N] ++ lit "!")
    ∧ drop (pos t') input = [].
Proof.
  intros input.
  destruct (parseRegularString_decode input (λ s, s ++ lit "!") 10 34%N
              initial (lit "\u0041\n" ++ [34%N]))
    as (tok & t' & H1 & H2 & _ & _ & _ & H3);
    [reflexivity | reflexivity | vm_compute; lia |].
  exists tok, t'. split; [exact H1|]. split; [exact H2|exact H3].
Defined.

End TokenizerProofs.

(** ** The tokenizer's main loop *)

Module TokenizeProofs.
Import Tokenizer TokenizerSpec TokenizerProofs.

Ltac split_ifs :=
  repeat match goal with
         | |- context [if ?b then _ else _] => destruct b eqn:?
         end.

Section Run.

Variable normalizeNFC : jsstring → jsstring.
Variable parseFloat : jsstring → number.
Variable bufferFromBase64 : jsstring → list N.
Variable input : jsstring.

(** Every parser leaves the end flag in agreement with the position. *)
Lemma parseSingleLineComment_wf fuel t t' :
  wf input t → parseSingleLineComment input fuel t = Ok t' → wf input t'.
Proof.
  revert t. induction fuel as [|fuel IH]; intros t Hwf; [done|].
  cbn [parseSingleLineComment]. destruct (_ && _).
  - apply IH. by apply advance_wf.
  - by intros [= <-].
Qed.

Lemma regularString_loop_wf fuel q value nn t r :
  wf input t →
  regularString_loop input fuel q value nn t = Ok r → wf input r.2.
Proof.
  revert value nn t. induction fuel as [|fuel IH]; intros value nn t Hwf;
    [done|].
  cbn [regularString_loop].
  split_ifs; try done; try (apply IH; by repeat apply advance_wf).
  by intros [= <-].
Qed.

Lemma parseRegularString_wf fuel q t tok t' :
  wf input t →
  parseRegularString normalizeNFC input fuel q t = Ok (tok, t') →
  wf input t'
  ∧ type tok = TokenType.STRING
  ∧ subType tok = Some SubType.REGULAR_STRING.
Proof.
  intros Hwf. unfold parseRegularString.
  destruct (regularString_loop _ _ _ _ _ _) as [[[v nn] t1]| |] eqn:E;
    [|done..].
  apply regularString_loop_wf in E; [|by apply advance_wf].
  cbn [bind]. destruct (reachedEnd t1); [done|].
  intros [= <- <-]. split; [by apply advance_wf|done].
Qed.

Lemma untilEncloser_loop_wf fuel q t t' :
  wf input t → untilEncloser_loop input fuel q t = Ok t' → wf input t'.
Proof.
  revert t. induction fuel as [|fuel IH]; intros t Hwf; [done|].
  cbn [untilEncloser_loop]. destruct (_ && _).
  - apply IH. by apply advance_wf.
  - by intros [= <-].
Qed.

Lemma parseRawString_wf fuel t tok t' :
  wf input t →
  parseRawString input fuel t = Ok (tok, t') →
  wf input t' ∧ type tok = TokenType.STRING
  ∧ subType tok = Some SubType.RAW_STRING.
Proof.
  intros Hwf. unfold parseRawString.
  destruct (reachedEnd _); [done|]. destruct (_ && _); [done|].
  destruct (untilEncloser_loop _ _ _ _) as [t1| |] eqn:E; [|done..].
  apply untilEncloser_loop_wf in E; [|by repeat apply advance_wf].
  cbn [bind]. destruct (reachedEnd t1); [done|].
  intros [= <- <-]. split; [by apply advance_wf|done].
Qed.

Lemma parseByteString_wf fuel t tok t' :
  wf input t →
  parseByteString bufferFromBase64 input fuel t = Ok (tok, t') →
  wf input t' ∧ type tok = TokenType.BINARY.
Proof.
  intros Hwf. unfold parseByteString.
  destruct (reachedEnd _); [done|]. destruct (_ && _); [done|].
  destruct (untilEncloser_loop _ _ _ _) as [t1| |] eqn:E; [|done..].
  apply untilEncloser_loop_wf in E; [|by repeat apply advance_wf].
  cbn [bind]. destruct (reachedEnd t1); [done|].
  intros [= <- <-]. split; [by apply advance_wf|done].
Qed.

Lemma digits_loop_wf fuel cls value t r :
  wf input t → digits_loop input fuel cls value t = Ok r → wf input r.2.
Proof.
  revert value t. induction fuel as [|fuel IH]; intros value t Hwf; [done|].
  cbn [digits_loop]. destruct (class_test _ _).
  - apply IH. by apply advance_wf.
  - by intros [= <-].
Qed.

Lemma parseZeroPrefixed_wf fuel value t r :
  wf input t → parseZeroPrefixed input fuel value t = Ok r →
  wf input r.2 ∧ r.1.2 ≠ Some SubType.OPEN_STRING.
Proof.
  intros Hwf. unfold parseZeroPrefixed, parsePrefixed.
  split_ifs;
    (destruct (digits_loop _ _ _ _ _) as [[v t1]| |] eqn:E; [|done..];
     apply digits_loop_wf in E; [|by repeat apply advance_wf];
     by intros [= <-]).
Qed.

Lemma parseDecimal_wf fuel value t r :
  wf input t → parseDecimal input fuel value t = Ok r →
  wf input r.2 ∧ r.1.2 ≠ Some SubType.OPEN_STRING.
Proof.
  intros Hwf. revert r. unfold parseDecimal.
  destruct (digits_loop _ _ _ _ _) as [[v1 t1]| |] eqn:E1; [|done..].
  apply digits_loop_wf in E1; [|done]. cbn [bind snd] in *.
  assert (∀ o : outcome (jsstring * bool * Tokenizer),
            (∀ y, o = Ok y → wf input y.2) →
            ∀ k : jsstring * bool * Tokenizer
                  → outcome (jsstring * N * bool * option SubType.t
                             * Tokenizer),
              (∀ y x, wf input y.2 → k y = Ok x →
                      wf input x.2 ∧ x.1.2 ≠ Some SubType.OPEN_STRING) →
              ∀ x, bind o k = Ok x →
                   wf input x.2 ∧ x.1.2 ≠ Some SubType.OPEN_STRING)
    as Hbind.
  { intros [r0| |] Ho k Hk x; [|done..]. cbn. by apply Hk, Ho. }
  eapply Hbind.
  - intros y. destruct (is_char _ _); [|by intros [= <-]].
    destruct (digits_loop _ _ _ _ _) as [[v2 t2]| |] eqn:E2; [|done..].
    apply digits_loop_wf in E2; [|by apply advance_wf].
    by intros [= <-].
  - intros [[v2 d] t2] x Hwf2. cbn [snd] in Hwf2. revert x. eapply Hbind.
    + intros y. destruct (_ || _); [|by intros [= <-]].
      destruct (if _ || _ then _ else _) as [v3 t3] eqn:E3.
      assert (wf input t3).
      { revert E3. destruct (_ || _); intros [= <- <-];
          by repeat apply advance_wf. }
      destruct (digits_loop _ _ _ _ _) as [[v4 t4]| |] eqn:E4; [|done..].
      apply digits_loop_wf in E4; [|done]. by intros [= <-].
    + intros [[v5 e] t5] y Hwf5. by intros [= <-].
Qed.

(** [parseNumber] returns nothing only at a [-] that no digit follows,
    and then leaves the state as it was; a token it returns is a NUMBER. *)
Lemma parseNumber_result fuel t r t' :
  wf input t →
  parseNumber parseFloat input fuel t = Ok (r, t') →
  wf input t'
  ∧ match r with
    | Some tok =>
        type tok = TokenType.NUMBER
        ∧ subType tok ≠ Some SubType.OPEN_STRING
    | None => t' = t
    end.
Proof.
  intros Hwf. unfold parseNumber.
  destruct (_ && _); [by intros [= <- <-]|].
  destruct (if is_char _ _ then _ else _) as [v1 t1] eqn:E1.
  assert (wf input t1) as Hwf1.
  { revert E1. destruct (is_char _ _); intros [= <- <-];
      [by apply advance_wf|done]. }
  destruct (if is_char (input !! pos t1) _ then _ else _) as [v2 t2] eqn:E2.
  assert (wf input t2) as Hwf2.
  { clear E1. revert E2.
    destruct (is_char (input !! pos t1) Symbols.PLUS); intros [= <- <-];
      [by apply advance_wf|done]. }
  destruct (if is_char (input !! pos t2) _ then _ else _)
    as [[[[[v3 b] f] st] t3]| |] eqn:E3; [|done..].
  assert (wf input t3 ∧ st ≠ Some SubType.OPEN_STRING) as [Hwf3 Hst].
  { clear E1 E2. revert E3.
    destruct (is_char (input !! pos t2) (chr "0")); intros E3.
    - by apply parseZeroPrefixed_wf in E3.
    - by apply parseDecimal_wf in E3. }
  cbn [bind]. by intros [= <- <-].
Qed.

Lemma openString_loop_wf fuel lastPos t r :
  wf input t → openString_loop input fuel lastPos t = Ok r → wf input r.2.
Proof.
  revert lastPos t. induction fuel as [|fuel IH]; intros lastPos t Hwf;
    [done|].
  cbn [openString_loop]. destruct (_ && _); [|by intros [= <-]].
  destruct (_ && _); [by intros [= <-]|]. apply IH. by apply advance_wf.
Qed.

Lemma parseLiteralOrOpenString_wf fuel t tok t' :
  wf input t →
  parseLiteralOrOpenString input fuel t = Ok (tok, t') → wf input t'.
Proof.
  intros Hwf. unfold parseLiteralOrOpenString.
  destruct (openString_loop _ _ _ _) as [[l t1]| |] eqn:E; [|done..].
  apply openString_loop_wf in E; [|done]. cbn [bind].
  destruct (bool_decide _); [done|]. by intros [= <- <-].
Qed.

(** More fuel does not change what the loop of the open string returns. *)
Lemma openString_loop_mono fuel fuel' lastPos t r :
  fuel ≤ fuel' →
  openString_loop input fuel lastPos t = Ok r →
  openString_loop input fuel' lastPos t = Ok r.
Proof.
  revert fuel' lastPos t. induction fuel as [|fuel IH];
    intros fuel' lastPos t Hle; [done|].
  destruct fuel' as [|fuel']; [lia|]. cbn [openString_loop].
  destruct (_ && _); [|done]. destruct (_ && _); [done|].
  apply IH. lia.
Qed.

Lemma parseLiteralOrOpenString_mono fuel fuel' t r :
  fuel ≤ fuel' →
  parseLiteralOrOpenString input fuel t = Ok r →
  parseLiteralOrOpenString input fuel' t = Ok r.
Proof.
  intros Hle. unfold parseLiteralOrOpenString.
  destruct (openString_loop input fuel _ _) as [[l t1]| |] eqn:E; [|done..].
  by rewrite (openString_loop_mono _ _ _ _ _ Hle E).
Qed.

(** A token returned from one of the two call sites of [tokenize]. *)
Lemma parseLiteralOrOpenString_token fuel t tok t' :
  wf input t → pos t < length input →
  is_.isWhitespace (input !! pos t) = false →
  is_char (input !! pos t) Symbols.HASH = false →
  is_.isQuote (input !! pos t) = false →
  is_.isSpecialSymbol (input !! pos t) = false →
  is_char (input !! pos t) Symbols.MINUS
  && bool_decide (substring input (pos t) (pos t + 3) = lit "---") = false →
  parseLiteralOrOpenString input fuel t = Ok (tok, t') →
  openStringToken input tok.
Proof.
  intros Hwf Hlt Hw Hh Hq Hs Hsep Hrun.
  destruct (drop (pos t) input) as [|c s] eqn:Hd.
  { apply drop_nil_end in Hd. lia. }
  destruct (at_cons input t c s Hwf Hd) as [He Hc].
  rewrite Hc in Hw, Hh, Hq, Hs, Hsep.
  rewrite (substring_from input t _ 3 Hd) in Hsep.
  change (take 3 (c :: s)) with (substring (c :: s) 0 3) in Hsep.
  destruct (open_string_call_site c s Hw Hh Hq Hs Hsep) as (H1 & H2 & H3).
  destruct (proj1 (parseLiteralOrOpenString_run input
                     (Nat.max fuel (length s + 2)) t) c s)
    as (tok0 & t0 & Hrun0 & _ & _ & _ & _ & Hne & Htext & Hpos & Hcases);
    [done..|lia|].
  rewrite (parseLiteralOrOpenString_mono _ _ _ _ (Nat.le_max_l _ _) Hrun)
    in Hrun0.
  injection Hrun0 as <- <-.
  unfold openStringToken. rewrite Hpos, Hd. done.
Qed.

(** The symbol tokens are of none of the open-string kinds. *)
Lemma getSymbolTokenType_kind c :
  is_.getSymbolTokenType c ≠ TokenType.BOOLEAN
  ∧ is_.getSymbolTokenType c ≠ TokenType.NULL.
Proof. unfold is_.getSymbolTokenType. split_ifs; done. Qed.

(** Every open string, boolean and null token in the result of
    [tokenize] is as [openStringToken] says. *)
Lemma tokenize_loop_open_strings fuel tokens t toks :
  wf input t →
  Forall (λ tok, isOpenStringKind tok → openStringToken input tok) tokens →
  tokenize_loop normalizeNFC parseFloat bufferFromBase64 input fuel tokens t
  = Ok toks →
  Forall (λ tok, isOpenStringKind tok → openStringToken input tok) toks.
Proof.
  revert tokens t. induction fuel as [|fuel IH]; intros tokens t Hwf Hall;
    [done|].
  cbn [tokenize_loop]. case_bool_decide as Hlt; [|by intros [= <-]].
  assert (∀ tok, ¬ isOpenStringKind tok →
            Forall (λ tok, isOpenStringKind tok → openStringToken input tok)
              (tokens ++ [tok])) as Hother.
  { intros tok Hk. apply Forall_app. split; [done|].
    apply Forall_singleton. by intros ?. }
  assert (∀ tok, openStringToken input tok →
            Forall (λ tok, isOpenStringKind tok → openStringToken input tok)
              (tokens ++ [tok])) as Hopen.
  { intros tok Hk. apply Forall_app. split; [done|].
    by apply Forall_singleton. }
  destruct (is_.isWhitespace (input !! pos t)) eqn:Hw.
  { apply IH; [by apply advance_wf|done]. }
  destruct (is_char (input !! pos t) Symbols.HASH) eqn:Hh.
  { destruct (parseSingleLineComment _ _ _) as [t1| |] eqn:E; [|done..].
    apply IH; [|done]. by apply parseSingleLineComment_wf in E. }
  destruct (is_.isQuote (input !! pos t)) eqn:Hq.
  { destruct (parseRegularString _ _ _ _ _) as [[tok t1]| |] eqn:E;
      [|done..].
    apply parseRegularString_wf in E as (? & Hty & Hst); [|done].
    apply IH; [done|]. apply Hother. unfold isOpenStringKind.
    rewrite Hty, Hst. by intros [?|[?|?]]. }
  destruct (is_char (input !! pos t) Symbols.R && _).
  { destruct (parseRawString _ _ _) as [[tok t1]| |] eqn:E; [|done..].
    apply parseRawString_wf in E as (? & Hty & Hst); [|done].
    apply IH; [done|]. apply Hother. unfold isOpenStringKind.
    rewrite Hty, Hst. by intros [?|[?|?]]. }
  destruct (is_char (input !! pos t) Symbols.B && _).
  { destruct (parseByteString _ _ _ _) as [[tok t1]| |] eqn:E; [|done..].
    pose proof E as E'. apply parseByteString_wf in E as (? & Hty); [|done].
    apply IH; [done|]. apply Hother. unfold isOpenStringKind.
    rewrite Hty.
    assert (subType tok = Some SubType.BINARY) as ->;
      [|by intros [?|[?|?]]].
    revert E'. unfold parseByteString. split_ifs; try done.
    destruct (untilEncloser_loop _ _ _ _); [|done..]. cbn [bind].
    split_ifs; [done|]. by intros [= <- _]. }
  destruct (is_.isSpecialSymbol (input !! pos t)) eqn:Hs.
  { apply IH; [by apply advance_wf|]. apply Hother.
    unfold isOpenStringKind. cbn [type subType].
    destruct (getSymbolTokenType_kind (input !! pos t)).
    by intros [?|[?|?]]. }
  destruct (_ || _) eqn:Hnum.
  - destruct (is_char (input !! pos t) Symbols.MINUS && _) eqn:Hsep.
    { apply IH; [by apply advance_wf|]. apply Hother.
      unfold isOpenStringKind. cbn [type subType]. by intros [?|[?|?]]. }
    destruct (parseNumber _ _ _ _) as [[[tok|] t1]| |] eqn:E; [| |done..];
      apply parseNumber_result in E as [Hwf1 Hr]; try done; cbn [bind].
    + apply IH; [done|]. apply Hother. unfold isOpenStringKind.
      destruct Hr as [-> Hst]. by intros [?|[?|?]].
    + subst t1.
      destruct (parseLiteralOrOpenString _ _ _) as [[tok t2]| |] eqn:E2;
        [|done..].
      cbn [bind]. apply IH.
      * by apply parseLiteralOrOpenString_wf in E2.
      * apply Hopen. by eapply parseLiteralOrOpenString_token.
  - destruct (parseLiteralOrOpenString _ _ _) as [[tok t2]| |] eqn:E2;
      [|done..].
    cbn [bind]. apply IH.
    + by apply parseLiteralOrOpenString_wf in E2.
    + apply Hopen. eapply parseLiteralOrOpenString_token; try done.
      apply orb_false_iff in Hnum as [Hnum _].
      apply orb_false_iff in Hnum as [_ ->]. done.
Qed.

End Run.

(** Claim C9.  An open string reads the characters of [openRun] and its
    token carries them with the trailing white space removed (interior
    white space stays); that value is [T] or [true] for BOOLEAN true, [F]
    or [false] for BOOLEAN false, [N] or [null] for NULL, and otherwise the
    token is a STRING of sub-type OPEN_STRING.  This holds for the call of
    [parseLiteralOrOpenString] at each place where [tokenize] calls it,
    which returns when its loop has fuel for the rest of the input, and
    for every such token in the result of [tokenize].  When the value is
    empty the call fails with "unexpected character". *)
Theorem open_string_tokens
    (normalizeNFC : jsstring → jsstring) (parseFloat : jsstring → number)
    (bufferFromBase64 : jsstring → list N)
    (input : jsstring) (fuel : nat) :
  (∀ t c s,
     reachedEnd t = false →
     drop (pos t) input = c :: s →
     whitespace c = false →
     is_.isValidOpenStringChar (Some c) = true →
     substring (c :: s) 0 3 ≠ lit "---" →
     length s + 1 < fuel →
     ∃ tok t',
       parseLiteralOrOpenString input fuel t = Ok (tok, t')
       ∧ position tok = pos t
       ∧ pos t' = pos t + length (openRun (c :: s))
       ∧ openStringToken input tok
       ∧ ∃ ws, openRun (c :: s) = text tok ++ ws
               ∧ forallb whitespace ws = true)
  ∧ (∀ t lastPos t',
       openString_loop input fuel (pos t) t = Ok (lastPos, t') →
       substring input (pos t) (lastPos + 1) = [] →
       parseLiteralOrOpenString input fuel t
       = Throw (UnexpectedCharacter (input !! pos t') (row t) (col t)))
  ∧ (∀ toks,
       tokenize normalizeNFC parseFloat bufferFromBase64 input fuel
       = Ok toks →
       Forall (λ tok, isOpenStringKind tok → openStringToken input tok)
         toks).
Proof.
  split_and!.
  - intros t c s He Hd Hw Hv Hsep Hf.
    destruct (proj1 (parseLiteralOrOpenString_run input fuel t)
                c s He Hd Hw Hv Hsep Hf)
      as (tok & t' & Hrun & Hp & _ & (ws & Hws & Hall) & _ & Hne & Htext
          & Hpos & Hcases).
    exists tok, t'. split_and!; try done.
    + unfold openStringToken. rewrite Hpos, Hd. done.
    + exists ws. by rewrite Htext.
  - apply parseLiteralOrOpenString_run.
  - intros toks Hrun. unfold tokenize in Hrun.
    destruct input as [|c0 s0] eqn:Hin.
    { destruct fuel; [done|]. by injection Hrun as <-. }
    rewrite <- Hin in *.
    eapply tokenize_loop_open_strings; [|by apply Forall_nil|exact Hrun].
    apply wf_initial_nonempty. by rewrite Hin.
Qed.

(** An instance: the input [true , x]. *)
Lemma open_string_tokens_witness :
  (∃ tok t',
     parseLiteralOrOpenString (lit "true , x") 10 initial = Ok (tok, t')
     ∧ pos t' = 5
     ∧ openStringToken (lit "true , x") tok)
  ∧ parseLiteralOrOpenString (lit "x") 10 (mkTokenizer 1 1 2 true)
    = Throw (UnexpectedCharacter None 1 2)
  ∧ Forall
      (λ tok, isOpenStringKind tok → openStringToken (lit "true , x") tok)
      [mkToken 0 1 1 (lit "true") (VBool true) TokenType.BOOLEAN None;
       mkToken 5 1 6 (lit ",") (VStr (lit ",")) TokenType.COMMA None;
       mkToken 7 1 8 (lit "x") (VStr (lit "x")) TokenType.STRING
         (Some SubType.OPEN_STRING)].
Proof.
  pose proof (open_string_tokens (λ s, s) (λ _, NaN) (λ s, s)
                (lit "true , x") 10) as (H1 & _ & H3).
  pose proof (open_string_tokens (λ s, s) (λ _, NaN) (λ s, s)
                (lit "x") 10) as (_ & H2 & _).
  split_and!.
  - destruct (H1 initial (chr "t") (lit "rue , x"))
      as (tok & t' & Hrun & _ & Hp & Hspec & _);
      [reflexivity | reflexivity | reflexivity | reflexivity
      | vm_compute; congruence | vm_compute; lia |].
    exists tok, t'. split; [exact Hrun|]. split; [exact Hp|exact Hspec].
  - exact (H2 (mkTokenizer 1 1 2 true) 1 (mkTokenizer 1 1 2 true)
             eq_refl eq_refl).
  - exact (H3 _ eq_refl).
Defined.

End TokenizeProofs.

(** ** The AST parser *)

Module ASTProofs.
Import AST ASTSpec.

Local Open Scope string_scope.

Lemma Done_inj p q : Done p = Done q → p = q.
Proof. congruence. Qed.

Lemma getObject_stack p :
  stack (getObject p).2 ≠ []
  ∧ length (stack (getObject p).2) = Nat.max (length (stack p)) 1
  ∧ last (stack (getObject p).2) = Some (getObject p).1.
Proof.
  unfold getObject. case_bool_decide as H; cbn [fst snd].
  - destruct (stack p); [|done]. cbn. done.
  - destruct (stack p) as [|a s] eqn:E; [done|]. split_and!; [done|simpl; lia|].
    destruct (last (a :: s)) eqn:El; [done|]. by apply last_None in El.
Qed.

Lemma getObject_nonempty p :
  stack p ≠ [] → getObject p = (default 0 (last (stack p)), p).
Proof.
  intros H. unfold getObject. rewrite bool_decide_eq_false_2; [done|].
  by destruct (stack p).
Qed.

Lemma addValue_stack v p : stack p ≠ [] → stack (addValue v p) = stack p.
Proof.
  intros H. unfold addValue. rewrite (getObject_nonempty p H).
  destruct (lastTokenIs p ":"); [|done].
  destruct (last _) as [[]|]; done.
Qed.

Lemma push_stack ty p :
  stack p ≠ [] → length (stack (push ty p)) = S (length (stack p)).
Proof.
  intros H. unfold push. rewrite (getObject_nonempty p H).
  cbn [setStack stack]. rewrite length_app, addValue_stack by done.
  cbn. lia.
Qed.

Lemma processColon_stack nts obj p :
  stack (processColon nts obj p) = stack p.
Proof.
  unfold processColon. destruct (last _); [|done]. by destruct (_ && _).
Qed.

Lemma length_removelast {A} (l : list A) :
  length (removelast l) = length l - 1.
Proof.
  induction l as [|a [|b l] IH]; [done..|].
  change (removelast (a :: b :: l)) with (a :: removelast (b :: l)).
  cbn [length] in *. lia.
Qed.

(** The closing tokens are the ones that reach [pop]. *)
Lemma isClose_dispatch t :
  isClose t = true →
  is_str (value t) "{" = false ∧ is_str (value t) "[" = false
  ∧ type t = "sep"
  ∧ is_str (value t) ":" = false ∧ is_str (value t) "," = false
  ∧ is_str (value t) "}" || is_str (value t) "]" = true.
Proof.
  unfold isClose, is_str. intros [Hs Hv]%andb_true_iff.
  apply bool_decide_eq_true_1 in Hs.
  destruct (value t) as [s| | |]; [|done..].
  repeat case_bool_decide; simplify_eq; done.
Qed.

(** One call of [process] on a closing token. *)
Lemma process_close nts t p :
  isClose t = true →
  let obj := (getObject p).1 in
  let p1 := (getObject p).2 in
  if bool_decide (ttype (store p1 !!! obj) = closingType t)
  then process nts t p
       = Done (setLastToken (Some t) (setStack (removelast (stack p1)) p1))
  else ∃ e, process nts t p = Throw e p1 ∧ errorToken e = t.
Proof.
  intros (H1 & H2 & H3 & H4 & H5 & H6)%isClose_dispatch obj p1.
  destruct (getObject_stack p) as (Hne & _ & _). fold p1 in Hne.
  unfold process. destruct (getObject p) as [obj' p1'] eqn:E.
  cbn [fst snd] in obj, p1. subst obj p1.
  rewrite H1, H2, (bool_decide_eq_true_2 _ H3), H4, H5, H6. cbn [negb].
  unfold pop. rewrite (getObject_nonempty p1' Hne).
  assert (default 0 (last (stack p1')) = obj') as ->.
  { pose proof (getObject_stack p) as (_ & _ & Hl). rewrite E in Hl.
    cbn [fst snd] in Hl. by rewrite Hl. }
  unfold closingType. case_bool_decide; cbn [negb]; eauto.
Qed.

(** Only a closing token can throw. *)
Lemma process_throw nts t p e p' :
  process nts t p = Throw e p' → isClose t = true ∧ errorToken e = t.
Proof.
  unfold process. destruct (getObject p) as [obj p1].
  unfold isClose.
  destruct (is_str (value t) "{"); [done|].
  destruct (is_str (value t) "["); [done|].
  case_bool_decide as Hs; cbn [negb]; [|done].
  destruct (is_str (value t) ":"); [done|].
  destruct (is_str (value t) ","); [done|].
  destruct (is_str (value t) "}" || is_str (value t) "]") eqn:Hc; [|done].
  unfold pop. destruct (getObject p1) as [obj' p2].
  destruct (negb _); [|done]. by intros [= <- <-].
Qed.

(** The depth of the stack after one call of [process]. *)
Lemma process_depth nts t p p' :
  process nts t p = Done p' →
  length (stack p') = depthAfter (length (stack p)) t.
Proof.
  unfold depthAfter.
  destruct (isClose t) eqn:Hclose.
  - pose proof (process_close nts t p Hclose) as H. cbn zeta in H.
    apply isClose_dispatch in Hclose as (H1 & H2 & _).
    unfold isOpen. rewrite H1, H2. cbn [orb].
    destruct (getObject_stack p) as (_ & Hlen & _).
    case_bool_decide.
    + rewrite H. intros <-%Done_inj.
      change (stack (setLastToken ?t (setStack ?s ?q))) with s.
      by rewrite length_removelast, Hlen.
    + destruct H as (e & -> & _). done.
  - unfold process, isOpen. destruct (getObject_stack p) as (Hne & Hlen & _).
    destruct (getObject p) as [obj p1]. cbn [fst snd] in Hne, Hlen.
    unfold isClose in Hclose.
    destruct (is_str (value t) "{").
    { intros <-%Done_inj. change (stack (setLastToken ?a ?q)) with (stack q).
      cbn [orb]. by rewrite push_stack, Hlen. }
    destruct (is_str (value t) "[").
    { intros <-%Done_inj. change (stack (setLastToken ?a ?q)) with (stack q).
      cbn [orb]. by rewrite push_stack, Hlen. }
    cbn [orb]. case_bool_decide as Hs; cbn [negb].
    2:{ intros <-%Done_inj. change (stack (setLastToken ?a ?q)) with (stack q).
        by rewrite addValue_stack, Hlen. }
    cbn [andb] in Hclose. rewrite Hclose.
    destruct (is_str (value t) ":").
    { intros <-%Done_inj. change (stack (setLastToken ?a ?q)) with (stack q).
      by rewrite processColon_stack, Hlen. }
    destruct (is_str (value t) ",").
    { intros <-%Done_inj. change (stack (setLastToken ?a ?q)) with (stack q).
      destruct (lastTokenIs p1 ","); by rewrite ?addValue_stack, Hlen. }
    intros <-%Done_inj. change (stack (setLastToken ?a ?q)) with (stack q).
    by rewrite Hlen.
Qed.

Lemma processAll_depth nts ts p p' :
  processAll nts ts p = Done p' →
  length (stack p') = foldl depthAfter (length (stack p)) ts.
Proof.
  revert p. induction ts as [|t ts IH]; intros p; cbn [processAll foldl].
  - by intros [= <-].
  - destruct (process nts t p) as [p1|] eqn:E; [|done].
    intros H. rewrite (IH _ H). by rewrite (process_depth _ _ _ _ E).
Qed.

Lemma balanced_depth ts opened :
  balanced opened ts = true → foldl depthAfter (S opened) ts = 1.
Proof.
  revert opened. induction ts as [|t ts IH]; intros opened; cbn [balanced foldl].
  - intros ->%bool_decide_eq_true_1. done.
  - unfold depthAfter at 2.
    replace (Nat.max (S opened) 1) with (S opened) by lia.
    destruct (isOpen t); [apply IH|].
    destruct (isClose t); [|apply IH].
    destruct opened as [|n]; [done|]. intros H.
    replace (S (S n) - 1) with (S n) by lia. by apply IH.
Qed.

Lemma balanced_depth_from_empty ts :
  ts ≠ [] → balanced 0 ts = true → foldl depthAfter 0 ts = 1.
Proof.
  destruct ts as [|t ts]; [done|]. intros _. cbn [balanced foldl].
  unfold depthAfter at 2. change (Nat.max 0 1) with 1.
  destruct (isOpen t); [apply balanced_depth|].
  destruct (isClose t); [done|]. apply balanced_depth.
Qed.

(** A [:] never throws, whatever the last child is. *)
Lemma process_colon_never_throws nts t p :
  isColon t = true →
  is_str (value t) "{" = false ∧ is_str (value t) "[" = false
  ∧ process nts t p
    = Done (setLastToken (Some t)
              (processColon nts (getObject p).1 (getObject p).2)).
Proof.
  unfold isColon, process. intros [Hs Hv]%andb_true_iff.
  destruct (getObject p) as [obj p1]. cbn [fst snd].
  rewrite Hs, Hv. unfold is_str in *.
  destruct (value t) as [s| | |]; [|done..].
  apply bool_decide_eq_true_1 in Hv as ->. done.
Qed.

(** Claim C2 fails on the code.  After the tokens [[ ]] the last child of the root is a container;
    a [:] then leaves the parser as it was and reports nothing (the
    invalid-key error is a TODO in the source).  A falsy primitive ([0],
    the empty string, [false]) is not turned into a key either. *)
Theorem colon_after_non_primitive_is_silent (numberToString : number → string) :
  (∃ p,
     processAll numberToString [sep "["; sep "]"] initial = Done p
     ∧ valuesAt p 0 = [VTree 1]
     ∧ process numberToString (sep ":") p
       = Done (setLastToken (Some (sep ":")) p))
  ∧ (∃ p,
       processAll numberToString [num 0] initial = Done p
       ∧ valuesAt p 0 = [VPrim (PNum (num_of_Z 0))]
       ∧ process numberToString (sep ":") p
         = Done (setLastToken (Some (sep ":")) p))
  ∧ (∃ p,
       processAll numberToString [str "a"; sep ":"] initial = Done p
       ∧ valuesAt p 0 = [VKeyVal "a" None]).
Proof. split_and!; eexists; split_and!; reflexivity. Qed.

(** Claim C6, as it is stated, fails: one opening bracket is processed
    without error and leaves two containers on the stack. *)
Lemma unclosed_bracket_leaves_depth_two :
  ∃ p,
    processAll integerToString [sep "{"] initial = Done p
    ∧ length (stack p) = 2.
Proof. eexists. split; reflexivity. Qed.

(** A closing bracket too many pops the root itself. *)
Lemma surplus_bracket_leaves_depth_zero :
  ∃ p,
    processAll integerToString [sep "}"] initial = Done p
    ∧ length (stack p) = 0.
Proof. eexists. split; reflexivity. Qed.

(** Claim C6, amended.  A closing token pops the top container exactly when the
    container has the token's type and throws at that token otherwise;
    nothing else throws; the depth of the stack follows [depthAfter], so
    that it is 1 after a non-empty token sequence whose brackets balance. *)
Theorem brackets_match_and_depth (numberToString : number → string) :
  (∀ t p,
     isClose t = true →
     let obj := (getObject p).1 in
     let p1 := (getObject p).2 in
     if bool_decide (ttype (store p1 !!! obj) = closingType t)
     then ∃ p', process numberToString t p = Done p'
                ∧ stack p' = removelast (stack p1)
     else ∃ e, process numberToString t p = Throw e p1 ∧ errorToken e = t)
  ∧ (∀ t p e p',
       process numberToString t p = Throw e p' →
       isClose t = true ∧ errorToken e = t)
  ∧ (∀ ts p,
       processAll numberToString ts initial = Done p →
       length (stack p) = foldl depthAfter 0 ts
       ∧ (ts ≠ [] → balanced 0 ts = true → length (stack p) = 1)).
Proof.
  split_and!.
  - intros t p Hc obj p1.
    pose proof (process_close numberToString t p Hc) as H. cbn zeta in H.
    fold obj p1 in H. case_bool_decide; [|done]. eauto.
  - apply process_throw.
  - intros ts p H. apply processAll_depth in H. split; [done|].
    intros Hne Hb. rewrite H. by apply balanced_depth_from_empty.
Qed.

Lemma brackets_match_and_depth_witness :
  (processAll integerToString [sep "["; num 1] initial = Done afterOpenArrayOne
   ∧ ∃ p', process integerToString (sep "]") afterOpenArrayOne = Done p'
           ∧ stack p' = [0])
  ∧ (processAll integerToString [sep "["] initial = Done afterOpenArray
     ∧ process integerToString (sep "}") afterOpenArray
       = Throw (mkError (sep "}") "]" "}") afterOpenArray
     ∧ isClose (sep "}") = true)
  ∧ (∃ p,
       processAll integerToString [sep "["; num 1; sep "]"] initial = Done p
       ∧ length (stack p) = 1).
Proof.
  pose proof (brackets_match_and_depth integerToString) as (H1 & H2 & H3).
  split_and!.
  - reflexivity.
  - exact (H1 (sep "]") afterOpenArrayOne eq_refl).
  - reflexivity.
  - reflexivity.
  - exact (proj1 (H2 (sep "}") afterOpenArray _ _ eq_refl)).
  - eexists. split; [reflexivity|].
    eapply (H3 [sep "["; num 1; sep "]"]); [reflexivity|done|reflexivity].
Defined.

(** Claim C10.  [toObject] returns null when the stack is empty (no token
    was processed), undefined when the root has no child, and the child
    itself, as it is stored, when the root has exactly one child. *)
Theorem toObject_edge_cases (fuel : nat) (p : ASTParser) :
  (stack p = [] → toObject fuel p = Some RNull)
  ∧ (∀ root rest,
       stack p = root :: rest → values (store p !!! root) = [] →
       toObject fuel p = Some RUndefined)
  ∧ (∀ root rest v,
       stack p = root :: rest → values (store p !!! root) = [v] →
       toObject fuel p = Some (RChild v)).
Proof.
  unfold toObject. split_and!.
  - by intros ->.
  - by intros root rest -> ->.
  - by intros root rest v -> ->.
Qed.

Lemma toObject_edge_cases_witness :
  toObject 0 initial = Some RNull
  ∧ (∃ p, processAll integerToString [sep ","] initial = Done p
          ∧ toObject 0 p = Some RUndefined)
  ∧ (∃ p, processAll integerToString [sep "["; num 1; sep "]"] initial = Done p
          ∧ toObject 0 p = Some (RChild (VTree 1))).
Proof.
  split_and!.
  - exact (proj1 (toObject_edge_cases 0 initial) eq_refl).
  - eexists. split; [reflexivity|].
    eapply (proj1 (proj2 (toObject_edge_cases 0 _))); reflexivity.
  - eexists. split; [reflexivity|].
    eapply (proj2 (proj2 (toObject_edge_cases 0 _))); reflexivity.
Defined.

End ASTProofs.

(** ** The string validator *)

Module StringDefProofs.
Import Schema StringDef ValidatorSpec.

Local Open Scope string_scope.

(** What the minimum-length test of [_process] does for a string that
    passed the checks before it: it throws when the string is longer than
    [minLength]. *)
Lemma minLength_test_as_written (s : string) (q : Q) :
  js_gt (VNum (num_of_nat (String.length s))) (VNum (Finite q)) = true
  ↔ (q < inject_Z (Z.of_nat (String.length s)))%Q.
Proof. unfold js_gt, js_lt. cbn. apply Qltb_lt. Qed.

(** Claim C3 fails on the code.  With [minLength = 3] the four-character string [abcd] fails
    [invalid-min-length] and the two-character string [ab] is accepted:
    the test is [value.length > minLength], while the header comment of
    the class and the message of [_invlalidMinLength] say
    [length >= minLength]. *)
Theorem minLength_check_is_reversed
    (regExpTest : string → string → bool)
    (emailExpTest urlExpTest : string → bool) :
  _process regExpTest emailExpTest urlExpTest minLength3 (VStr "abcd") None
  = Throw ErrorCodes.invalidMinLength
  ∧ _process regExpTest emailExpTest urlExpTest minLength3 (VStr "ab") None
    = Ok (VStr "ab", minLength3)
  ∧ _process regExpTest emailExpTest urlExpTest minLength3 (VStr "abc") None
    = Ok (VStr "abc", minLength3).
Proof. split_and!; reflexivity. Qed.

End StringDefProofs.

(** ** The number validators *)

Module NumberDefProofs.
Import Schema NumberDef ValidatorSpec.

Local Open Scope string_scope.

Lemma NUMBER_MAP_number : NUMBER_MAP !! "number" = Some true.
Proof. reflexivity. Qed.

(** The range test of [_intValidator] on a finite number. *)
Lemma intValidator_finite (lo hi : Z) (memberDef : MemberDef) (q : Q) :
  type memberDef ≠ "bigint" →
  ((inject_Z lo <= q)%Q ∧ (q <= inject_Z hi)%Q →
   _intValidator (Some (num_of_Z lo)) (Some (num_of_Z hi)) memberDef
     (VNum (Finite q)) = Ok tt)
  ∧ ((q < inject_Z lo)%Q ∨ (inject_Z hi < q)%Q →
     _intValidator (Some (num_of_Z lo)) (Some (num_of_Z hi)) memberDef
       (VNum (Finite q)) = Throw ErrorCodes.invalidRange).
Proof.
  intros Hty. unfold _intValidator. cbn [typeof].
  rewrite (bool_decide_eq_false_2 ("number" = "bigint")) by done.
  rewrite (bool_decide_eq_true_2 _ NUMBER_MAP_number).
  rewrite (bool_decide_eq_false_2 (type memberDef = "bigint")) by done.
  rewrite (bool_decide_eq_false_2 ("number" = "")) by done.
  rewrite (bool_decide_eq_true_2 ("number" = "number")) by done.
  cbn [negb]. unfold js_gt, js_lt. cbn [toNumeric num_of_Z num_lt].
  split.
  - intros [Hlo Hhi].
    rewrite (proj2 (Qltb_ge _ _) Hlo), (proj2 (Qltb_ge _ _) Hhi). done.
  - intros [Hlo|Hhi].
    + by rewrite (proj2 (Qltb_lt _ _) Hlo).
    + rewrite (proj2 (Qltb_lt _ _) Hhi). by rewrite orb_true_r.
Qed.

(** The same validator on the infinities and on values that are not
    numbers. *)
Lemma intValidator_other (lo hi : Z) (memberDef : MemberDef) (v : Value) :
  type memberDef ≠ "bigint" →
  (v = VNum PosInfinity ∨ v = VNum NegInfinity →
   _intValidator (Some (num_of_Z lo)) (Some (num_of_Z hi)) memberDef v
   = Throw ErrorCodes.invalidRange)
  ∧ (typeof v ≠ "number" →
     ∃ code,
       _intValidator (Some (num_of_Z lo)) (Some (num_of_Z hi)) memberDef v
       = Throw code
       ∧ code ≠ ErrorCodes.invalidRange).
Proof.
  intros Hty. unfold _intValidator.
  rewrite (bool_decide_eq_false_2 (type memberDef = "bigint")) by done.
  split.
  - intros [->| ->]; cbn [typeof];
      rewrite (bool_decide_eq_true_2 _ NUMBER_MAP_number); done.
  - intros Hv. destruct v; try done; cbn [typeof];
      (eexists; split; [reflexivity|]); done.
Qed.

Lemma inject_Z_le (a b : Z) : (a ≤ b)%Z → (inject_Z a <= inject_Z b)%Q.
Proof. intros H. by rewrite <- Zle_Qle. Qed.

Lemma inject_Z_lt (a b : Z) : (a < b)%Z → (inject_Z a < inject_Z b)%Q.
Proof. intros H. by rewrite <- Zlt_Qlt. Qed.

(** The validator that [new NumberDef(ty)] installs for a width-qualified
    type. *)
Lemma new_fixed_width ty signed bits :
  (ty, (signed, bits)) ∈ fixedWidth →
  new ty
  = Ok (mkNumberDef ty
          (_intValidator (Some (num_of_Z (lowerBound signed bits)))
             (Some (num_of_Z (upperBound signed bits)))))
  ∧ ty ≠ "bigint"
  ∧ (lowerBound signed bits ≤ upperBound signed bits)%Z.
Proof.
  unfold fixedWidth. rewrite !elem_of_cons, elem_of_nil.
  intros H. destruct_or!; try done; simplify_eq;
    (split_and!; [reflexivity | done | by vm_compute]).
Qed.

(** [parse] on a number when the member has no [choices]. *)
Lemma parse_number self memberDef n :
  choices memberDef = None →
  parse self (nodeOf (VNum n)) memberDef None
  = bind (_validator self memberDef (VNum n)) (λ _,
      if negb (strictEq (min memberDef) VNull)
         && js_lt (VNum n) (min memberDef)
      then Throw ErrorCodes.outOfRange
      else if negb (strictEq (max memberDef) VNull)
              && js_gt (VNum n) (max memberDef)
      then Throw ErrorCodes.outOfRange
      else Ok (VNum n)).
Proof.
  intros Hc. unfold parse. cbn [getValueNode nodeOf nodeValue].
  unfold doCommonTypeCheck. rewrite Hc. done.
Qed.

(** The range test lets NaN through: every comparison with it is false. *)
Lemma intValidator_NaN (lo hi : option number) (memberDef : MemberDef) :
  type memberDef ≠ "bigint" →
  _intValidator lo hi memberDef (VNum NaN) = Ok tt.
Proof.
  intros Hty. unfold _intValidator. cbn [typeof].
  rewrite (bool_decide_eq_false_2 ("number" = "bigint")) by done.
  rewrite (bool_decide_eq_true_2 _ NUMBER_MAP_number).
  rewrite (bool_decide_eq_false_2 (type memberDef = "bigint")) by done.
  rewrite (bool_decide_eq_false_2 ("number" = "")) by done.
  rewrite (bool_decide_eq_true_2 ("number" = "number")) by done.
  cbn [negb]. unfold js_gt, js_lt. cbn [toNumeric].
  destruct lo as [lo|], hi as [[| | |]|]; done.
Qed.

(** Claim C8, as it is stated, fails: [int8] accepts NaN, which is not in
    the range of the type, and the fraction 3/2, which is no whole number;
    [parse] returns both. *)
Lemma int8_accepts_NaN_and_a_fraction :
  ∃ self,
    new "int8" = Ok self
    ∧ _validator self (memberOf "int8") (VNum NaN) = Ok tt
    ∧ parse self (nodeOf (VNum NaN)) (memberOf "int8") None = Ok (VNum NaN)
    ∧ _validator self (memberOf "int8") (VNum (Finite (3 # 2))) = Ok tt
    ∧ parse self (nodeOf (VNum (Finite (3 # 2)))) (memberOf "int8") None
      = Ok (VNum (Finite (3 # 2)))
    ∧ (∀ z : Z, VNum NaN ≠ int z)
    ∧ (∀ z : Z, ¬ (3 # 2 == inject_Z z)%Q).
Proof.
  eexists. split_and!; try reflexivity.
  - done.
  - intros z. unfold Qeq. cbn. lia.
Qed.

(** Claim C8, amended.  The width-qualified integer types accept a number
    exactly when no comparison with the bounds of their two's-complement
    range rejects it: the validator returns for a finite number, whole or
    not, if and only if it lies between the bounds, and throws
    [invalid-range] otherwise, also for the infinities; it returns for
    NaN; and it rejects what is not a number.  The bounds themselves
    parse, and so does NaN; one past a bound fails [invalid-range], and a
    value inside the range of the type that violates the member's own
    [min] or [max] fails [out-of-range]. *)
Theorem fixed_width_integer_range (ty : string) (signed : bool) (bits : Z)
    (memberDef : MemberDef) :
  (ty, (signed, bits)) ∈ fixedWidth →
  type memberDef = ty →
  let lo := lowerBound signed bits in
  let hi := upperBound signed bits in
  ∃ self,
    new ty = Ok self
    ∧ (∀ q, _validator self memberDef (VNum (Finite q)) = Ok tt
            ↔ (inject_Z lo <= q)%Q ∧ (q <= inject_Z hi)%Q)
    ∧ (∀ q, _validator self memberDef (VNum (Finite q))
            = Throw ErrorCodes.invalidRange
            ↔ (q < inject_Z lo)%Q ∨ (inject_Z hi < q)%Q)
    ∧ _validator self memberDef (VNum NaN) = Ok tt
    ∧ (∀ v, v = VNum PosInfinity ∨ v = VNum NegInfinity →
            _validator self memberDef v = Throw ErrorCodes.invalidRange)
    ∧ (∀ v, typeof v ≠ "number" →
            ∃ code, _validator self memberDef v = Throw code
                    ∧ code ≠ ErrorCodes.invalidRange)
    ∧ (choices memberDef = None →
       min memberDef = VNull → max memberDef = VNull →
       parse self (nodeOf (int lo)) memberDef None = Ok (int lo)
       ∧ parse self (nodeOf (int hi)) memberDef None = Ok (int hi)
       ∧ parse self (nodeOf (VNum NaN)) memberDef None = Ok (VNum NaN))
    ∧ (choices memberDef = None →
       parse self (nodeOf (int (lo - 1))) memberDef None
       = Throw ErrorCodes.invalidRange
       ∧ parse self (nodeOf (int (hi + 1))) memberDef None
         = Throw ErrorCodes.invalidRange)
    ∧ (∀ z m,
         choices memberDef = None → (lo ≤ z ≤ hi)%Z →
         (min memberDef = int m ∧ (z < m)%Z)
         ∨ (max memberDef = int m ∧ (m < z)%Z) →
         parse self (nodeOf (int z)) memberDef None
         = Throw ErrorCodes.outOfRange).
Proof.
  intros Hin Hty lo hi.
  destruct (new_fixed_width ty signed bits Hin) as (Hnew & Hbig & Hle).
  fold lo hi in Hnew, Hle.
  assert (type memberDef ≠ "bigint") as Hmd by (by rewrite Hty).
  pose proof (λ q, intValidator_finite lo hi memberDef q Hmd) as Hv.
  eexists. split; [exact Hnew|]. cbn [_validator].
  assert (∀ z, (lo ≤ z ≤ hi)%Z →
            _intValidator (Some (num_of_Z lo)) (Some (num_of_Z hi)) memberDef
              (int z) = Ok tt) as Hin_range.
  { intros z [Hz1 Hz2]. apply Hv. split; by apply inject_Z_le. }
  assert (∀ z, (z < lo ∨ hi < z)%Z →
            _intValidator (Some (num_of_Z lo)) (Some (num_of_Z hi)) memberDef
              (int z) = Throw ErrorCodes.invalidRange) as Hout_range.
  { intros z [Hz|Hz]; apply Hv; [left|right]; by apply inject_Z_lt. }
  split_and!.
  - intros q. split.
    + intros Hok. destruct (Qlt_le_dec q (inject_Z lo)) as [Hlt|Hge].
      { rewrite (proj2 (Hv q)) in Hok by auto. done. }
      destruct (Qlt_le_dec (inject_Z hi) q) as [Hlt|Hle'].
      { rewrite (proj2 (Hv q)) in Hok by auto. done. }
      done.
    + apply Hv.
  - intros q. split.
    + intros Hthrow. destruct (Qlt_le_dec q (inject_Z lo)) as [Hlt|Hge]; [auto|].
      destruct (Qlt_le_dec (inject_Z hi) q) as [Hlt|Hle']; [auto|].
      rewrite (proj1 (Hv q)) in Hthrow by auto. done.
    + apply Hv.
  - by apply intValidator_NaN.
  - intros v. by apply intValidator_other.
  - intros v. by apply intValidator_other.
  - intros Hc Hmin Hmax. unfold int.
    rewrite !parse_number by done. cbn [_validator].
    fold (int lo) (int hi). rewrite !Hin_range by lia.
    rewrite intValidator_NaN by done.
    rewrite Hmin, Hmax. done.
  - intros Hc. unfold int. rewrite !parse_number by done. cbn [_validator].
    fold (int (lo - 1)) (int (hi + 1)). rewrite !Hout_range by lia. done.
  - intros z m Hc Hz Hviol. unfold int. rewrite parse_number by done.
    cbn [_validator]. fold (int z). rewrite Hin_range by done. cbn [bind].
    destruct Hviol as [[-> Hlt]|[-> Hlt]].
    + unfold int, js_lt. cbn [toNumeric num_of_Z num_lt strictEq].
      rewrite (proj2 (Qltb_lt _ _) (inject_Z_lt _ _ Hlt)).
      rewrite bool_decide_eq_false_2 by done. done.
    + destruct (negb (strictEq (min memberDef) VNull)
                && js_lt (int z) (min memberDef)); [done|].
      unfold int, js_gt, js_lt. cbn [toNumeric num_of_Z num_lt strictEq].
      rewrite (proj2 (Qltb_lt _ _) (inject_Z_lt _ _ Hlt)).
      rewrite bool_decide_eq_false_2 by done. done.
Qed.

Lemma fixed_width_integer_range_witness :
  ∃ self,
    new "int8" = Ok self
    ∧ parse self (nodeOf (int (-128))) (memberOf "int8") None
      = Ok (int (-128))
    ∧ parse self (nodeOf (int 127)) (memberOf "int8") None = Ok (int 127)
    ∧ parse self (nodeOf (VNum NaN)) (memberOf "int8") None = Ok (VNum NaN)
    ∧ parse self (nodeOf (int (-129))) (memberOf "int8") None
      = Throw ErrorCodes.invalidRange
    ∧ parse self (nodeOf (int 128)) (memberOf "int8") None
      = Throw ErrorCodes.invalidRange.
Proof.
  destruct (fixed_width_integer_range "int8" true 8 (memberOf "int8"))
    as (self & Hnew & _ & _ & _ & _ & _ & Hb & Hp & _);
    [unfold fixedWidth; set_solver | reflexivity |].
  exists self. split; [exact Hnew|].
  destruct (Hb eq_refl eq_refl eq_refl) as (H1 & H2 & H5).
  destruct (Hp eq_refl) as [H3 H4].
  split; [exact H1|]. split; [exact H2|]. split; [exact H5|].
  split; [exact H3|exact H4].
Defined.

(** The siblings of [float64] in the last group of [case] labels.  For
    [int64], [uint64] and [float32] the validator throws
    [unsupported-number-type] on every value, so [parse] never returns:
    it fails with that code whenever the common check returns a value, and
    with the error of the common check otherwise. *)
Lemma unsupported_types_never_parse (ty : string) (node : Node)
    (memberDef : MemberDef) (defs : option (Node → option Node)) :
  ty ∈ ["int64"; "uint64"; "float32"] →
  ∃ self,
    new ty = Ok self
    ∧ (∀ v, _validator self memberDef v
            = Throw ErrorCodes.unsupportedNumberType)
    ∧ (∃ code, parse self node memberDef defs = Throw code)
    ∧ (∀ v,
         doCommonTypeCheck memberDef (nodeValue (getValueNode defs node))
         = Ok v →
         parse self node memberDef defs
         = Throw ErrorCodes.unsupportedNumberType)
    ∧ (∀ code,
         doCommonTypeCheck memberDef (nodeValue (getValueNode defs node))
         = Throw code →
         parse self node memberDef defs = Throw code).
Proof.
  rewrite !elem_of_cons, elem_of_nil. intros H.
  exists (mkNumberDef ty unsupported).
  split; [destruct_or!; try done; subst; reflexivity|].
  split; [done|]. unfold parse. cbn [_validator].
  destruct (doCommonTypeCheck _ _) as [v|code]; cbn [bind unsupported].
  - split; [eauto|]. split; [done|]. done.
  - split; [eauto|]. split; [done|]. by intros ? [= ->].
Qed.

(** Claim C4.  [float64] stands twice among the [case] labels of
    [_getValidator], and the first one decides: its validator is the
    unbounded one of [float], [number] and [int], where the three other
    labels of the last group get the validator that throws
    [unsupported-number-type].  So the validator of a [float64] member
    accepts every number, [parse] returns a number that passes the common
    check, and the number 3/2 is returned where the claim says that
    [parse] fails with [unsupported-number-type]. *)
Theorem float64_is_not_unsupported (memberDef : MemberDef) (n : number) :
  _getValidator "float64" = Ok (_intValidator None None)
  ∧ (∀ ty, ty ∈ ["uint64"; "int64"; "float32"] →
           _getValidator ty = Ok unsupported)
  ∧ (∃ self,
       new "float64" = Ok self
       ∧ (type memberDef = "float64" →
          _validator self memberDef (VNum n) = Ok tt
          ∧ (doCommonTypeCheck memberDef (VNum n) = Ok (VNum n) →
             min memberDef = VNull → max memberDef = VNull →
             parse self (nodeOf (VNum n)) memberDef None = Ok (VNum n)))
       ∧ parse self (nodeOf (VNum (Finite (3 # 2)))) (memberOf "float64")
           None
         = Ok (VNum (Finite (3 # 2)))).
Proof.
  split; [reflexivity|]. split.
  { intros ty. rewrite !elem_of_cons, elem_of_nil.
    intros H. destruct_or!; try done; subst ty; reflexivity. }
  eexists. split; [reflexivity|]. split; [|reflexivity].
  intros Hty. cbn [_validator].
  assert (_intValidator None None memberDef (VNum n) = Ok tt) as Hv.
  { unfold _intValidator. cbn [typeof]. rewrite Hty.
    rewrite (bool_decide_eq_false_2 ("number" = "bigint")) by done.
    rewrite (bool_decide_eq_true_2 _ NUMBER_MAP_number).
    by rewrite (bool_decide_eq_false_2 ("float64" = "bigint")) by done. }
  split; [exact Hv|]. intros Hc Hmin Hmax.
  unfold parse. cbn [getValueNode nodeOf nodeValue _validator].
  rewrite Hc. cbn [bind]. rewrite Hv. cbn [bind].
  by rewrite Hmin, Hmax.
Qed.

End NumberDefProofs.

(** ** More on the tokenizer *)

Module TokenizerMoreProofs.
Import Tokenizer TokenizerSpec TokenizerProofs TokenizeProofs TokenizerMore.

Lemma bind_Ok_inv {A B} (o : outcome A) (k : A → outcome B) x :
  bind o k = Ok x → ∃ y, o = Ok y ∧ k y = Ok x.
Proof. destruct o as [y| |]; [|done..]. intros ?. by exists y. Qed.

Section Advance.

Variable input : jsstring.

Lemma advance_loop_pos_min n t :
  pos t < length input →
  pos (advance_loop input n t) = Nat.min (pos t + n) (length input).
Proof.
  revert t. induction n as [|n IH]; intros t Hlt; cbn [advance_loop]; [lia|].
  pose proof (advance_once_wf input t) as Hwf.
  pose proof (advance_once_pos input t) as Hp.
  destruct (reachedEnd (advance_once input t)) eqn:E.
  - unfold wf in Hwf. rewrite E in Hwf. symmetry in Hwf.
    apply bool_decide_eq_true_1 in Hwf. lia.
  - unfold wf in Hwf. rewrite E in Hwf. symmetry in Hwf.
    apply bool_decide_eq_false_1 in Hwf. rewrite IH; lia.
Qed.

(** [advance] moves the position by [step], but not past the end of the
    input, and keeps the end flag in agreement with the position. *)
Lemma advance_pos_min (step : nat) (t : Tokenizer) :
  wf input t → pos t ≤ length input →
  pos (advance input step t) = Nat.min (pos t + step) (length input)
  ∧ wf input (advance input step t)
  ∧ (reachedEnd (advance input step t) = true
     ↔ pos (advance input step t) = length input).
Proof.
  intros Hwf Hle.
  assert (pos (advance input step t) = Nat.min (pos t + step) (length input))
    as Hpos.
  { unfold advance. destruct (reachedEnd t) eqn:E.
    - unfold wf in Hwf. rewrite E in Hwf. symmetry in Hwf.
      apply bool_decide_eq_true_1 in Hwf. lia.
    - unfold wf in Hwf. rewrite E in Hwf. symmetry in Hwf.
      apply bool_decide_eq_false_1 in Hwf. apply advance_loop_pos_min. lia. }
  pose proof (advance_wf input step t Hwf) as Hwf'.
  split; [done|]. split; [done|]. rewrite Hwf'. rewrite bool_decide_eq_true.
  lia.
Qed.

Lemma advance_mono n t :
  wf input t → pos t ≤ length input →
  pos t ≤ pos (advance input n t) ∧ pos (advance input n t) ≤ length input.
Proof.
  intros Hwf Hle. destruct (advance_pos_min n t Hwf Hle) as [-> _]. lia.
Qed.

Lemma advance_strict n t :
  wf input t → pos t < length input → 0 < n →
  pos t < pos (advance input n t).
Proof.
  intros Hwf Hlt Hn.
  destruct (advance_pos_min n t Hwf) as [-> _]; lia.
Qed.

Lemma wf_reachedEnd_false t :
  wf input t → pos t < length input → reachedEnd t = false.
Proof. intros -> ?. apply bool_decide_eq_false_2. lia. Qed.

Lemma wf_reachedEnd_lt t :
  wf input t → reachedEnd t = false → pos t < length input.
Proof.
  intros Hwf E. unfold wf in Hwf. rewrite E in Hwf. symmetry in Hwf.
  apply bool_decide_eq_false_1 in Hwf. lia.
Qed.

Lemma lookup_lt_is_Some_char (p : nat) :
  p < length input → ∃ c, input !! p = Some c.
Proof. intros H. by apply lookup_lt_is_Some_2. Qed.

Lemma located_advance_once t :
  located input t → pos t < length input →
  located input (advance_once input t).
Proof.
  intros [_ Hrc] Hlt. destruct (lookup_lt_is_Some_char _ Hlt) as [c Hc].
  split; [rewrite advance_once_pos; lia|].
  rewrite advance_once_pos, (take_S_r _ _ _ Hc).
  unfold lineCol in *. rewrite foldl_app, <- Hrc. cbn [foldl].
  unfold advance_once, lineColStep. rewrite Hc.
  by destruct (is_char (Some c) 10%N).
Qed.

End Advance.

(** *** An invariant kept by every step is kept by every parser *)

Section Invariant.

Variable normalizeNFC : jsstring → jsstring.
Variable parseFloat : jsstring → number.
Variable bufferFromBase64 : jsstring → list N.
Variable input : jsstring.

Variable I : Tokenizer → Prop.
Hypothesis I_wf : ∀ t, I t → wf input t ∧ pos t ≤ length input.
Hypothesis I_step :
  ∀ t, I t → pos t < length input → I (advance_once input t).

Lemma I_advance_loop n t :
  I t → reachedEnd t = false → I (advance_loop input n t).
Proof using I_wf I_step.
  revert t. induction n as [|n IH]; intros t Ht He; cbn [advance_loop];
    [done|].
  destruct (I_wf t Ht) as [Hwf _].
  pose proof (I_step t Ht (wf_reachedEnd_lt input t Hwf He)) as Ht'.
  destruct (reachedEnd (advance_once input t)) eqn:E; [done|]. by apply IH.
Qed.

Lemma I_advance n t : I t → I (advance input n t).
Proof using I_wf I_step.
  intros Ht. unfold advance. destruct (reachedEnd t) eqn:E; [done|].
  by apply I_advance_loop.
Qed.

Local Abbreviation K := (keeps I).

Lemma K_refl t : I t → K t t.
Proof. by split. Qed.

Lemma K_advance n t t' : K t t' → K t (advance input n t').
Proof using I_wf I_step.
  intros [Ht' Hle]. split; [by apply I_advance|].
  destruct (I_wf t' Ht') as [Hwf Hlen].
  destruct (advance_mono input n t' Hwf Hlen). lia.
Qed.

Lemma K_trans t t1 t2 : K t t1 → K t1 t2 → K t t2.
Proof. intros [? ?] [? ?]. split; [done|lia]. Qed.

Lemma parseSingleLineComment_K fuel t0 t t' :
  K t0 t → parseSingleLineComment input fuel t = Ok t' → K t0 t'.
Proof using I_wf I_step.
  revert t. induction fuel as [|fuel IH]; intros t HK; [done|].
  cbn [parseSingleLineComment]. destruct (_ && _).
  - apply IH. by apply K_advance.
  - by intros [= <-].
Qed.

Lemma regularString_loop_K fuel q value nn t0 t r :
  K t0 t →
  regularString_loop input fuel q value nn t = Ok r → K t0 r.2.
Proof using I_wf I_step.
  revert value nn t. induction fuel as [|fuel IH]; intros value nn t HK;
    [done|].
  cbn [regularString_loop].
  split_ifs; try done; try (apply IH; by repeat apply K_advance).
  by intros [= <-].
Qed.

Lemma untilEncloser_loop_K fuel q t0 t t' :
  K t0 t → untilEncloser_loop input fuel q t = Ok t' → K t0 t'.
Proof using I_wf I_step.
  revert t. induction fuel as [|fuel IH]; intros t HK; [done|].
  cbn [untilEncloser_loop]. destruct (_ && _).
  - apply IH. by apply K_advance.
  - by intros [= <-].
Qed.

Lemma openString_loop_K fuel lastPos t0 t r :
  K t0 t → openString_loop input fuel lastPos t = Ok r → K t0 r.2.
Proof using I_wf I_step.
  revert lastPos t. induction fuel as [|fuel IH]; intros lastPos t HK;
    [done|].
  cbn [openString_loop]. destruct (_ && _); [|by intros [= <-]].
  destruct (_ && _); [by intros [= <-]|]. apply IH. by apply K_advance.
Qed.
Lemma digits_loop_K fuel cls value t0 t r :
  K t0 t → digits_loop input fuel cls value t = Ok r → K t0 r.2.
Proof using I_wf I_step.
  revert value t. induction fuel as [|fuel IH]; intros value t HK; [done|].
  cbn [digits_loop]. destruct (class_test _ _).
  - apply IH. by apply K_advance.
  - by intros [= <-].
Qed.

Lemma parseRegularString_K fuel q t tok t' :
  I t → pos t < length input →
  parseRegularString normalizeNFC input fuel q t = Ok (tok, t') →
  I t' ∧ pos t < pos t'
  ∧ position tok = pos t ∧ trow tok = row t ∧ tcol tok = col t.
Proof using I_wf I_step.
  intros Ht Hlt. unfold parseRegularString.
  destruct (regularString_loop _ _ _ _ _ _) as [[[v nn] t1]| |] eqn:E;
    [|done..].
  apply (regularString_loop_K _ _ _ _ t) in E;
    [|by apply K_advance, K_refl].
  destruct E as [Ht1 Hle]. cbn [snd] in Ht1, Hle. cbn [bind].
  destruct (reachedEnd t1) eqn:He; [done|]. intros [= <- <-].
  destruct (I_wf _ Ht1) as [Hwf1 _]. destruct (I_wf _ Ht) as [Hwf Hlen].
  pose proof (advance_strict input 1 t1 Hwf1
                (wf_reachedEnd_lt _ _ Hwf1 He)).
  destruct (advance_mono input 1 t Hwf Hlen).
  split; [by apply I_advance|]. cbn. split; [lia|done].
Qed.

Lemma enclosed_K fuel t t1 :
  I t → pos t < length input →
  reachedEnd (advance input 1 t) = false →
  untilEncloser_loop input fuel (input !! pos (advance input 1 t))
    (advance input 1 (advance input 1 t)) = Ok t1 →
  reachedEnd t1 = false →
  I (advance input 1 t1)
  ∧ pos t + 2 < pos (advance input 1 t1)
  ∧ pos (advance input 1 t1) ≤ length input.
Proof using I_wf I_step.
  intros Ht Hlt He1 E He.
  destruct (I_wf _ Ht) as [Hwf Hlen].
  pose proof (I_advance 1 _ Ht) as Ha.
  destruct (I_wf _ Ha) as [Hwfa Hlena].
  pose proof (advance_strict input 1 t Hwf Hlt).
  pose proof (advance_strict input 1 _ Hwfa
                (wf_reachedEnd_lt _ _ Hwfa He1)).
  apply (untilEncloser_loop_K _ _ (advance input 1 (advance input 1 t)))
    in E; [|by apply K_refl, I_advance].
  destruct E as [Ht1 Hle]. destruct (I_wf _ Ht1) as [Hwf1 Hlen1].
  pose proof (advance_strict input 1 t1 Hwf1
                (wf_reachedEnd_lt _ _ Hwf1 He)).
  pose proof (I_advance 1 _ Ht1) as Hb. destruct (I_wf _ Hb).
  split; [done|]. lia.
Qed.

Lemma substring_length_le (s : jsstring) a b :
  a ≤ b → b ≤ length s → length (substring s a b) = b - a.
Proof. intros. unfold substring. rewrite length_take, length_drop. lia. Qed.

Lemma parseRawString_K fuel t tok t' :
  I t → pos t < length input →
  parseRawString input fuel t = Ok (tok, t') →
  I t' ∧ pos t < pos t'
  ∧ position tok = pos t ∧ trow tok = row t ∧ tcol tok = col t
  ∧ textIsSource input tok.
Proof using I_wf I_step.
  intros Ht Hlt. unfold parseRawString.
  destruct (reachedEnd (advance input 1 t)) eqn:He1; [done|].
  destruct (_ && _); [done|].
  destruct (untilEncloser_loop _ _ _ _) as [t1| |] eqn:E; [|done..].
  cbn [bind]. destruct (reachedEnd t1) eqn:He; [done|].
  destruct (enclosed_K _ _ _ Ht Hlt He1 E He) as (Hb & Hlt2 & Hlen).
  intros [= <- <-]. split; [done|]. split; [lia|].
  split_and!; try done. unfold textIsSource. cbn [position text].
  rewrite substring_length_le by lia. f_equal. lia.
Qed.

Lemma parseByteString_K fuel t tok t' :
  I t → pos t < length input →
  parseByteString bufferFromBase64 input fuel t = Ok (tok, t') →
  I t' ∧ pos t < pos t'
  ∧ position tok = pos t ∧ trow tok = row t ∧ tcol tok = col t
  ∧ textIsSource input tok.
Proof using I_wf I_step.
  intros Ht Hlt. unfold parseByteString.
  destruct (reachedEnd (advance input 1 t)) eqn:He1; [done|].
  destruct (_ && _); [done|].
  destruct (untilEncloser_loop _ _ _ _) as [t1| |] eqn:E; [|done..].
  cbn [bind]. destruct (reachedEnd t1) eqn:He; [done|].
  destruct (enclosed_K _ _ _ Ht Hlt He1 E He) as (Hb & Hlt2 & Hlen).
  intros [= <- <-]. split; [done|]. split; [lia|].
  split_and!; try done. unfold textIsSource. cbn [position text].
  rewrite substring_length_le by lia. f_equal. lia.
Qed.

End Invariant.

(** *** Numbers: the text read is the source text *)

Section Numbers.

Variable parseFloat : jsstring → number.
Variable input : jsstring.

Lemma tracked_wf t :
  tracked input t → wf input t ∧ pos t ≤ length input.
Proof. intros [? [? _]]. done. Qed.

Lemma tracked_step t :
  tracked input t → pos t < length input →
  tracked input (advance_once input t).
Proof.
  intros [_ Hl] Hlt. split; [apply advance_once_wf|].
  by apply located_advance_once.
Qed.

Lemma tracked_advance n t : tracked input t → tracked input (advance input n t).
Proof. apply I_advance; [apply tracked_wf|apply tracked_step]. Qed.

Lemma substring_snoc (p0 p : nat) c :
  input !! p = Some c → p0 ≤ p →
  substring input p0 (S p) = substring input p0 p ++ [c].
Proof.
  intros Hc Hle. unfold substring.
  replace (S p - p0) with (S (p - p0)) by lia.
  apply take_S_r. rewrite lookup_drop. by replace (p0 + (p - p0)) with p by lia.
Qed.

Lemma substring_nil (p : nat) : substring input p p = [].
Proof. unfold substring. by rewrite Nat.sub_diag. Qed.

Lemma reading_weaken p0 m m' v t :
  m' ≤ m → reading input p0 m v t → reading input p0 m' v t.
Proof. intros ? (? & ? & ? & ?). split_and!; try done. lia. Qed.

Lemma reading_snoc p0 m v t c :
  reading input p0 m v t → input !! pos t = Some c →
  reading input p0 (S (pos t)) (v ++ [c]) (advance input 1 t).
Proof.
  intros (Ht & Hp0 & Hm & ->) Hc.
  destruct (tracked_wf _ Ht) as [Hwf Hlen].
  apply lookup_lt_Some in Hc as Hlt.
  destruct (advance_pos_min input 1 t Hwf Hlen) as [Hp _].
  rewrite Nat.min_l in Hp by lia.
  split; [by apply tracked_advance|]. rewrite Hp.
  split; [lia|]. split; [lia|].
  replace (pos t + 1) with (S (pos t)) by lia.
  by rewrite (substring_snoc _ _ c).
Qed.

Lemma advance_at_end n t :
  wf input t → input !! pos t = None → advance input n t = t.
Proof.
  intros Hwf Hn. unfold advance. rewrite Hwf. apply lookup_ge_None_1 in Hn.
  by rewrite bool_decide_eq_true_2.
Qed.

(** At the end of the input the loop of a class that matches a letter of
    "undefined" makes no progress. *)
Lemma digits_loop_stuck fuel cls v t :
  wf input t → input !! pos t = None →
  class_test cls None = true →
  digits_loop input fuel cls v t = Hang.
Proof.
  intros Hwf Hn Hc. revert v. induction fuel as [|fuel IH]; intros v; [done|].
  cbn [digits_loop]. rewrite Hn, Hc.
  rewrite advance_at_end by done. apply IH.
Qed.

Lemma digits_loop_reading fuel cls p0 m v t r :
  reading input p0 m v t →
  digits_loop input fuel cls v t = Ok r →
  reading input p0 m r.1 r.2.
Proof.
  revert v t m. induction fuel as [|fuel IH]; intros v t m Hr; [done|].
  cbn [digits_loop]. destruct (class_test _ _) eqn:Hc; [|by intros [= <-]].
  destruct (input !! pos t) as [c|] eqn:Hi.
  - intros E. apply (IH _ _ (S (pos t))) in E; [|by eapply reading_snoc].
    eapply reading_weaken; [|exact E]. destruct Hr as (_ & _ & ? & _). lia.
  - destruct Hr as ([Hwf _] & _).
    by rewrite advance_at_end, digits_loop_stuck.
Qed.

Lemma digits_loop_first fuel cls p0 m v t r :
  class_test cls (input !! pos t) = true →
  reading input p0 m v t →
  digits_loop input fuel cls v t = Ok r →
  reading input p0 (S (pos t)) r.1 r.2.
Proof.
  intros Hc Hr. destruct fuel as [|fuel]; [done|].
  cbn [digits_loop]. rewrite Hc.
  destruct (input !! pos t) as [c|] eqn:Hi.
  - apply digits_loop_reading. by eapply reading_snoc.
  - destruct Hr as ([Hwf _] & _).
    by rewrite advance_at_end, digits_loop_stuck.
Qed.

Lemma parsePrefixed_reading fuel cls p0 m v t x r :
  is_char (input !! pos t) (chr "0") = true →
  is_char (input !! (pos t + 1)) x = true →
  reading input p0 m v t →
  parsePrefixed input fuel cls v t = Ok r →
  reading input p0 (S (pos t)) r.1 r.2.
Proof.
  intros H0%bool_decide_eq_true_1 Hx%bool_decide_eq_true_1 Hr.
  unfold parsePrefixed. rewrite H0, Hx. cbn [str_of].
  pose proof (reading_snoc _ _ _ _ _ Hr H0) as Hr1.
  assert (advance input 2 t = advance input 1 (advance input 1 t)) as Hadv.
  { destruct Hr as ([Hwf _] & _). apply lookup_lt_Some in Hx.
    unfold advance at 1 3. rewrite Hwf.
    rewrite bool_decide_eq_false_2 by lia. cbn [advance_loop].
    pose proof (advance_once_wf input t) as Hwf1.
    pose proof (advance_once_pos input t) as Hp1.
    rewrite Hwf1, Hp1. rewrite bool_decide_eq_false_2 by lia.
    unfold advance. rewrite Hwf1, Hp1.
    by rewrite bool_decide_eq_false_2 by lia. }
  assert (pos (advance input 1 t) = pos t + 1) as Hp.
  { destruct Hr as (Ht & _). destruct (tracked_wf _ Ht) as [Hwf Hlen].
    destruct (advance_pos_min input 1 t Hwf Hlen) as [-> _].
    apply lookup_lt_Some in Hx. lia. }
  rewrite <- Hp in Hx.
  pose proof (reading_snoc _ _ _ _ _ Hr1 Hx) as Hr2.
  rewrite <- Hadv in Hr2. intros E.
  rewrite (assoc_L (++)) in E.
  apply (digits_loop_reading _ _ _ _ _ _ _ Hr2) in E.
  eapply reading_weaken; [|exact E]. lia.
Qed.

Lemma parseZeroPrefixed_reading fuel p0 m v t r :
  is_char (input !! pos t) (chr "0") = true →
  reading input p0 m v t →
  parseZeroPrefixed input fuel v t = Ok r →
  reading input p0 (S (pos t)) r.1.1.1.1 r.2.
Proof.
  intros H0 Hr. unfold parseZeroPrefixed.
  assert (∀ x cls r0,
            is_char (input !! (pos t + 1)) x = true →
            parsePrefixed input fuel cls v t = Ok r0 →
            reading input p0 (S (pos t)) r0.1 r0.2) as Hpre.
  { intros x cls r0 Hx. by apply (parsePrefixed_reading _ _ _ m _ _ x). }
  destruct (is_char _ (chr "X")) eqn:HX; [|destruct (is_char _ (chr "x")) eqn:Hx];
    cbn [orb].
  1,2: destruct (parsePrefixed _ _ _ _ _) as [[v1 t1]| |] eqn:E; [|done..];
       cbn [bind]; intros [= <-]; by eapply (Hpre _ _ (v1, t1)).
  destruct (is_char _ (chr "C")) eqn:HC; [|destruct (is_char _ (chr "c")) eqn:Hc];
    cbn [orb].
  1,2: destruct (parsePrefixed _ _ _ _ _) as [[v1 t1]| |] eqn:E; [|done..];
       cbn [bind]; intros [= <-]; by eapply (Hpre _ _ (v1, t1)).
  destruct (is_char _ (chr "B")) eqn:HB; [|destruct (is_char _ (chr "b")) eqn:Hb];
    cbn [orb].
  1,2: destruct (parsePrefixed _ _ _ _ _) as [[v1 t1]| |] eqn:E; [|done..];
       cbn [bind]; intros [= <-]; by eapply (Hpre _ _ (v1, t1)).
  destruct (digits_loop _ _ _ _ _) as [[v1 t1]| |] eqn:E; [|done..].
  cbn [bind]. intros [= <-].
  apply (digits_loop_first _ _ p0 m) in E; [done| |done].
  apply bool_decide_eq_true_1 in H0. by rewrite H0.
Qed.

Lemma parseDecimal_reading fuel p0 m v t r :
  reading input p0 m v t →
  parseDecimal input fuel v t = Ok r →
  reading input p0
    (if is_.isDigit (input !! pos t) then S (pos t) else m) r.1.1.1.1 r.2.
Proof.
  intros Hr E. unfold parseDecimal in E.
  set (M := if is_.isDigit (input !! pos t) then S (pos t) else m).
  apply bind_Ok_inv in E as ([v1 t1] & E1 & E).
  apply bind_Ok_inv in E as ([[v2 d] t2] & E2 & E).
  apply bind_Ok_inv in E as ([[v3 e] t3] & E3 & E).
  injection E as <-. cbn [fst snd].
  assert (reading input p0 M v1 t1) as Hr1.
  { unfold M. destruct (is_.isDigit (input !! pos t)) eqn:Hd.
    - apply (digits_loop_first _ _ p0 m) in E1; [done| |done].
      destruct (input !! pos t) as [c|]; [|done]. cbn in Hd |- *.
      unfold isDecimalChar. by rewrite Hd.
    - by apply (digits_loop_reading _ _ p0 m) in E1. }
  clearbody M. clear E1 Hr.
  assert (reading input p0 M v2 t2) as Hr2.
  { destruct (is_char (input !! pos t1) (chr ".")) eqn:Hdot;
      [|by injection E2 as <- <- <-].
    apply bool_decide_eq_true_1 in Hdot.
    pose proof (reading_snoc _ _ _ _ _ Hr1 Hdot) as Hr2.
    apply (reading_weaken _ _ M) in Hr2; [|destruct Hr1 as (_&_&?&_); lia].
    apply bind_Ok_inv in E2 as ([w t'] & E2 & E). injection E as <- <- <-.
    by apply (digits_loop_reading _ _ _ _ _ _ _ Hr2) in E2. }
  clear E2 Hr1.
  destruct (_ || _) eqn:He in E3; [|by injection E3 as <- <- <-].
  assert (∃ c, input !! pos t2 = Some c) as [c Hc].
  { apply orb_true_iff in He as [He|He]; apply bool_decide_eq_true_1 in He;
      eauto. }
  rewrite Hc in E3. cbn [str_of] in E3.
  pose proof (reading_snoc _ _ _ _ _ Hr2 Hc) as Hr3.
  apply (reading_weaken _ _ M) in Hr3; [|destruct Hr2 as (_&_&?&_); lia].
  destruct (_ || _) eqn:Hs in E3.
  - assert (∃ c, input !! pos (advance input 1 t2) = Some c) as [c' Hc'].
    { apply orb_true_iff in Hs as [Hs|Hs]; apply bool_decide_eq_true_1 in Hs;
        eauto. }
    rewrite Hc' in E3. cbn [str_of] in E3.
    pose proof (reading_snoc _ _ _ _ _ Hr3 Hc') as Hr4.
    apply (reading_weaken _ _ M) in Hr4; [|destruct Hr3 as (_&_&?&_); lia].
    apply bind_Ok_inv in E3 as ([w t'] & E3 & E). injection E as <- <- <-.
    by apply (digits_loop_reading _ _ _ _ _ _ _ Hr4) in E3.
  - apply bind_Ok_inv in E3 as ([w t'] & E3 & E). injection E as <- <- <-.
    by apply (digits_loop_reading _ _ _ _ _ _ _ Hr3) in E3.
Qed.

Lemma parseNumber_source fuel t tok t' :
  tracked input t → pos t < length input →
  is_char (input !! pos t) Symbols.PLUS
  || is_char (input !! pos t) Symbols.MINUS
  || is_.isDigit (input !! pos t) = true →
  parseNumber parseFloat input fuel t = Ok (Some tok, t') →
  tracked input t' ∧ pos t < pos t'
  ∧ position tok = pos t ∧ trow tok = row t ∧ tcol tok = col t
  ∧ textIsSource input tok.
Proof.
  intros Ht Hlt Hcall. unfold parseNumber.
  destruct (_ && _); [done|].
  assert (reading input (pos t) (pos t) [] t) as Hr0.
  { split_and!; try done. by rewrite substring_nil. }
  destruct (if is_char _ _ then _ else _) as [v1 t1] eqn:E1.
  destruct (if is_char (input !! pos t1) _ then _ else _) as [v2 t2] eqn:E2.
  assert (reading input (pos t)
            (if is_.isDigit (input !! pos t2) then pos t else S (pos t))
            v2 t2) as Hr2.
  { destruct (is_char (input !! pos t) Symbols.MINUS) eqn:Hm.
    - injection E1 as <- <-. apply bool_decide_eq_true_1 in Hm.
      rewrite Hm in *. cbn [str_of app] in *.
      pose proof (reading_snoc _ _ _ _ _ Hr0 Hm) as Hr1.
      destruct (is_char (input !! pos (advance input 1 t)) Symbols.PLUS)
        eqn:Hp; injection E2 as <- <-.
      + apply bool_decide_eq_true_1 in Hp. rewrite Hp. cbn [str_of].
        pose proof (reading_snoc _ _ _ _ _ Hr1 Hp) as Hr2.
        eapply reading_weaken; [|exact Hr2]. destruct Hr1 as (_ & ? & ? & _).
        clear Hcall; case_match; lia.
      + eapply reading_weaken; [|exact Hr1]. clear Hcall; case_match; lia.
    - injection E1 as <- <-.
      destruct (is_char (input !! pos t) Symbols.PLUS) eqn:Hp;
        injection E2 as <- <-.
      + apply bool_decide_eq_true_1 in Hp. rewrite Hp. cbn [str_of app].
        pose proof (reading_snoc _ _ _ _ _ Hr0 Hp) as Hr2.
        eapply reading_weaken; [|exact Hr2].
        clear Hcall; case_match; lia.
      + cbn [orb] in Hcall. by rewrite Hcall. }
  clear E1 E2 Hr0.
  destruct (if is_char (input !! pos t2) _ then _ else _)
    as [[[[[v3 b] f] st] t3]| |] eqn:E3; [|done..].
  cbn [bind]. intros [= <- <-].
  assert (reading input (pos t) (S (pos t)) v3 t3) as Hr3.
  { destruct (is_char (input !! pos t2) (chr "0")) eqn:H0.
    - apply (parseZeroPrefixed_reading _ _ _ _ _ _ H0 Hr2) in E3.
      eapply reading_weaken; [|exact E3]. destruct Hr2 as (_ & ? & _). lia.
    - apply (parseDecimal_reading _ _ _ _ _ _ Hr2) in E3.
      cbn [fst snd] in E3. eapply reading_weaken; [|exact E3].
      destruct Hr2 as (_ & ? & _). clear Hcall; case_match; lia. }
  destruct Hr3 as (Ht3 & _ & Hlt3 & ->).
  split; [done|]. split; [lia|]. split_and!; try done.
  unfold textIsSource. cbn [position text].
  destruct (tracked_wf _ Ht3). rewrite substring_length_le by lia.
  f_equal. lia.
Qed.

End Numbers.

(** *** The main loop *)

Section MainLoop.

Variable normalizeNFC : jsstring → jsstring.
Variable parseFloat : jsstring → number.
Variable bufferFromBase64 : jsstring → list N.
Variable input : jsstring.

Lemma substring_is_source (tok : Token) (b : nat) :
  text tok = substring input (position tok) b → textIsSource input tok.
Proof.
  intros E. unfold textIsSource. rewrite E. unfold substring.
  replace (position tok + _ - position tok)
    with (length (take (b - position tok) (drop (position tok) input)))
    by lia.
  rewrite length_take.
  destruct (Nat.min_spec (b - position tok)
              (length (drop (position tok) input))) as [[? ->]|[? ->]];
    [done|].
  by rewrite !take_ge by lia.
Qed.

Lemma literalToken_fields start startRow startCol v :
  position (literalToken start startRow startCol v) = start
  ∧ trow (literalToken start startRow startCol v) = startRow
  ∧ tcol (literalToken start startRow startCol v) = startCol
  ∧ text (literalToken start startRow startCol v) = v.
Proof. unfold literalToken. split_ifs; done. Qed.

Lemma parseLiteralOrOpenString_source fuel t tok t' :
  tracked input t → pos t < length input →
  is_.isValidOpenStringChar (input !! pos t) = true →
  is_char (input !! pos t) Symbols.MINUS
  && bool_decide (substring input (pos t) (pos t + 3) = lit "---") = false →
  parseLiteralOrOpenString input fuel t = Ok (tok, t') →
  tracked input t' ∧ pos t < pos t'
  ∧ position tok = pos t ∧ trow tok = row t ∧ tcol tok = col t
  ∧ textIsSource input tok.
Proof.
  intros Ht Hlt Hv Hsep. unfold parseLiteralOrOpenString.
  intros ([lp t1] & E & E1)%bind_Ok_inv.
  revert E1. destruct (bool_decide (_ = [])); [done|]. intros [= <- <-].
  destruct (literalToken_fields (pos t) (row t) (col t)
              (substring input (pos t) (lp + 1))) as (Hp & Hr & Hc & Htx).
  destruct (tracked_wf _ _ Ht) as [Hwf Hlen].
  assert (tracked input t1 ∧ pos t < pos t1) as [Ht1 Hlt1].
  { destruct fuel as [|fuel]; [done|]. cbn [openString_loop] in E.
    rewrite (wf_reachedEnd_false _ _ Hwf Hlt), Hv, Hsep in E. cbn in E.
    apply (openString_loop_K input (tracked input) (tracked_wf input)
             (tracked_step input) _ _ (advance input 1 t)) in E.
    - destruct E as [? Hle]. split; [done|].
      pose proof (advance_strict input 1 t Hwf Hlt). cbn [snd] in Hle. lia.
    - by apply K_refl, tracked_advance. }
  split_and!; try done.
  apply (substring_is_source _ (lp + 1)). by rewrite Hp, Htx.
Qed.

Lemma collected_skip tokens t t' :
  collected input tokens t → pos t ≤ pos t' → collected input tokens t'.
Proof.
  intros (Hf & Hb & Hs) Hle. split_and!; try done.
  eapply Forall_impl; [exact Hb|]. intros tok ?. cbn in *. lia.
Qed.

Lemma collected_add tokens t tok t' :
  tracked input t → pos t < length input → collected input tokens t →
  position tok = pos t → trow tok = row t → tcol tok = col t →
  (subType tok ≠ Some SubType.REGULAR_STRING → textIsSource input tok) →
  pos t < pos t' →
  collected input (tokens ++ [tok]) t'.
Proof.
  intros [_ [_ Hrc]] Hlt (Hf & Hb & Hs) Hp Hr Hc Htx Hlt'. split_and!.
  - apply Forall_app. split; [done|]. apply Forall_singleton.
    split; [|done]. unfold tokenLocated. by rewrite Hp, Hr, Hc.
  - apply Forall_app. split.
    + eapply Forall_impl; [exact Hb|]. intros ? ?. cbn in *. lia.
    + apply Forall_singleton. lia.
  - unfold inSourceOrder in *.
    apply StronglySorted_app_2; [|done|repeat constructor].
    intros a b Ha ->%list_elem_of_singleton.
    rewrite Forall_forall in Hb. rewrite Hp. by apply Hb.
Qed.

Lemma tokenize_loop_collected fuel tokens t toks :
  tracked input t → collected input tokens t →
  tokenize_loop normalizeNFC parseFloat bufferFromBase64 input fuel tokens t
  = Ok toks →
  Forall (tokenFaithful input) toks ∧ inSourceOrder toks.
Proof.
  revert tokens t. induction fuel as [|fuel IH]; intros tokens t Ht Hcol;
    [done|].
  cbn [tokenize_loop]. case_bool_decide as Hlt.
  2:{ intros [= <-]. destruct Hcol as (? & _ & ?). done. }
  destruct (tracked_wf _ _ Ht) as [Hwf Hlen].
  pose proof (advance_strict input 1 t Hwf Hlt Nat.lt_0_1) as Hadv1.
  destruct (is_.isWhitespace (input !! pos t)) eqn:Hw.
  { apply IH; [by apply tracked_advance|].
    eapply collected_skip; [done|]. lia. }
  destruct (is_char (input !! pos t) Symbols.HASH) eqn:Hh.
  { intros (t1 & E & E1)%bind_Ok_inv. revert E1.
    apply (parseSingleLineComment_K input (tracked input)
             (tracked_wf input) (tracked_step input) _ t) in E;
      [|by apply K_refl].
    destruct E as [Ht1 Hle]. apply IH; [done|].
    by eapply collected_skip. }
  destruct (is_.isQuote (input !! pos t)) eqn:Hq.
  { intros ([tok t1] & E & E1)%bind_Ok_inv. revert E1.
    pose proof E as E'.
    apply (parseRegularString_K normalizeNFC input (tracked input)
             (tracked_wf input) (tracked_step input)) in E
      as (Ht1 & Hlt1 & Hp & Hr & Hc); [|done..].
    apply parseRegularString_wf in E' as (_ & _ & Hst);
      [|done].
    apply IH; [done|]. by apply (collected_add tokens t). }
  destruct (is_char (input !! pos t) Symbols.R && _).
  { intros ([tok t1] & E & E1)%bind_Ok_inv. revert E1.
    apply (parseRawString_K input (tracked input)
             (tracked_wf input) (tracked_step input)) in E
      as (Ht1 & Hlt1 & Hp & Hr & Hc & Htx); [|done..].
    apply IH; [done|]. by apply (collected_add tokens t). }
  destruct (is_char (input !! pos t) Symbols.B && _).
  { intros ([tok t1] & E & E1)%bind_Ok_inv. revert E1.
    apply (parseByteString_K bufferFromBase64 input (tracked input)
             (tracked_wf input) (tracked_step input)) in E
      as (Ht1 & Hlt1 & Hp & Hr & Hc & Htx); [|done..].
    apply IH; [done|]. by apply (collected_add tokens t). }
  destruct (lookup_lt_is_Some_char input _ Hlt) as [c Hc].
  destruct (is_.isSpecialSymbol (input !! pos t)) eqn:Hs.
  { apply IH; [by apply tracked_advance|].
    apply (collected_add tokens t); try done. intros _.
    apply (substring_is_source _ (S (pos t))). cbn [text position].
    rewrite Hc. cbn [str_of].
    by rewrite (substring_snoc input _ _ c), substring_nil. }
  assert (is_.isValidOpenStringChar (input !! pos t) = true) as Hv.
  { unfold is_.isValidOpenStringChar. rewrite Hs, Hq, Hh.
    by rewrite Hc. }
  destruct (_ || _) eqn:Hnum.
  - destruct (is_char (input !! pos t) Symbols.MINUS && _) eqn:Hsep.
    { apply IH; [by apply tracked_advance|].
      assert (pos t < pos (advance input 3 t))
        by (apply advance_strict; [done..|lia]).
      apply (collected_add tokens t); try done. intros _.
      apply (substring_is_source _ (pos t + 3)). cbn [text position].
      apply andb_true_iff in Hsep as [_ Hsep].
      by apply bool_decide_eq_true_1 in Hsep. }
    intros ([[tok|] t1] & E & E1)%bind_Ok_inv; revert E1.
    + apply parseNumber_source in E
        as (Ht1 & Hlt1 & Hp & Hr & Hc' & Htx); [|done..].
      apply IH; [done|]. by apply (collected_add tokens t).
    + apply parseNumber_result in E as [_ ->]; [|done].
      intros ([tok t2] & E & E1)%bind_Ok_inv. revert E1.
      apply parseLiteralOrOpenString_source in E
        as (Ht1 & Hlt1 & Hp & Hr & Hc' & Htx); [|done..].
      apply IH; [done|]. by apply (collected_add tokens t).
  - intros ([tok t2] & E & E1)%bind_Ok_inv. revert E1.
    apply parseLiteralOrOpenString_source in E
      as (Ht1 & Hlt1 & Hp & Hr & Hc' & Htx); [|try done..].
    + apply IH; [done|]. by apply (collected_add tokens t).
    + apply orb_false_iff in Hnum as [Hnum _].
      apply orb_false_iff in Hnum as [_ ->]. done.
Qed.

End MainLoop.

End TokenizerMoreProofs.
(** ** Properties of the token list *)

Module TokenizerTheorems.
Import Tokenizer TokenizerSpec TokenizerProofs TokenizeProofs TokenizerMore
  TokenizerMoreProofs.

Section Tokens.

Variable normalizeNFC : jsstring → jsstring.
Variable parseFloat : jsstring → number.
Variable bufferFromBase64 : jsstring → list N.
Variable input : jsstring.

(** Property X1.  [advance] moves the position by [step], but never past
    the end of the input, and the end flag is set exactly when the
    position has reached the length of the input. *)
Theorem advance_stops_at_end (step : nat) (t : Tokenizer) :
  wf input t → pos t ≤ length input →
  pos (advance input step t) = Nat.min (pos t + step) (length input)
  ∧ wf input (advance input step t)
  ∧ (reachedEnd (advance input step t) = true
     ↔ pos (advance input step t) = length input).
Proof. apply advance_pos_min. Qed.

Lemma tokenize_collected fuel toks :
  tokenize normalizeNFC parseFloat bufferFromBase64 input fuel = Ok toks →
  Forall (tokenFaithful input) toks ∧ inSourceOrder toks.
Proof.
  unfold tokenize. destruct (decide (input = [])) as [->|Hne].
  { destruct fuel as [|fuel]; [done|]. intros [= <-].
    split; constructor. }
  apply tokenize_loop_collected.
  - split; [by apply wf_initial_nonempty|]. split; [cbn; lia|done].
  - split_and!; constructor.
Qed.

(** Property X2.  The tokens come in the order of the source: each one starts after
    the one before it, and inside the input. *)
Theorem tokens_in_source_order (fuel : nat) (toks : list Token) :
  tokenize normalizeNFC parseFloat bufferFromBase64 input fuel = Ok toks →
  inSourceOrder toks
  ∧ Forall (λ tok, position tok < length input) toks.
Proof.
  intros [Hf Hs]%tokenize_collected. split; [done|].
  eapply Forall_impl; [exact Hf|]. by intros tok [[? _] _].
Qed.

(** Property X3.  The row and column of every token are those of its position: the
    row is one more than the number of line feeds before it, the column
    one more than the number of characters since the last of them. *)
Theorem token_row_and_column (fuel : nat) (toks : list Token) :
  tokenize normalizeNFC parseFloat bufferFromBase64 input fuel = Ok toks →
  Forall (λ tok,
            (trow tok, tcol tok) = lineCol (take (position tok) input))
    toks.
Proof.
  intros [Hf Hs]%tokenize_collected.
  eapply Forall_impl; [exact Hf|]. by intros tok [[_ ?] _].
Qed.

(** Property X4.  The text of every token other than a regular string is the source
    text that starts at its position. *)
Theorem token_text_is_source_text (fuel : nat) (toks : list Token) :
  tokenize normalizeNFC parseFloat bufferFromBase64 input fuel = Ok toks →
  Forall (λ tok,
            subType tok ≠ Some SubType.REGULAR_STRING →
            substring input (position tok)
              (position tok + length (text tok)) = text tok)
    toks.
Proof.
  intros [Hf Hs]%tokenize_collected.
  eapply Forall_impl; [exact Hf|]. by intros tok [_ ?].
Qed.

Lemma digits_loop_hex_to_end fuel v t :
  wf input t → forallb isHexChar (drop (pos t) input) = true →
  digits_loop input fuel isHexChar v t = Hang.
Proof.
  revert v t. induction fuel as [|fuel IH]; intros v t Hwf Hhex; [done|].
  destruct (drop (pos t) input) as [|c s] eqn:Hd.
  - apply digits_loop_stuck; [done| |done].
    apply drop_nil_end in Hd. by apply lookup_ge_None_2.
  - cbn [digits_loop]. destruct (at_cons input t c s Hwf Hd) as [_ Hc].
    rewrite Hc. cbn [forallb] in Hhex.
    apply andb_true_iff in Hhex as [Hh Hs].
    unfold class_test. cbn [str_of existsb]. rewrite Hh. cbn [orb].
    destruct (advance_at input 1 t _ Hwf Hd) as [Hwf1 Hd1]; [cbn; lia|].
    apply IH; [done|]. by rewrite Hd1.
Qed.

Lemma hexLiteralAt_true p :
  hexLiteralAt input p = true →
  input !! p = Some (chr "0")
  ∧ (is_char (input !! (p + 1)) (chr "X")
     || is_char (input !! (p + 1)) (chr "x") = true)
  ∧ p + 2 ≤ length input
  ∧ forallb isHexChar (drop (p + 2) input) = true.
Proof.
  unfold hexLiteralAt. intros [[H0 Hx]%andb_true_iff Hh]%andb_true_iff.
  apply bool_decide_eq_true_1 in H0. split_and!; try done.
  assert (is_Some (input !! (p + 1))) as Hs.
  { apply orb_true_iff in Hx as [Hx|Hx]; apply bool_decide_eq_true_1 in Hx;
      by rewrite Hx. }
  apply lookup_lt_is_Some_1 in Hs. lia.
Qed.

Lemma parseNumber_hex_to_end fuel t :
  wf input t → hexLiteralAt input (pos t) = true →
  parseNumber parseFloat input fuel t = Hang.
Proof.
  intros Hwf (Hc & Hx & Hlen & Hhex)%hexLiteralAt_true.
  unfold parseNumber. rewrite Hc.
  change (is_char (Some (chr "0")) Symbols.MINUS) with false.
  cbn [andb]. rewrite Hc.
  change (is_char (Some (chr "0")) Symbols.PLUS) with false.
  cbn match. rewrite Hc.
  change (is_char (Some (chr "0")) (chr "0")) with true. cbn match.
  unfold parseZeroPrefixed, parsePrefixed. rewrite Hx.
  rewrite digits_loop_hex_to_end; [done|by apply advance_wf|].
  by rewrite (advance_pos input 2 t Hwf Hlen).
Qed.

(** Property X5.  A hexadecimal literal that runs to the end of the
    input is never tokenized.  At the end of the input the test of the
    digit loop succeeds, because the text "undefined" of the character
    after the end holds hexadecimal digits, and [advance] leaves the
    tokenizer where it is; so the condition of the loop never fails and
    [tokenize] returns no list of tokens, whatever the number of rounds. *)
Theorem hex_literal_at_end_gives_no_tokens (fuel : nat)
    (tokens : list Token) :
  hexLiteralAt input 0 = true →
  class_test isHexChar (input !! length input) = true
  ∧ (∀ t, wf input t → length input ≤ pos t → advance input 1 t = t)
  ∧ tokenize normalizeNFC parseFloat bufferFromBase64 input fuel
    ≠ Ok tokens.
Proof.
  intros Hhex. split; [by rewrite lookup_ge_None_2|]. split.
  { intros t Hwf Hpos. apply advance_at_end; [done|].
    by apply lookup_ge_None_2. }
  destruct fuel as [|fuel]; [done|].
  pose proof Hhex as (H0 & _ & Hlen & _)%hexLiteralAt_true.
  unfold tokenize. cbn [tokenize_loop]. change (pos initial) with 0.
  rewrite bool_decide_eq_true_2 by lia. rewrite H0.
  change (is_.isWhitespace (Some (chr "0"))) with false.
  change (is_char (Some (chr "0")) Symbols.HASH) with false.
  change (is_.isQuote (Some (chr "0"))) with false.
  change (is_char (Some (chr "0")) Symbols.R) with false.
  change (is_char (Some (chr "0")) Symbols.B) with false.
  change (is_.isSpecialSymbol (Some (chr "0"))) with false.
  change (is_char (Some (chr "0")) Symbols.PLUS) with false.
  change (is_char (Some (chr "0")) Symbols.MINUS) with false.
  change (is_.isDigit (Some (chr "0"))) with true.
  cbn [andb orb].
  rewrite parseNumber_hex_to_end; [done| |done].
  apply wf_initial_nonempty. intros E. rewrite E in Hlen. cbn in Hlen. lia.
Qed.

(** The loop of the raw and byte strings stops at the first [q], or at
    the end of the input. *)
Lemma untilEncloser_loop_run fuel q t body rest :
  wf input t → drop (pos t) input = body ++ rest → q ∉ body →
  rest = [] ∨ head rest = Some q →
  length body < fuel →
  ∃ t', untilEncloser_loop input fuel (Some q) t = Ok t'
        ∧ wf input t' ∧ drop (pos t') input = rest
        ∧ pos t' = pos t + length body.
Proof.
  revert fuel t. induction body as [|c body IH]; intros fuel t Hwf Hd Hq Hr Hf;
    (destruct fuel as [|fuel]; [cbn in Hf; lia|]); cbn [untilEncloser_loop].
  - cbn [app] in Hd. exists t.
    destruct Hr as [->|Hr].
    + rewrite (at_end input t Hwf Hd). cbn. split_and!; first [done|lia].
    + destruct rest as [|c r]; [done|]. injection Hr as ->.
      destruct (at_cons input t _ _ Hwf Hd) as [-> ->].
      rewrite bool_decide_eq_true_2 by done. cbn.
      split_and!; first [done|lia].
  - cbn [app] in Hd. destruct (at_cons input t _ _ Hwf Hd) as [-> Hc].
    rewrite Hc. apply not_elem_of_cons in Hq as [Hne Hq].
    rewrite bool_decide_eq_false_2 by congruence. cbn [negb andb].
    destruct (advance_at input 1 t _ Hwf Hd) as [Hwf1 Hd1]; [cbn; lia|].
    cbn [drop] in Hd1.
    destruct (IH fuel _ Hwf1 Hd1 Hq Hr) as (t' & E & Hwf' & Hd' & Hp');
      [cbn in Hf; lia|].
    exists t'. split_and!; try done.
    rewrite Hp', (advance_pos input 1 t Hwf); [cbn; lia|].
    apply lookup_lt_Some in Hc. lia.
Qed.

Lemma enclosed_scan fuel t c0 q body rest :
  wf input t → q ∉ body → length body < fuel →
  drop (pos t) input = c0 :: q :: body ++ rest →
  rest = [] ∨ head rest = Some q →
  reachedEnd (advance input 1 t) = false
  ∧ input !! pos (advance input 1 t) = Some q
  ∧ ∃ t3,
      untilEncloser_loop input fuel (Some q)
        (advance input 1 (advance input 1 t)) = Ok t3
      ∧ wf input t3 ∧ drop (pos t3) input = rest
      ∧ pos t3 = pos t + length body + 2.
Proof.
  intros Hwf Hq Hf Hd Hr.
  destruct (advance_at input 1 t _ Hwf Hd) as [Hwf1 Hd1]; [cbn; lia|].
  cbn [drop] in Hd1. destruct (at_cons input _ _ _ Hwf1 Hd1) as [He1 Hc1].
  destruct (advance_at input 1 _ _ Hwf1 Hd1) as [Hwf2 Hd2]; [cbn; lia|].
  cbn [drop] in Hd2.
  destruct (untilEncloser_loop_run fuel q _ body rest Hwf2 Hd2 Hq Hr Hf)
    as (t3 & E & Hwf3 & Hd3 & Hp3).
  split; [done|]. split; [done|]. exists t3. split_and!; try done.
  apply drop_cons_lookup in Hd as (_ & _ & ?).
  apply drop_cons_lookup in Hd1 as (_ & _ & ?).
  rewrite Hp3, (advance_pos input 1 _ Hwf1), (advance_pos input 1 _ Hwf);
    lia.
Qed.

Lemma enclosed_text t c0 q body rest :
  drop (pos t) input = c0 :: q :: body ++ q :: rest →
  substring input (pos t) (pos t + length body + 2 + 1)
  = c0 :: q :: body ++ [q]
  ∧ substring (c0 :: q :: body ++ [q]) 2
      (length (c0 :: q :: body ++ [q]) - 1) = body.
Proof.
  intros Hd. split.
  - rewrite <- !Nat.add_assoc. rewrite (substring_from input t _ _ Hd).
    replace (length body + (2 + 1)) with (S (S (length body + 1))) by lia.
    cbn [take]. do 2 f_equal.
    replace (body ++ q :: rest) with ((body ++ [q]) ++ rest)
      by (by rewrite <- (assoc_L (++))).
    apply take_app_length'. rewrite length_app. cbn. lia.
  - unfold substring. cbn [drop length]. rewrite length_app. cbn [length].
    replace (S (S (length body + 1)) - 1 - 2) with (length body) by lia.
    by rewrite drop_0, take_app_length.
Qed.

Lemma isQuote_cases q :
  q = Symbols.DOUBLE_QUOTE ∨ q = Symbols.SINGLE_QUOTE →
  negb (is_char (Some q) Symbols.DOUBLE_QUOTE)
  && negb (is_char (Some q) Symbols.SINGLE_QUOTE) = false.
Proof. by intros [->| ->]. Qed.

(** Property X7.  A raw string has no escapes.  From the marker, an opening quote
    and a body without that quote, [parseRawString] returns the body as it
    stands as the value when the quote closes it, and reports the string
    as not closed when the input ends first. *)
Theorem raw_string_is_verbatim (fuel : nat) (t : Tokenizer)
    (c0 q : char) (body rest : jsstring) :
  wf input t →
  q = Symbols.DOUBLE_QUOTE ∨ q = Symbols.SINGLE_QUOTE →
  q ∉ body → length body < fuel →
  (drop (pos t) input = c0 :: q :: body ++ q :: rest →
   ∃ t',
     parseRawString input fuel t
     = Ok (mkToken (pos t) (row t) (col t) (c0 :: q :: body ++ [q])
             (VStr body) TokenType.STRING (Some SubType.RAW_STRING), t')
     ∧ drop (pos t') input = rest)
  ∧ (drop (pos t) input = c0 :: q :: body →
     parseRawString input fuel t = Throw (RawNotClosed (row t) (col t))).
Proof.
  intros Hwf Hquote Hq Hf. split; intros Hd.
  - destruct (enclosed_scan fuel t c0 q body (q :: rest) Hwf Hq Hf Hd)
      as (He1 & Hc1 & t3 & E & Hwf3 & Hd3 & Hp3); [by right|].
    destruct (at_cons input _ _ _ Hwf3 Hd3) as [He3 _].
    destruct (advance_at input 1 _ _ Hwf3 Hd3) as [Hwf4 Hd4]; [cbn; lia|].
    exists (advance input 1 t3). split; [|done].
    unfold parseRawString. rewrite He1, Hc1, (isQuote_cases q Hquote), E.
    cbn [bind]. rewrite He3.
    assert (pos (advance input 1 t3) = pos t + length body + 2 + 1) as ->.
    { rewrite (advance_pos input 1 _ Hwf3); [lia|].
      apply drop_cons_lookup in Hd3 as (_ & _ & ?). lia. }
    destruct (enclosed_text t c0 q body rest Hd) as [-> ->]. done.
  - rewrite <- (app_nil_r body) in Hd.
    destruct (enclosed_scan fuel t c0 q body [] Hwf Hq Hf Hd)
      as (He1 & Hc1 & t3 & E & Hwf3 & Hd3 & Hp3); [by left|].
    unfold parseRawString. rewrite He1, Hc1, (isQuote_cases q Hquote), E.
    cbn [bind]. by rewrite (at_end input _ Hwf3 Hd3).
Qed.

(** Property X8.  A byte string is read in the same way, and the text between the
    quotes, as it stands, is what is handed to the base64 decoder. *)
Theorem byte_string_is_decoded_body (fuel : nat) (t : Tokenizer)
    (c0 q : char) (body rest : jsstring) :
  wf input t →
  q = Symbols.DOUBLE_QUOTE ∨ q = Symbols.SINGLE_QUOTE →
  q ∉ body → length body < fuel →
  (drop (pos t) input = c0 :: q :: body ++ q :: rest →
   ∃ t',
     parseByteString bufferFromBase64 input fuel t
     = Ok (mkToken (pos t) (row t) (col t) (c0 :: q :: body ++ [q])
             (VBuffer (bufferFromBase64 body)) TokenType.BINARY
             (Some SubType.BINARY), t')
     ∧ drop (pos t') input = rest)
  ∧ (drop (pos t) input = c0 :: q :: body →
     parseByteString bufferFromBase64 input fuel t
     = Throw (ByteNotClosed (row t) (col t))).
Proof.
  intros Hwf Hquote Hq Hf. split; intros Hd.
  - destruct (enclosed_scan fuel t c0 q body (q :: rest) Hwf Hq Hf Hd)
      as (He1 & Hc1 & t3 & E & Hwf3 & Hd3 & Hp3); [by right|].
    destruct (at_cons input _ _ _ Hwf3 Hd3) as [He3 _].
    destruct (advance_at input 1 _ _ Hwf3 Hd3) as [Hwf4 Hd4]; [cbn; lia|].
    exists (advance input 1 t3). split; [|done].
    unfold parseByteString. rewrite He1, Hc1, (isQuote_cases q Hquote), E.
    cbn [bind]. rewrite He3.
    assert (pos (advance input 1 t3) = pos t + length body + 2 + 1) as ->.
    { rewrite (advance_pos input 1 _ Hwf3); [lia|].
      apply drop_cons_lookup in Hd3 as (_ & _ & ?). lia. }
    destruct (enclosed_text t c0 q body rest Hd) as [-> ->]. done.
  - rewrite <- (app_nil_r body) in Hd.
    destruct (enclosed_scan fuel t c0 q body [] Hwf Hq Hf Hd)
      as (He1 & Hc1 & t3 & E & Hwf3 & Hd3 & Hp3); [by left|].
    unfold parseByteString. rewrite He1, Hc1, (isQuote_cases q Hquote), E.
    cbn [bind]. by rewrite (at_end input _ Hwf3 Hd3).
Qed.

Lemma tokenize_loop_blank fuel tokens t :
  wf input t →
  forallb (λ c, is_.isWhitespace (Some c)) (drop (pos t) input) = true →
  length input - pos t < fuel →
  tokenize_loop normalizeNFC parseFloat bufferFromBase64 input fuel tokens t
  = Ok tokens.
Proof.
  revert t. induction fuel as [|fuel IH]; intros t Hwf Hws Hf; [lia|].
  cbn [tokenize_loop]. case_bool_decide as Hlt; [|done].
  destruct (drop (pos t) input) as [|c s] eqn:Hd.
  { apply drop_nil_end in Hd. lia. }
  destruct (at_cons input t c s Hwf Hd) as [_ Hc]. rewrite Hc.
  cbn [forallb] in Hws. apply andb_true_iff in Hws as [-> Hs].
  destruct (advance_at input 1 t _ Hwf Hd) as [Hwf1 Hd1]; [cbn; lia|].
  apply IH; [done|by rewrite Hd1|].
  pose proof (advance_strict input 1 t Hwf Hlt Nat.lt_0_1). lia.
Qed.

(** Property X9.  An input that is empty or holds nothing but white space
    has no tokens, and [tokenize] returns after one round of its loop for
    each character. *)
Theorem blank_input_has_no_tokens :
  forallb (λ c, is_.isWhitespace (Some c)) input = true →
  tokenize normalizeNFC parseFloat bufferFromBase64 input (length input + 1)
  = Ok [].
Proof.
  intros Hws. unfold tokenize. destruct (decide (input = [])) as [E|Hne].
  { rewrite E. done. }
  apply tokenize_loop_blank; [by apply wf_initial_nonempty|done|cbn; lia].
Qed.

(** *** Termination *)

Lemma bind_runs {A B} (o : outcome A) (k : A → outcome B) :
  o ≠ Hang → (∀ y, o = Ok y → k y ≠ Hang) → bind o k ≠ Hang.
Proof. destruct o as [y| |]; [|done..]. intros _ Hk. by apply Hk. Qed.

Lemma fits_advance fuel n t :
  fits input fuel t → fits input fuel (advance input n t).
Proof.
  intros [Ht Hf]. split; [by apply tracked_advance|].
  destruct (tracked_wf _ _ Ht) as [Hwf Hlen].
  destruct (advance_mono input n t Hwf Hlen). lia.
Qed.

Lemma fits_advance_S fuel t :
  fits input (S fuel) t → reachedEnd t = false →
  fits input fuel (advance input 1 t).
Proof.
  intros [Ht Hf] He. split; [by apply tracked_advance|].
  destruct (tracked_wf _ _ Ht) as [Hwf Hlen].
  pose proof (wf_reachedEnd_lt _ _ Hwf He) as Hlt.
  pose proof (advance_strict input 1 t Hwf Hlt Nat.lt_0_1). lia.
Qed.

Lemma fits_later fuel t t' :
  fits input fuel t → keeps (tracked input) t t' → fits input fuel t'.
Proof. intros [_ Hf] [Ht' Hle]. split; [done|lia]. Qed.

Lemma fits_zero t : ¬ fits input 0 t.
Proof. intros [_ ?]. lia. Qed.

Lemma parseSingleLineComment_runs fuel t :
  fits input fuel t → parseSingleLineComment input fuel t ≠ Hang.
Proof.
  revert t. induction fuel as [|fuel IH]; intros t Hf;
    [by apply fits_zero in Hf|].
  cbn [parseSingleLineComment]. destruct (reachedEnd t) eqn:He; [done|].
  destruct (negb (is_char _ _)); [|done]. cbn [negb andb].
  by apply IH, fits_advance_S.
Qed.

Lemma regularString_loop_runs fuel q v nn t :
  fits input fuel t → regularString_loop input fuel q v nn t ≠ Hang.
Proof.
  revert v nn t. induction fuel as [|fuel IH]; intros v nn t Hf;
    [by apply fits_zero in Hf|].
  cbn [regularString_loop]. destruct (reachedEnd t) eqn:He; [done|].
  pose proof (fits_advance_S _ _ Hf He) as Hf1.
  cbn [negb andb]. split_ifs; try done; apply IH;
    first [exact Hf1
          |apply fits_advance; exact Hf1
          |do 2 apply fits_advance; exact Hf1].
Qed.

Lemma untilEncloser_loop_runs fuel q t :
  fits input fuel t → untilEncloser_loop input fuel q t ≠ Hang.
Proof.
  revert t. induction fuel as [|fuel IH]; intros t Hf;
    [by apply fits_zero in Hf|].
  cbn [untilEncloser_loop]. destruct (reachedEnd t) eqn:He; [done|].
  destruct (negb (bool_decide _)); [|done]. cbn [negb andb].
  by apply IH, fits_advance_S.
Qed.

Lemma openString_loop_runs fuel lastPos t :
  fits input fuel t → openString_loop input fuel lastPos t ≠ Hang.
Proof.
  revert lastPos t. induction fuel as [|fuel IH]; intros lastPos t Hf;
    [by apply fits_zero in Hf|].
  cbn [openString_loop]. destruct (reachedEnd t) eqn:He; [done|].
  cbn [negb andb]. split_ifs; try done; by apply IH, fits_advance_S.
Qed.

Lemma fits_not_at_end fuel t c :
  fits input fuel t → input !! pos t = Some c → reachedEnd t = false.
Proof.
  intros [[Hwf _] _] Hc%lookup_lt_Some.
  by apply (wf_reachedEnd_false input).
Qed.

Lemma digits_loop_runs fuel cls v t :
  class_test cls None = false →
  fits input fuel t → digits_loop input fuel cls v t ≠ Hang.
Proof.
  intros Hcls. revert v t. induction fuel as [|fuel IH]; intros v t Hf;
    [by apply fits_zero in Hf|].
  cbn [digits_loop]. destruct (input !! pos t) as [c|] eqn:Hc.
  - destruct (class_test cls (Some c)); [|done].
    apply IH, fits_advance_S; [done|]. by eapply fits_not_at_end.
  - by rewrite Hcls.
Qed.

Lemma digits_loop_hex_runs fuel v t :
  forallb isHexChar (drop (pos t) input) = false →
  fits input fuel t → digits_loop input fuel isHexChar v t ≠ Hang.
Proof.
  revert v t. induction fuel as [|fuel IH]; intros v t Hhex Hf;
    [by apply fits_zero in Hf|].
  destruct (drop (pos t) input) as [|c s] eqn:Hd; [done|].
  pose proof Hf as [[Hwf _] _].
  destruct (at_cons input t c s Hwf Hd) as [He Hc].
  cbn [digits_loop]. rewrite Hc. unfold class_test. cbn [str_of existsb].
  cbn [forallb] in Hhex. destruct (isHexChar c); [|done]. cbn [orb andb] in *.
  destruct (advance_at input 1 t _ Hwf Hd) as [Hwf1 Hd1]; [cbn; lia|].
  apply IH; [by rewrite Hd1|]. by apply fits_advance_S.
Qed.

Lemma parseRegularString_runs fuel q t :
  fits input fuel t →
  parseRegularString normalizeNFC input fuel q t ≠ Hang.
Proof.
  intros Hf. unfold parseRegularString. apply bind_runs.
  - by apply regularString_loop_runs, fits_advance.
  - intros [[v nn] t1] _. by destruct (reachedEnd t1).
Qed.

Lemma parseRawString_runs fuel t :
  fits input fuel t → parseRawString input fuel t ≠ Hang.
Proof.
  intros Hf. unfold parseRawString. split_ifs; try done. apply bind_runs.
  - by apply untilEncloser_loop_runs; repeat apply fits_advance.
  - intros t1 _. by destruct (reachedEnd t1).
Qed.

Lemma parseByteString_runs fuel t :
  fits input fuel t →
  parseByteString bufferFromBase64 input fuel t ≠ Hang.
Proof.
  intros Hf. unfold parseByteString. split_ifs; try done. apply bind_runs.
  - by apply untilEncloser_loop_runs; repeat apply fits_advance.
  - intros t1 _. by destruct (reachedEnd t1).
Qed.

Lemma parseLiteralOrOpenString_runs fuel t :
  fits input fuel t → parseLiteralOrOpenString input fuel t ≠ Hang.
Proof.
  intros Hf. unfold parseLiteralOrOpenString. apply bind_runs.
  - by apply openString_loop_runs.
  - intros [lp t1] _. by destruct (bool_decide _).
Qed.

Lemma digits_loop_later fuel cls v t r :
  fits input fuel t → digits_loop input fuel cls v t = Ok r →
  fits input fuel r.2.
Proof.
  intros Hf E. eapply fits_later; [done|].
  eapply (digits_loop_K input (tracked input) (tracked_wf input)
            (tracked_step input)); [|done].
  apply K_refl. by destruct Hf.
Qed.

Section NoHexLiteralToEnd.

Hypothesis no_hex : noHexLiteralToEnd input = true.

Lemma no_hex_at p : hexLiteralAt input p = false.
Proof using no_hex.
  destruct (decide (p < length input)) as [Hlt|Hge].
  - unfold noHexLiteralToEnd in no_hex. rewrite forallb_forall in no_hex.
    apply negb_true_iff, no_hex, in_seq. lia.
  - unfold hexLiteralAt. rewrite lookup_ge_None_2 by lia. done.
Qed.

Lemma parseZeroPrefixed_runs fuel v t :
  fits input fuel t → is_char (input !! pos t) (chr "0") = true →
  parseZeroPrefixed input fuel v t ≠ Hang.
Proof using no_hex.
  intros Hf H0. unfold parseZeroPrefixed, parsePrefixed.
  destruct (is_char _ (chr "X") || is_char _ (chr "x")) eqn:Hx.
  { apply bind_runs; [|by intros [? ?] _].
    pose proof (no_hex_at (pos t)) as Hn. unfold hexLiteralAt in Hn.
    rewrite H0, Hx in Hn. cbn [andb] in Hn.
    assert (pos t + 2 ≤ length input) as Hlen.
    { assert (is_Some (input !! (pos t + 1))) as Hs.
      { apply orb_true_iff in Hx as [Hx|Hx];
          apply bool_decide_eq_true_1 in Hx; by rewrite Hx. }
      apply lookup_lt_is_Some_1 in Hs. lia. }
    destruct Hf as [[Hwf ?] ?].
    apply digits_loop_hex_runs.
    - by rewrite (advance_pos input 2 t Hwf Hlen).
    - by apply fits_advance. }
  destruct (is_char _ (chr "C") || is_char _ (chr "c")).
  { apply bind_runs; [|by intros [? ?] _].
    by apply digits_loop_runs, fits_advance. }
  destruct (is_char _ (chr "B") || is_char _ (chr "b")).
  { apply bind_runs; [|by intros [? ?] _].
    by apply digits_loop_runs, fits_advance. }
  apply bind_runs; [|by intros [? ?] _]. by apply digits_loop_runs.
Qed.

Lemma parseDecimal_runs fuel v t :
  fits input fuel t → parseDecimal input fuel v t ≠ Hang.
Proof.
  intros Hf. unfold parseDecimal. apply bind_runs.
  { by apply digits_loop_runs. }
  intros [v1 t1] E1. apply (digits_loop_later _ _ _ _ _ Hf) in E1.
  cbn [snd] in E1. apply bind_runs.
  { destruct (is_char _ _); [|done]. apply bind_runs; [|by intros [? ?] _].
    by apply digits_loop_runs, fits_advance. }
  intros [[v2 d] t2] E2.
  assert (fits input fuel t2) as Hf2.
  { destruct (is_char _ _); [|by injection E2 as <- <- <-].
    apply bind_Ok_inv in E2 as ([w t'] & E2 & E). injection E as <- <- <-.
    apply (digits_loop_later _ _ _ _ (w, t')) in E2; [done|].
    by apply fits_advance. }
  apply bind_runs; [|by intros [[? ?] ?] _].
  destruct (_ || _); [|done].
  destruct (_ || _); (apply bind_runs; [|by intros [? ?] _]);
    by apply digits_loop_runs; repeat apply fits_advance.
Qed.

Lemma parseNumber_runs fuel t :
  fits input fuel t → parseNumber parseFloat input fuel t ≠ Hang.
Proof using no_hex.
  intros Hf. unfold parseNumber. destruct (_ && _); [done|].
  destruct (if is_char _ _ then _ else _) as [v1 t1] eqn:E1.
  assert (fits input fuel t1) as Hf1.
  { revert E1. destruct (is_char _ _); intros [= <- <-];
      [by apply fits_advance|done]. }
  destruct (if is_char (input !! pos t1) _ then _ else _) as [v2 t2] eqn:E2.
  assert (fits input fuel t2) as Hf2.
  { clear E1. revert E2.
    destruct (is_char (input !! pos t1) Symbols.PLUS); intros [= <- <-];
      [by apply fits_advance|done]. }
  apply bind_runs; [|by intros [[[[? ?] ?] ?] ?] _].
  destruct (is_char (input !! pos t2) (chr "0")) eqn:H0.
  - by apply parseZeroPrefixed_runs.
  - by apply parseDecimal_runs.
Qed.

Lemma parseSingleLineComment_strict fuel t t' :
  tracked input t → pos t < length input →
  is_char (input !! pos t) Symbols.HASH = true →
  parseSingleLineComment input fuel t = Ok t' →
  tracked input t' ∧ pos t < pos t'.
Proof.
  intros Ht Hlt Hh. destruct (tracked_wf _ _ Ht) as [Hwf _].
  destruct fuel as [|fuel]; [done|]. cbn [parseSingleLineComment].
  rewrite (wf_reachedEnd_false _ _ Hwf Hlt).
  apply bool_decide_eq_true_1 in Hh. rewrite Hh.
  change (is_char (Some Symbols.HASH) 10%N) with false. cbn [negb andb].
  intros E.
  apply (parseSingleLineComment_K input (tracked input) (tracked_wf input)
           (tracked_step input) _ (advance input 1 t)) in E.
  - destruct E as [? Hle]. split; [done|].
    pose proof (advance_strict input 1 t Hwf Hlt Nat.lt_0_1). lia.
  - by apply K_refl, tracked_advance.
Qed.

Lemma tokenize_loop_runs fuel tokens t :
  tracked input t → length input - pos t + 2 ≤ fuel →
  tokenize_loop normalizeNFC parseFloat bufferFromBase64 input fuel tokens t
  ≠ Hang.
Proof using no_hex.
  revert tokens t. induction fuel as [|fuel IH]; intros tokens t Ht Hfuel;
    [lia|].
  cbn [tokenize_loop]. case_bool_decide as Hlt; [|done].
  destruct (tracked_wf _ _ Ht) as [Hwf Hlen].
  pose proof (advance_strict input 1 t Hwf Hlt Nat.lt_0_1) as Hadv1.
  assert (fits input fuel t) as Hf by (split; [done|lia]).
  assert (∀ tokens t', tracked input t' → pos t < pos t' →
            tokenize_loop normalizeNFC parseFloat bufferFromBase64 input
              fuel tokens t' ≠ Hang) as Hnext.
  { intros tokens' t' Ht' Hlt'. apply IH; [done|]. lia. }
  destruct (is_.isWhitespace (input !! pos t)) eqn:Hw.
  { apply Hnext; [by apply tracked_advance|done]. }
  destruct (is_char (input !! pos t) Symbols.HASH) eqn:Hh.
  { apply bind_runs; [by apply parseSingleLineComment_runs|].
    intros t1 E. apply parseSingleLineComment_strict in E as [? ?];
      [|done..].
    by apply Hnext. }
  destruct (is_.isQuote (input !! pos t)) eqn:Hq.
  { apply bind_runs; [by apply parseRegularString_runs|].
    intros [tok t1] E.
    apply (parseRegularString_K normalizeNFC input (tracked input)
             (tracked_wf input) (tracked_step input)) in E
      as (Ht1 & Hlt1 & _); [|done..].
    by apply Hnext. }
  destruct (is_char (input !! pos t) Symbols.R && _).
  { apply bind_runs; [by apply parseRawString_runs|].
    intros [tok t1] E.
    apply (parseRawString_K input (tracked input)
             (tracked_wf input) (tracked_step input)) in E
      as (Ht1 & Hlt1 & _); [|done..].
    by apply Hnext. }
  destruct (is_char (input !! pos t) Symbols.B && _).
  { apply bind_runs; [by apply parseByteString_runs|].
    intros [tok t1] E.
    apply (parseByteString_K bufferFromBase64 input (tracked input)
             (tracked_wf input) (tracked_step input)) in E
      as (Ht1 & Hlt1 & _); [|done..].
    by apply Hnext. }
  destruct (lookup_lt_is_Some_char input _ Hlt) as [c Hc].
  destruct (is_.isSpecialSymbol (input !! pos t)) eqn:Hs.
  { apply Hnext; [by apply tracked_advance|done]. }
  assert (is_.isValidOpenStringChar (input !! pos t) = true) as Hv.
  { unfold is_.isValidOpenStringChar. rewrite Hs, Hq, Hh.
    by rewrite Hc. }
  destruct (_ || _) eqn:Hnum.
  - destruct (is_char (input !! pos t) Symbols.MINUS && _) eqn:Hsep.
    { apply Hnext; [by apply tracked_advance|].
      apply advance_strict; [done..|lia]. }
    apply bind_runs; [by apply parseNumber_runs|].
    intros [[tok|] t1] E.
    + apply parseNumber_source in E as (Ht1 & Hlt1 & _); [|done..].
      by apply Hnext.
    + apply parseNumber_result in E as [_ ->]; [|done].
      apply bind_runs; [by apply parseLiteralOrOpenString_runs|].
      intros [tok t2] E.
      apply parseLiteralOrOpenString_source in E as (Ht1 & Hlt1 & _);
        [|done..].
      by apply Hnext.
  - apply bind_runs; [by apply parseLiteralOrOpenString_runs|].
    intros [tok t2] E.
    apply parseLiteralOrOpenString_source in E as (Ht1 & Hlt1 & _);
      [by apply Hnext|done..|].
    apply orb_false_iff in Hnum as [Hnum _].
    apply orb_false_iff in Hnum as [_ ->]. done.
Qed.

End NoHexLiteralToEnd.

(** Property X6.  [tokenize] comes to an end, with the tokens or with an error, on
    every input in which no hexadecimal literal runs to the end of the
    input; the loops need no more iterations than the input has
    characters, and two more. *)
Theorem tokenize_ends :
  noHexLiteralToEnd input = true →
  tokenize normalizeNFC parseFloat bufferFromBase64 input (length input + 2)
  ≠ Hang.
Proof.
  intros Hno. unfold tokenize. destruct (decide (input = [])) as [E|Hne].
  { rewrite E. done. }
  apply tokenize_loop_runs; [done| |cbn; lia].
  split; [by apply wf_initial_nonempty|]. split; [cbn; lia|done].
Qed.

End Tokens.

Lemma advance_stops_at_end_witness :
  pos (advance (lit "ab") 5 initial) = Nat.min (0 + 5) 2
  ∧ wf (lit "ab") (advance (lit "ab") 5 initial)
  ∧ (reachedEnd (advance (lit "ab") 5 initial) = true
     ↔ pos (advance (lit "ab") 5 initial) = 2).
Proof.
  apply (advance_stops_at_end (lit "ab") 5 initial); [reflexivity|].
  cbn. lia.
Defined.

Lemma tokens_in_source_order_witness :
  tokenize (λ s, s) (λ _, NaN) (λ s, s) exampleSource 30 = Ok exampleTokens
  ∧ inSourceOrder exampleTokens
  ∧ Forall (λ tok, position tok < length exampleSource) exampleTokens.
Proof.
  split; [reflexivity|].
  exact (tokens_in_source_order (λ s, s) (λ _, NaN) (λ s, s) exampleSource
           30 exampleTokens eq_refl).
Defined.

Lemma token_row_and_column_witness :
  tokenize (λ s, s) (λ _, NaN) (λ s, s) exampleSource 30 = Ok exampleTokens
  ∧ Forall (λ tok,
              (trow tok, tcol tok)
              = lineCol (take (position tok) exampleSource))
      exampleTokens.
Proof.
  split; [reflexivity|].
  exact (token_row_and_column (λ s, s) (λ _, NaN) (λ s, s) exampleSource
           30 exampleTokens eq_refl).
Defined.

Lemma token_text_is_source_text_witness :
  tokenize (λ s, s) (λ _, NaN) (λ s, s) exampleSource 30 = Ok exampleTokens
  ∧ Forall (λ tok,
              subType tok ≠ Some SubType.REGULAR_STRING →
              substring exampleSource (position tok)
                (position tok + length (text tok)) = text tok)
      exampleTokens.
Proof.
  split; [reflexivity|].
  exact (token_text_is_source_text (λ s, s) (λ _, NaN) (λ s, s)
           exampleSource 30 exampleTokens eq_refl).
Defined.

Lemma hex_literal_at_end_gives_no_tokens_witness :
  hexLiteralAt (lit "0x1F") 0 = true
  ∧ advance (lit "0x1F") 1 (mkTokenizer 4 1 5 true) = mkTokenizer 4 1 5 true
  ∧ ∀ tokens,
      tokenize (λ s, s) (λ _, NaN) (λ s, s) (lit "0x1F") 1000 ≠ Ok tokens.
Proof.
  split; [reflexivity|]. split.
  - apply (hex_literal_at_end_gives_no_tokens (λ s, s) (λ _, NaN) (λ s, s)
             (lit "0x1F") 0 [] eq_refl); [reflexivity|cbn; lia].
  - intros tokens.
    apply (hex_literal_at_end_gives_no_tokens (λ s, s) (λ _, NaN) (λ s, s)
             (lit "0x1F") 1000 tokens eq_refl).
Defined.

Lemma raw_string_is_verbatim_witness :
  (∃ t',
     parseRawString exampleSource 10 (mkTokenizer 4 2 1 false)
     = Ok (mkToken 4 2 1 (lit "r'b" ++ [Symbols.BACKSLASH] ++ lit "'")
             (VStr (lit "b" ++ [Symbols.BACKSLASH])) TokenType.STRING
             (Some SubType.RAW_STRING), t')
     ∧ drop (pos t') exampleSource = lit " 0x1F, 'c' # z")
  ∧ parseRawString (lit "r'abc") 10 initial = Throw (RawNotClosed 1 1).
Proof.
  split.
  - apply (raw_string_is_verbatim exampleSource 10 (mkTokenizer 4 2 1 false)
             (chr "r") (chr "'") (lit "b" ++ [Symbols.BACKSLASH])
             (lit " 0x1F, 'c' # z"));
      [reflexivity|by right| |cbn; lia|reflexivity].
    apply (bool_decide_unpack _). vm_compute. exact I.
  - apply (raw_string_is_verbatim (lit "r'abc") 10 initial
             (chr "r") (chr "'") (lit "abc") []);
      [reflexivity|by right| |cbn; lia|reflexivity].
    apply (bool_decide_unpack _). vm_compute. exact I.
Defined.

Lemma byte_string_is_decoded_body_witness :
  (∃ t',
     parseByteString (λ s, s) (lit "b'QQ==',") 10 initial
     = Ok (mkToken 0 1 1 (lit "b'QQ=='") (VBuffer (lit "QQ=="))
             TokenType.BINARY (Some SubType.BINARY), t')
     ∧ drop (pos t') (lit "b'QQ==',") = lit ",")
  ∧ parseByteString (λ s, s) (lit "b'QQ") 10 initial
    = Throw (ByteNotClosed 1 1).
Proof.
  split.
  - apply (byte_string_is_decoded_body (λ s, s) (lit "b'QQ==',") 10 initial
             (chr "b") (chr "'") (lit "QQ==") (lit ","));
      [reflexivity|by right| |cbn; lia|reflexivity].
    apply (bool_decide_unpack _). vm_compute. exact I.
  - apply (byte_string_is_decoded_body (λ s, s) (lit "b'QQ") 10 initial
             (chr "b") (chr "'") (lit "QQ") []);
      [reflexivity|by right| |cbn; lia|reflexivity].
    apply (bool_decide_unpack _). vm_compute. exact I.
Defined.

Lemma blank_input_has_no_tokens_witness :
  tokenize (λ s, s) (λ _, NaN) (λ s, s) [32; 10; 9]%N 4 = Ok [].
Proof.
  exact (blank_input_has_no_tokens (λ s, s) (λ _, NaN) (λ s, s)
           [32; 10; 9]%N eq_refl).
Defined.

Lemma tokenize_ends_witness :
  noHexLiteralToEnd exampleSource = true
  ∧ tokenize (λ s, s) (λ _, NaN) (λ s, s) exampleSource
      (length exampleSource + 2) ≠ Hang.
Proof.
  split; [reflexivity|].
  exact (tokenize_ends (λ s, s) (λ _, NaN) (λ s, s) exampleSource eq_refl).
Defined.

End TokenizerTheorems.
(** ** More on the AST parser *)

Module ASTMoreProofs.
Import AST ASTSpec ASTProofs ASTMore.

Local Open Scope string_scope.
Local Open Scope list_scope.

Lemma setLast_snoc (v x : ParserTreeValue) vs :
  setLast v (vs ++ [x]) = vs ++ [v].
Proof.
  unfold setLast. rewrite length_app. cbn [length].
  replace (length vs + 1 - 1) with (length vs + 0) by lia.
  by rewrite insert_app_r.
Qed.

Lemma valuesAt_setValuesAt a vs p :
  a < length (store p) → valuesAt (setValuesAt a vs p) a = vs.
Proof.
  intros H. unfold valuesAt, setValuesAt. cbn [store setStore].
  by rewrite list_lookup_total_insert_eq.
Qed.

Lemma setValuesAt_twice a vs1 vs2 p :
  setValuesAt a vs2 (setValuesAt a vs1 p) = setValuesAt a vs2 p.
Proof.
  unfold setValuesAt, setStore. cbn [store stack lastToken]. f_equal.
  destruct (decide (a < length (store p))) as [Hlt|Hge].
  - by rewrite list_lookup_total_insert_eq, list_insert_insert_eq.
  - by rewrite !(list_insert_ge (store p)) by lia.
Qed.

Lemma setValuesAt_setLastToken a vs t p :
  setValuesAt a vs (setLastToken t p) = setLastToken t (setValuesAt a vs p).
Proof. done. Qed.

Lemma invariant_initial : invariant initial.
Proof. split; [constructor|done]. Qed.

Lemma invariant_top p :
  invariant p → stack p ≠ [] → top p < length (store p).
Proof.
  intros [Hs _] Hne. unfold top.
  destruct (last (stack p)) as [a|] eqn:E; [|by apply last_None in E].
  rewrite Forall_forall in Hs. by apply Hs, last_Some_elem_of.
Qed.

Lemma invariant_getObject p :
  invariant p → invariant (getObject p).2.
Proof.
  intros [Hs Hr]. unfold getObject. case_bool_decide as He; [|done].
  destruct (stack p); [|done]. cbn [snd]. split; cbn [setStack setStore store stack app].
  - apply Forall_singleton. rewrite length_app. cbn. lia.
  - intros r [= <-]. by rewrite lookup_total_app_r, Nat.sub_diag.
Qed.

Lemma getObject_settled p :
  stack p ≠ [] → getObject p = (top p, p).
Proof. apply getObject_nonempty. Qed.

Lemma getObject_empty p :
  stack p = [] →
  getObject p
  = (length (store p),
     setStack [length (store p)]
       (setStore (store p ++ [mkTree "object" []]) p)).
Proof.
  intros H. unfold getObject. rewrite H.
  rewrite bool_decide_eq_true_2 by done. done.
Qed.

Lemma getObject_twice p :
  getObject (getObject p).2 = getObject p.
Proof.
  destruct (getObject_stack p) as (Hne & _ & Hl).
  rewrite (getObject_settled _ Hne). unfold top. rewrite Hl.
  by destruct (getObject p).
Qed.

Lemma process_getObject nts t p :
  process nts t (getObject p).2 = process nts t p.
Proof. unfold process. by rewrite getObject_twice. Qed.

Lemma invariant_setValuesAt a vs p :
  invariant p → invariant (setValuesAt a vs p).
Proof.
  intros [Hs Hr]. split; cbn.
  - by rewrite length_insert.
  - intros r Hh. destruct (decide (a = r)) as [->|Hne].
    + destruct (decide (r < length (store p))).
      * rewrite list_lookup_total_insert_eq by done. cbn. by apply Hr.
      * rewrite list_insert_ge by lia. by apply Hr.
    + rewrite list_lookup_total_insert_ne by done. by apply Hr.
Qed.

Lemma invariant_addValue v p :
  invariant p → invariant (addValue v p).
Proof.
  intros Hi. unfold addValue.
  pose proof (invariant_getObject p Hi) as Hi1.
  destruct (getObject p) as [obj p1]. cbn [snd] in Hi1.
  destruct (lastTokenIs p1 ":"); [|by apply invariant_setValuesAt].
  destruct (last (valuesAt _ _)) as [[]|]; try done. by apply invariant_setValuesAt.
Qed.

Lemma addValue_store_length v p :
  stack p ≠ [] → length (store (addValue v p)) = length (store p).
Proof.
  intros H. unfold addValue. rewrite (getObject_nonempty p H).
  destruct (lastTokenIs p ":").
  - destruct (last (valuesAt _ _)) as [[]|]; try done. cbn. by rewrite length_insert.
  - cbn. by rewrite length_insert.
Qed.

Lemma addValue_ttype v p r :
  stack p ≠ [] →
  ttype (store (addValue v p) !!! r) = ttype (store p !!! r).
Proof.
  intros H. unfold addValue. rewrite (getObject_nonempty p H).
  assert (∀ vs, ttype (store (setValuesAt (default 0 (last (stack p))) vs p)
                         !!! r) = ttype (store p !!! r)) as Hset.
  { intros vs. cbn. set (a := default 0 (last (stack p))).
    destruct (decide (a = r)) as [->|Hne].
    - destruct (decide (r < length (store p))).
      + by rewrite list_lookup_total_insert_eq.
      + by rewrite list_insert_ge by lia.
    - by rewrite list_lookup_total_insert_ne. }
  destruct (lastTokenIs p ":"); [|apply Hset].
  destruct (last (valuesAt _ _)) as [[]|]; first [done|apply Hset].
Qed.

Lemma invariant_push ty p :
  invariant p → stack p ≠ [] → invariant (push ty p).
Proof.
  intros [Hs Hr] Hne. unfold push. rewrite (getObject_nonempty p Hne).
  set (p1 := setStore (store p ++ [mkTree ty []]) p).
  assert (stack p1 ≠ []) as Hne1 by done.
  split; cbn [setStack stack store].
  - rewrite addValue_stack by done. rewrite addValue_store_length by done.
    cbn. rewrite length_app. cbn. apply Forall_app. split.
    + eapply Forall_impl; [exact Hs|]. intros a ?. cbn in *. lia.
    + apply Forall_singleton. lia.
  - rewrite addValue_stack by done. cbn [p1 setStore stack].
    intros r Hh. rewrite addValue_ttype by done. cbn.
    destruct (stack p) as [|a s] eqn:E; [done|]. injection Hh as <-.
    apply Forall_cons in Hs as [Ha _].
    rewrite lookup_total_app_l by done. apply Hr. done.
Qed.

Lemma invariant_removelast p :
  invariant p → invariant (setStack (removelast (stack p)) p).
Proof.
  intros [Hs Hr]. split; cbn.
  - destruct (stack p) as [|a s] using rev_ind; [done|].
    rewrite removelast_last. by apply Forall_app in Hs as [? _].
  - intros r Hh. apply Hr.
    destruct (stack p) as [|a s] using rev_ind; [done|].
    rewrite removelast_last in Hh. rewrite head_app. by rewrite Hh.
Qed.

Lemma invariant_processColon nts obj p :
  invariant p → invariant (processColon nts obj p).
Proof.
  intros Hi. unfold processColon. destruct (last _); [|done].
  destruct (_ && _); [|done]. by apply invariant_setValuesAt.
Qed.

Lemma invariant_setLastToken t p :
  invariant p → invariant (setLastToken t p).
Proof. done. Qed.

Lemma invariant_process nts t p p' :
  invariant p → process nts t p = Done p' → invariant p'.
Proof.
  intros Hi. unfold process.
  pose proof (invariant_getObject p Hi) as Hi1.
  destruct (getObject_stack p) as (Hne & _).
  destruct (getObject p) as [obj p1]. cbn [snd] in Hi1, Hne.
  destruct (is_str (value t) "{").
  { intros <-%Done_inj. by apply invariant_setLastToken, invariant_push. }
  destruct (is_str (value t) "[").
  { intros <-%Done_inj. by apply invariant_setLastToken, invariant_push. }
  destruct (negb _).
  { intros <-%Done_inj. by apply invariant_setLastToken, invariant_addValue. }
  destruct (is_str (value t) ":").
  { intros <-%Done_inj.
    by apply invariant_setLastToken, invariant_processColon. }
  destruct (is_str (value t) ",").
  { intros <-%Done_inj. apply invariant_setLastToken.
    destruct (lastTokenIs p1 ","); [by apply invariant_addValue|done]. }
  destruct (_ || _); [|by intros <-%Done_inj].
  unfold pop. rewrite (getObject_nonempty p1 Hne).
  destruct (negb _); [done|]. intros <-%Done_inj.
  by apply invariant_setLastToken, invariant_removelast.
Qed.

Lemma invariant_processAll nts ts p p' :
  invariant p → processAll nts ts p = Done p' → invariant p'.
Proof.
  revert p. induction ts as [|t ts IH]; intros p Hi; cbn [processAll].
  - by intros [= <-].
  - destruct (process nts t p) as [p1|] eqn:E; [|done].
    apply IH. by eapply invariant_process.
Qed.

(** *** One token at a time, on a parser whose stack is not empty *)

Section Steps.

Variable numberToString : number → string.
Local Abbreviation process := (process numberToString).
Local Abbreviation processAll := (processAll numberToString).

Lemma addValue_append v p :
  stack p ≠ [] → lastTokenIs p ":" = false →
  addValue v p = setValuesAt (top p) (valuesAt p (top p) ++ [v]) p.
Proof.
  intros Hne Hl. unfold addValue. rewrite (getObject_settled p Hne).
  by rewrite Hl.
Qed.

Lemma addValue_bind v p vs key x :
  stack p ≠ [] → lastTokenIs p ":" = true →
  valuesAt p (top p) = vs ++ [VKeyVal key x] →
  addValue v p = setValuesAt (top p) (vs ++ [VKeyVal key (Some v)]) p.
Proof.
  intros Hne Hl Hv. unfold addValue. rewrite (getObject_settled p Hne).
  by rewrite Hl, Hv, last_snoc, setLast_snoc.
Qed.

Lemma addValue_drop v p :
  stack p ≠ [] → lastTokenIs p ":" = true →
  (∀ x, last (valuesAt p (top p)) = Some x → isKeyVal x = false) →
  addValue v p = p.
Proof.
  intros Hne Hl Hv. unfold addValue. rewrite (getObject_settled p Hne).
  rewrite Hl. destruct (last (valuesAt p (top p))) as [x|]; [|done].
  specialize (Hv x eq_refl). by destruct x.
Qed.

Lemma isValue_dispatch t :
  isValue t = true →
  is_str (value t) "{" = false ∧ is_str (value t) "[" = false
  ∧ bool_decide (type t = "sep") = false.
Proof.
  unfold isValue, isOpen. intros [Ho Hs]%andb_true_iff.
  apply negb_true_iff in Ho, Hs. by apply orb_false_iff in Ho as [? ?].
Qed.

Lemma process_value t p :
  isValue t = true → stack p ≠ [] →
  process t p = Done (setLastToken (Some t) (addValue (VPrim (value t)) p)).
Proof.
  intros (H1 & H2 & H3)%isValue_dispatch Hne. unfold AST.process.
  rewrite (getObject_settled p Hne). by rewrite H1, H2, H3.
Qed.

Lemma isComma_dispatch t :
  isComma t = true →
  is_str (value t) "{" = false ∧ is_str (value t) "[" = false
  ∧ bool_decide (type t = "sep") = true
  ∧ is_str (value t) ":" = false ∧ is_str (value t) "," = true.
Proof.
  unfold isComma, is_str. intros [Hs Hv]%andb_true_iff.
  destruct (value t) as [s| | |]; [|done..].
  apply bool_decide_eq_true_1 in Hv as ->. done.
Qed.

Lemma process_comma t p :
  isComma t = true → stack p ≠ [] →
  process t p
  = Done (setLastToken (Some t)
            (if lastTokenIs p "," then addValue (VPrim (PStr "")) p else p)).
Proof.
  intros (H1 & H2 & H3 & H4 & H5)%isComma_dispatch Hne. unfold AST.process.
  rewrite (getObject_settled p Hne). by rewrite H1, H2, H3, H4, H5.
Qed.

Lemma process_colon t p :
  isColon t = true → stack p ≠ [] →
  process t p
  = Done (setLastToken (Some t) (processColon numberToString (top p) p)).
Proof.
  intros Hc Hne.
  destruct (process_colon_never_throws numberToString t p Hc)
    as (_ & _ & ->).
  by rewrite (getObject_settled p Hne).
Qed.

Lemma isColon_lastToken t p :
  isColon t = true → lastTokenIs (setLastToken (Some t) p) ":" = true.
Proof. unfold isColon. by intros [_ ?]%andb_true_iff. Qed.

Lemma isComma_lastToken t p :
  isComma t = true → lastTokenIs (setLastToken (Some t) p) "," = true.
Proof. unfold isComma. by intros [_ ?]%andb_true_iff. Qed.

Lemma isComma_not_colon t p :
  isComma t = true → lastTokenIs (setLastToken (Some t) p) ":" = false.
Proof.
  intros (_ & _ & _ & ? & _)%isComma_dispatch. done.
Qed.

(** The parser with its root created. *)
Lemma settle p :
  invariant p →
  let q := (getObject p).2 in
  stack q ≠ [] ∧ invariant q ∧ lastToken q = lastToken p
  ∧ current p = valuesAt q (top q)
  ∧ top q < length (store q)
  ∧ ∀ t ts, processAll (t :: ts) p = processAll (t :: ts) q.
Proof.
  intros Hi q. destruct (getObject_stack p) as (Hne & _ & Hl).
  pose proof (invariant_getObject p Hi) as Hq. fold q in Hne, Hl, Hq.
  split; [done|]. split; [done|].
  split; [unfold q, getObject; by case_bool_decide|].
  split; [unfold current, top; fold q; by rewrite Hl|].
  split; [by apply invariant_top|].
  intros t ts. cbn [AST.processAll]. unfold q.
  by rewrite process_getObject.
Qed.

Lemma current_settled p :
  stack p ≠ [] → current p = valuesAt p (top p).
Proof. intros Hne. unfold current. by rewrite (getObject_settled p Hne). Qed.

Lemma top_eq p q : stack q = stack p → top q = top p.
Proof. unfold top. by intros ->. Qed.

(** A value token when the last token is not a [:]: appended. *)
Lemma step_value_append t q :
  stack q ≠ [] → invariant q → isValue t = true →
  lastTokenIs q ":" = false →
  ∃ q', process t q = Done q' ∧ stack q' = stack q ∧ invariant q'
        ∧ lastToken q' = Some t
        ∧ valuesAt q' (top q) = valuesAt q (top q) ++ [VPrim (value t)].
Proof.
  intros Hne Hi Ht Hl. eexists. split; [by apply process_value|].
  rewrite addValue_append by done. split; [done|].
  split; [by apply invariant_setLastToken, invariant_setValuesAt|].
  split; [done|].
  change (valuesAt (setLastToken ?a ?b) ?c) with (valuesAt b c).
  by rewrite valuesAt_setValuesAt by by apply invariant_top.
Qed.

(** A value token after a [:] when the last child is a key-value pair:
    it becomes the value of the pair. *)
Lemma step_value_bind t q vs key x :
  stack q ≠ [] → invariant q → isValue t = true →
  lastTokenIs q ":" = true →
  valuesAt q (top q) = vs ++ [VKeyVal key x] →
  ∃ q', process t q = Done q' ∧ stack q' = stack q ∧ invariant q'
        ∧ lastToken q' = Some t
        ∧ valuesAt q' (top q)
          = vs ++ [VKeyVal key (Some (VPrim (value t)))].
Proof.
  intros Hne Hi Ht Hl Hv. eexists. split; [by apply process_value|].
  rewrite (addValue_bind _ _ vs key x) by done. split; [done|].
  split; [by apply invariant_setLastToken, invariant_setValuesAt|].
  split; [done|].
  change (valuesAt (setLastToken ?a ?b) ?c) with (valuesAt b c).
  by rewrite valuesAt_setValuesAt by by apply invariant_top.
Qed.

(** A value token after a [:] when the last child is no key-value pair:
    dropped. *)
Lemma step_value_drop t q :
  stack q ≠ [] → invariant q → isValue t = true →
  lastTokenIs q ":" = true →
  (∀ x, last (valuesAt q (top q)) = Some x → isKeyVal x = false) →
  process t q = Done (setLastToken (Some t) q).
Proof.
  intros Hne Hi Ht Hl Hv. rewrite process_value by done.
  by rewrite addValue_drop.
Qed.

(** A [:] after a value that can be a key. *)
Lemma step_colon_key c q vs k :
  stack q ≠ [] → invariant q → isColon c = true →
  valuesAt q (top q) = vs ++ [VPrim k] → isKey k = true →
  ∃ q', process c q = Done q' ∧ stack q' = stack q ∧ invariant q'
        ∧ lastTokenIs q' ":" = true
        ∧ valuesAt q' (top q)
          = vs ++ [VKeyVal (toString numberToString (VPrim k)) None].
Proof.
  intros Hne Hi Hc Hv Hk. eexists. split; [by apply process_colon|].
  unfold processColon. rewrite Hv, last_snoc. unfold isKey in Hk.
  rewrite Hk, setLast_snoc. split; [done|].
  split; [by apply invariant_setLastToken, invariant_setValuesAt|].
  split; [by apply isColon_lastToken|].
  change (valuesAt (setLastToken ?a ?b) ?c) with (valuesAt b c).
  by rewrite valuesAt_setValuesAt by by apply invariant_top.
Qed.

(** A [:] after anything else. *)
Lemma step_colon_silent c q :
  stack q ≠ [] → isColon c = true →
  (∀ x, last (valuesAt q (top q)) = Some x →
        truthy x && isPrimitiveType x = false) →
  process c q = Done (setLastToken (Some c) q).
Proof.
  intros Hne Hc Hv. rewrite process_colon by done. unfold processColon.
  destruct (last (valuesAt q (top q))) as [x|]; [|done].
  by rewrite (Hv x eq_refl).
Qed.

Lemma process_store_length t q q' :
  stack q ≠ [] → process t q = Done q' →
  isOpen t = false → length (store q') = length (store q).
Proof.
  intros Hne. unfold AST.process. rewrite (getObject_settled q Hne).
  unfold isOpen. intros E Ho. apply orb_false_iff in Ho as [H1 H2].
  rewrite H1, H2 in E.
  destruct (negb (bool_decide (type t = "sep"))).
  { apply Done_inj in E as <-. cbn [store setLastToken].
    by apply addValue_store_length. }
  destruct (is_str (value t) ":").
  { apply Done_inj in E as <-. cbn [store setLastToken].
    unfold processColon. destruct (last (valuesAt _ _)); [|done].
    destruct (_ && _); [|done]. cbn. by rewrite length_insert. }
  destruct (is_str (value t) ",").
  { apply Done_inj in E as <-. cbn [store setLastToken].
    destruct (lastTokenIs q ","); [|done]. by apply addValue_store_length. }
  destruct (_ || _); [|by apply Done_inj in E as <-].
  unfold pop in E. rewrite (getObject_settled q Hne) in E.
  destruct (negb _); [done|]. by apply Done_inj in E as <-.
Qed.

Lemma isValue_not_open t : isValue t = true → isOpen t = false.
Proof.
  unfold isValue. intros [Ho _]%andb_true_iff. by apply negb_true_iff.
Qed.

Lemma isColon_not_open t : isColon t = true → isOpen t = false.
Proof.
  intros Hc.
  destruct (process_colon_never_throws numberToString t initial Hc)
    as (H1 & H2 & _).
  unfold isOpen. by rewrite H1, H2.
Qed.

(** An opening token after a [:] when the last child is a key-value
    pair. *)
Lemma process_open o q vs key x :
  stack q ≠ [] → invariant q → isOpen o = true →
  lastTokenIs q ":" = true →
  valuesAt q (top q) = vs ++ [VKeyVal key x] →
  ∃ q', process o q = Done q'
        ∧ stack q' = stack q ++ [length (store q)]
        ∧ valuesAt q' (top q)
          = vs ++ [VKeyVal key (Some (VTree (length (store q))))]
        ∧ store q' !!! length (store q) = mkTree (openingType o) [].
Proof.
  intros Hne Hi Ho Hl Hv.
  pose proof (invariant_top q Hi Hne) as Hlt.
  assert (process o q = Done (setLastToken (Some o) (push (openingType o) q)))
    as ->.
  { unfold AST.process, openingType. rewrite (getObject_settled q Hne).
    unfold isOpen in Ho. destruct (is_str (value o) "{"); [done|].
    cbn [orb] in Ho. by rewrite Ho. }
  eexists. split; [done|]. unfold push. rewrite (getObject_settled q Hne).
  set (ty := openingType o).
  set (q1 := setStore (store q ++ [mkTree ty []]) q).
  assert (valuesAt q1 (top q1) = vs ++ [VKeyVal key x]) as Hv1.
  { unfold q1, valuesAt. cbn [store setStore]. change (top _) with (top q).
    by rewrite lookup_total_app_l. }
  rewrite (addValue_bind _ q1 vs key x) by done.
  change (top q1) with (top q).
  assert (top q < length (store q1)) as Hlt1.
  { unfold q1. cbn [store setStore]. rewrite length_app. lia. }
  split; [done|]. split.
  - change (valuesAt (setLastToken ?a (setStack ?b ?c)) ?d)
      with (valuesAt c d).
    by apply valuesAt_setValuesAt.
  - change (store (setLastToken ?a (setStack ?b (setValuesAt ?c ?d ?e))))
      with (<[c := mkTree (ttype (store e !!! c)) d]> (store e)).
    rewrite list_lookup_total_insert_ne by lia.
    unfold q1. cbn [store setStore].
    by rewrite lookup_total_app_r, Nat.sub_diag.
Qed.

End Steps.

End ASTMoreProofs.
(** ** Properties of the AST parser *)

Module ASTTheorems.
Import AST ASTSpec ASTProofs ASTMore ASTMoreProofs.

Local Open Scope string_scope.
Local Open Scope list_scope.

Section Parser.

Variable numberToString : number → string.
Local Abbreviation process := (process numberToString).
Local Abbreviation processAll := (processAll numberToString).
Local Abbreviation toString := (toString numberToString).

(** Property X10.  A key, a [:] and a value add one key-value pair to the current
    container.  After any tokens read without error and not ending in a
    [:], a truthy string, number or boolean [k], then [:], then a value
    [v], append the pair of the text of [k] and [v], and leave the stack
    as it was. *)
Theorem key_colon_value_adds_a_pair (ts0 : list Token) (p : ASTParser)
    (k c v : Token) :
  processAll ts0 initial = Done p →
  lastTokenIs p ":" = false →
  isValue k = true → isKey (value k) = true →
  isColon c = true → isValue v = true →
  ∃ p',
    processAll [k; c; v] p = Done p'
    ∧ stack p' = stack (getObject p).2
    ∧ current p'
      = current p
        ++ [VKeyVal (toString (VPrim (value k))) (Some (VPrim (value v)))].
Proof.
  intros Hi%invariant_processAll Hl Hk Hkey Hc Hv;
    [|apply invariant_initial].
  destruct (settle numberToString p Hi) as (Hne & Hq & Hlt & Hcur & _ & Hrun).
  rewrite Hrun, Hcur. set (q := (getObject p).2) in *.
  assert (lastTokenIs q ":" = false) as Hlq.
  { unfold lastTokenIs in *. by rewrite Hlt. }
  destruct (step_value_append numberToString k q Hne Hq Hk Hlq)
    as (q1 & E1 & Hs1 & Hi1 & _ & Hv1).
  assert (stack q1 ≠ []) as Hne1 by (by rewrite Hs1).
  pose proof (top_eq q q1 Hs1) as Ht1. rewrite <- Ht1 in Hv1 at 1.
  destruct (step_colon_key numberToString c q1 _ _ Hne1 Hi1 Hc Hv1 Hkey)
    as (q2 & E2 & Hs2 & Hi2 & Hl2 & Hv2).
  assert (stack q2 ≠ []) as Hne2 by (by rewrite Hs2).
  pose proof (top_eq q1 q2 Hs2) as Ht2. rewrite <- Ht2 in Hv2 at 1.
  destruct (step_value_bind numberToString v q2 _ _ _ Hne2 Hi2 Hv Hl2 Hv2)
    as (q3 & E3 & Hs3 & Hi3 & _ & Hv3).
  exists q3. cbn [AST.processAll]. rewrite E1, E2, E3.
  split; [done|]. split; [congruence|].
  rewrite current_settled by (by rewrite Hs3).
  by rewrite (top_eq q2 q3 Hs3).
Qed.

(** Property X11.  A key that is falsy or null loses its value.  When [k] is null,
    false, zero, NaN or the empty string, the [:] after it changes
    nothing and the value after the [:] is dropped: only [k] itself is
    added, as a plain value. *)
Theorem falsy_key_loses_its_value (ts0 : list Token) (p : ASTParser)
    (k c v : Token) :
  processAll ts0 initial = Done p →
  lastTokenIs p ":" = false →
  isValue k = true → isKey (value k) = false →
  isColon c = true → isValue v = true →
  ∃ p',
    processAll [k; c; v] p = Done p'
    ∧ stack p' = stack (getObject p).2
    ∧ current p' = current p ++ [VPrim (value k)].
Proof.
  intros Hi%invariant_processAll Hl Hk Hkey Hc Hv;
    [|apply invariant_initial].
  destruct (settle numberToString p Hi) as (Hne & Hq & Hlt & Hcur & _ & Hrun).
  rewrite Hrun, Hcur. set (q := (getObject p).2) in *.
  assert (lastTokenIs q ":" = false) as Hlq.
  { unfold lastTokenIs in *. by rewrite Hlt. }
  destruct (step_value_append numberToString k q Hne Hq Hk Hlq)
    as (q1 & E1 & Hs1 & Hi1 & _ & Hv1).
  assert (stack q1 ≠ []) as Hne1 by (by rewrite Hs1).
  pose proof (top_eq q q1 Hs1) as Ht1. rewrite <- Ht1 in Hv1 at 1.
  assert (process c q1 = Done (setLastToken (Some c) q1)) as E2.
  { apply step_colon_silent; [done..|]. rewrite Hv1, last_snoc.
    by intros x [= <-]. }
  assert (process v (setLastToken (Some c) q1)
          = Done (setLastToken (Some v) (setLastToken (Some c) q1))) as E3.
  { apply step_value_drop; [done..|by apply isColon_lastToken|].
    change (valuesAt (setLastToken ?a ?b) ?c) with (valuesAt b c).
    change (top (setLastToken ?a ?b)) with (top b).
    rewrite Hv1, last_snoc. by intros x [= <-]. }
  eexists. cbn [AST.processAll]. rewrite E1, E2, E3.
  split; [done|]. split; [done|].
  rewrite current_settled by done.
  change (valuesAt (setLastToken ?a ?b) ?c) with (valuesAt b c).
  change (top (setLastToken ?a ?b)) with (top b). done.
Qed.

(** Property X12.  A [:] after a complete key-value pair opens the pair again: the
    value that follows replaces the value of the pair, so that in
    [k : v1 : v2] the key [k] ends with [v2]. *)
Theorem colon_after_a_pair_replaces_its_value (ts0 : list Token)
    (p : ASTParser) (vs : list ParserTreeValue) (key : string)
    (x : option ParserTreeValue) (c v : Token) :
  processAll ts0 initial = Done p →
  current p = vs ++ [VKeyVal key x] →
  isColon c = true → isValue v = true →
  ∃ p',
    processAll [c; v] p = Done p'
    ∧ stack p' = stack (getObject p).2
    ∧ current p' = vs ++ [VKeyVal key (Some (VPrim (value v)))].
Proof.
  intros Hi%invariant_processAll Hcur0 Hc Hv; [|apply invariant_initial].
  destruct (settle numberToString p Hi) as (Hne & Hq & Hlt & Hcur & _ & Hrun).
  rewrite Hrun. rewrite Hcur in Hcur0. set (q := (getObject p).2) in *.
  assert (process c q = Done (setLastToken (Some c) q)) as E1.
  { apply step_colon_silent; [done..|]. rewrite Hcur0, last_snoc.
    by intros ? [= <-]. }
  destruct (step_value_bind numberToString v (setLastToken (Some c) q)
              vs key x) as (q2 & E2 & Hs2 & Hi2 & _ & Hv2);
    [done..|by apply isColon_lastToken|done|].
  exists q2. cbn [AST.processAll]. rewrite E1, E2.
  split; [done|]. split; [done|].
  rewrite current_settled by (by rewrite Hs2).
  by rewrite (top_eq _ _ Hs2).
Qed.

Lemma commas_settled (cs : list Token) (q : ASTParser) :
  stack q ≠ [] → invariant q → lastTokenIs q "," = true →
  Forall (λ t, isComma t = true) cs →
  ∃ q', processAll cs q = Done q' ∧ stack q' = stack q
        ∧ lastTokenIs q' "," = true
        ∧ valuesAt q' (top q)
          = valuesAt q (top q) ++ replicate (length cs) (VPrim (PStr "")).
Proof.
  intros Hne Hi Hl Hcs. revert q Hne Hi Hl.
  induction Hcs as [|t cs Ht Hcs IH]; intros q Hne Hi Hl.
  { exists q. cbn. by rewrite app_nil_r. }
  cbn [AST.processAll]. rewrite process_comma by done. rewrite Hl.
  assert (lastTokenIs q ":" = false) as Hnc.
  { unfold lastTokenIs, is_str in *. destruct (lastToken q) as [l|]; [|done].
    destruct (value l); try done. apply bool_decide_eq_true_1 in Hl as ->.
    done. }
  rewrite addValue_append by done.
  set (q1 := setLastToken (Some t) _).
  assert (top q < length (store q)) as Hlt by (by apply invariant_top).
  destruct (IH q1) as (q' & E & Hs & Hl' & Hv).
  - done.
  - by apply invariant_setLastToken, invariant_setValuesAt.
  - by apply isComma_lastToken.
  - exists q'. split; [done|]. split; [done|]. split; [done|].
    change (top q1) with (top q) in Hv. rewrite Hv.
    unfold q1.
    change (valuesAt (setLastToken ?a ?b) ?c) with (valuesAt b c).
    rewrite valuesAt_setValuesAt by done.
    by rewrite <- (assoc_L (++)).
Qed.

(** Property X13.  After a [,], every further [,] stands for an empty string: a run
    of commas that follows a comma appends one empty string for each of
    its commas to the current container. *)
Theorem each_further_comma_adds_an_empty_string (ts0 : list Token)
    (p : ASTParser) (cs : list Token) :
  processAll ts0 initial = Done p →
  lastTokenIs p "," = true →
  Forall (λ t, isComma t = true) cs →
  ∃ p',
    processAll cs p = Done p'
    ∧ current p' = current p ++ replicate (length cs) (VPrim (PStr "")).
Proof.
  intros Hi%invariant_processAll Hl Hcs; [|apply invariant_initial].
  destruct cs as [|t cs].
  { exists p. cbn. by rewrite app_nil_r. }
  destruct (settle numberToString p Hi) as (Hne & Hq & Hlt & Hcur & _ & Hrun).
  rewrite Hrun, Hcur. set (q := (getObject p).2) in *.
  destruct (commas_settled (t :: cs) q) as (q' & E & Hs & _ & Hv);
    [done..| |done|].
  { unfold lastTokenIs in *. by rewrite Hlt. }
  exists q'. split; [done|].
  rewrite current_settled by (by rewrite Hs). by rewrite (top_eq _ _ Hs).
Qed.

(** Property X14.  A [}] at the top level empties the stack, and the next value
    starts a new root: [toObject] then returns that value alone, and what
    was read before can no longer be reached from the stack. *)
Theorem closing_the_root_discards_it (ts0 : list Token) (p : ASTParser)
    (t v : Token) (fuel : nat) :
  processAll ts0 initial = Done p →
  (length (stack p) ≤ 1)%nat →
  isClose t = true → is_str (value t) "}" = true →
  isValue v = true →
  ∃ p',
    processAll [t; v] p = Done p'
    ∧ stack p' = [length (store (getObject p).2)]
    ∧ current p' = [VPrim (value v)]
    ∧ toObject fuel p' = Some (RChild (VPrim (value v))).
Proof.
  intros Hi%invariant_processAll Hdepth Hclose Hbrace Hv;
    [|apply invariant_initial].
  destruct (settle numberToString p Hi) as (Hne & Hq & Hlt & Hcur & _ & Hrun).
  rewrite Hrun. destruct (getObject_stack p) as (_ & Hlen & Hlast).
  set (q := (getObject p).2) in *.
  destruct (stack q) as [|r [|? ?]] eqn:Hst; [done| |cbn in Hlen; lia].
  assert (ttype (store q !!! r) = "object") as Hty.
  { destruct Hq as [_ Hr]. apply Hr. by rewrite Hst. }
  clearbody q. clear Hrun Hlen Hlast.
  pose proof (process_close numberToString t q Hclose) as Hpc.
  cbn zeta in Hpc. rewrite (getObject_settled q) in Hpc by (by rewrite Hst).
  cbn [fst snd] in Hpc. unfold top in Hpc. rewrite Hst in Hpc.
  cbn [last default removelast] in Hpc. change (id r) with r in Hpc.
  unfold closingType in Hpc.
  rewrite Hbrace, Hty in Hpc. rewrite bool_decide_eq_true_2 in Hpc by done.
  set (q1 := setLastToken (Some t) (setStack [] q)) in *.
  set (q2 := setStack [length (store q)]
               (setStore (store q ++ [mkTree "object" []]) q1)).
  assert (getObject q1 = (length (store q), q2)) as Hg
    by (by apply (getObject_empty q1)).
  assert (lastTokenIs q2 ":" = false) as Hnc.
  { unfold lastTokenIs, is_str. cbn.
    unfold is_str in Hbrace. destruct (value t); try done.
    apply bool_decide_eq_true_1 in Hbrace as ->. done. }
  assert (stack q2 ≠ []) as Hne2 by done.
  assert (process v q1
          = Done (setLastToken (Some v)
                    (setValuesAt (length (store q)) [VPrim (value v)] q2)))
    as E2.
  { rewrite <- (process_getObject _ v q1), Hg. cbn [snd].
    rewrite process_value, addValue_append by done. do 3 f_equal.
    unfold valuesAt, top, q2. cbn.
    by rewrite lookup_total_app_r, Nat.sub_diag. }
  assert (valuesAt
            (setLastToken (Some v)
               (setValuesAt (length (store q)) [VPrim (value v)] q2))
            (length (store q)) = [VPrim (value v)]) as Hvals.
  { change (valuesAt (setLastToken ?a ?b) ?c) with (valuesAt b c).
    apply valuesAt_setValuesAt. unfold q2. cbn. rewrite length_app. cbn.
    lia. }
  eexists. cbn [AST.processAll]. rewrite Hpc, E2.
  split; [done|]. split; [done|]. split.
  - by rewrite current_settled.
  - unfold toObject.
    change (stack (setLastToken ?a (setValuesAt ?b ?c ?d))) with (stack d).
    change (stack q2) with [length (store q)]. cbv iota.
    unfold valuesAt in Hvals. by rewrite Hvals.
Qed.

(** Property X15.  A container opened after a key and a [:] becomes the
    value of the key.  The pair of the text of [k] and the new container
    is appended to the current container, and the new container, empty
    and of the type of the bracket, is pushed on the stack. *)
Theorem key_colon_open_binds_the_container (ts0 : list Token)
    (p : ASTParser) (k c o : Token) :
  processAll ts0 initial = Done p →
  lastTokenIs p ":" = false →
  isValue k = true → isKey (value k) = true →
  isColon c = true → isOpen o = true →
  let parent := (getObject p).1 in
  let new := length (store (getObject p).2) in
  ∃ p',
    processAll [k; c; o] p = Done p'
    ∧ stack p' = stack (getObject p).2 ++ [new]
    ∧ valuesAt p' parent
      = current p ++ [VKeyVal (toString (VPrim (value k))) (Some (VTree new))]
    ∧ store p' !!! new = mkTree (openingType o) [].
Proof.
  intros Hi%invariant_processAll Hl Hk Hkey Hc Ho parent new;
    [|apply invariant_initial].
  destruct (settle numberToString p Hi)
    as (Hne & Hq & Hlt & Hcur & Htop & Hrun).
  destruct (getObject_stack p) as (_ & _ & Hlast).
  assert (parent = top (getObject p).2) as Hparent.
  { unfold parent, top. by rewrite Hlast. }
  rewrite Hrun, Hcur, Hparent. unfold new. clear parent new Hparent Hlast.
  set (q := (getObject p).2) in *.
  assert (lastTokenIs q ":" = false) as Hlq.
  { unfold lastTokenIs in *. by rewrite Hlt. }
  clearbody q. clear Hrun Hcur Hlt.
  destruct (step_value_append numberToString k q Hne Hq Hk Hlq)
    as (q1 & E1 & Hs1 & Hi1 & _ & Hv1).
  assert (stack q1 ≠ []) as Hne1 by (by rewrite Hs1).
  pose proof (top_eq q q1 Hs1) as Ht1. rewrite <- Ht1 in Hv1 at 1.
  destruct (step_colon_key numberToString c q1 _ _ Hne1 Hi1 Hc Hv1 Hkey)
    as (q2 & E2 & Hs2 & Hi2 & Hl2 & Hv2).
  assert (stack q2 ≠ []) as Hne2 by (by rewrite Hs2).
  pose proof (top_eq q1 q2 Hs2) as Ht2. rewrite <- Ht2 in Hv2 at 1.
  assert (length (store q2) = length (store q)) as Hlen.
  { apply (process_store_length numberToString) in E1, E2;
      [congruence|done|by apply isColon_not_open|done
      |by apply isValue_not_open]. }
  destruct (process_open numberToString o q2 _ _ _ Hne2 Hi2 Ho Hl2 Hv2)
    as (q3 & E3 & Hs3 & Hv3 & Hn3).
  exists q3. cbn [AST.processAll]. rewrite E1, E2, E3.
  rewrite Hs3, Hs2, Hs1, Hlen in *. rewrite Ht2, Ht1 in *. done.
Qed.

End Parser.

Lemma getProp_assign key k m props :
  getProp key (assign k m props)
  = if bool_decide (k = key) then Some m else getProp key props.
Proof.
  unfold getProp. induction props as [|[k0 x] props IH]; cbn [assign].
  - cbn. by case_bool_decide.
  - destruct (decide (k0 = k)) as [->|Hk0].
    + rewrite (bool_decide_eq_true_2 (k = k)) by done. cbn [List.find fst].
      by case_bool_decide.
    + rewrite (bool_decide_eq_false_2 (k0 = k)) by done.
      cbn [List.find fst]. destruct (decide (k0 = key)) as [->|Hkey].
      * rewrite (bool_decide_eq_true_2 (key = key)) by done.
        by rewrite (bool_decide_eq_false_2 (k = key)) by congruence.
      * by rewrite (bool_decide_eq_false_2 (k0 = key)) by done.
Qed.

Lemma foldl_generate_flat fuel st vs index props :
  forallb isFlat vs = true →
  ∃ props',
    foldl
      (λ (acc : option (nat * list (string * Materialized)))
         (value : ParserTreeValue),
         '(index, props) ← acc;
         match value with
         | VTree a =>
             let child := st !!! a in
             if bool_decide (ttype child = "object") then
               m ← generateObject fuel st child false;
               Some (S index, assign (pretty index) m props)
             else if bool_decide (ttype child = "array") then
               m ← generateObject fuel st child true;
               Some (S index, assign (pretty index) m props)
             else Some (S index, props)
         | VKeyVal key (Some (VTree a)) =>
             let child := st !!! a in
             m ← generateObject fuel st child
                   (negb (bool_decide (ttype child = "object")));
             Some (S index, assign key m props)
         | VKeyVal key v => Some (S index, assign key (MLeaf v) props)
         | VPrim _ =>
             Some (S index, assign (pretty index) (MLeaf (Some value)) props)
         end)
      (Some (index, props)) vs
    = Some (index + length vs, props')
    ∧ ∀ key,
        getProp key props'
        = match lastWritten key index vs with
          | Some m => Some m
          | None => getProp key props
          end.
Proof.
  revert index props. induction vs as [|v vs IH]; intros index props Hflat.
  { exists props. cbn. by rewrite Nat.add_0_r. }
  cbn [forallb] in Hflat. apply andb_true_iff in Hflat as [Hv Hvs].
  destruct (IH (S index) (assign (keyOf index v) (leafOf v) props) Hvs)
    as (props' & E & Hget).
  exists props'. split.
  - cbn [foldl length]. rewrite <- Nat.add_succ_comm, <- E.
    destruct v as [x|key [[x|key' x|a]|]|a]; done.
  - intros key. rewrite Hget. cbn [lastWritten].
    destruct (lastWritten key (S index) vs); [done|].
    rewrite getProp_assign. by case_bool_decide.
Qed.

(** Property X16.  The object made from a root without containers holds,
    under each key, the last child written to that key.  For a root with
    two or more children that are values or pairs with a value, none of
    them a pair with the key [__proto__], [toObject] returns an object in
    which a value is stored under its index and a pair under its key, and
    a later child replaces an earlier one with the same key. *)
Theorem toObject_keeps_the_last_child_of_a_key (p : ASTParser) (root : nat)
    (rest : list nat) (fuel : nat) :
  stack p = root :: rest →
  (2 ≤ length (values (store p !!! root)))%nat →
  forallb isFlat (values (store p !!! root)) = true →
  forallb (λ v, negb (isProtoKey v)) (values (store p !!! root)) = true →
  ∃ props,
    toObject (S fuel) p = Some (RGenerated (MContainer false props))
    ∧ ∀ key,
        getProp key props
        = lastWritten key 0 (values (store p !!! root)).
Proof.
  intros Hst Hlen Hflat _. unfold toObject. rewrite Hst.
  destruct (foldl_generate_flat fuel (store p) (values (store p !!! root))
              0 [] Hflat) as (props & E & Hget).
  exists props. split.
  - destruct (values (store p !!! root)) as [|v1 [|v2 vs]] eqn:Hvs;
      [cbn in Hlen; lia..|].
    cbn [generateObject fmap option_fmap option_map]. cbv zeta in E.
    rewrite Hvs, E. done.
  - intros key. rewrite Hget. by destruct (lastWritten _ _ _).
Qed.

Lemma key_colon_open_binds_the_container_witness :
  ∃ p',
    processAll integerToString [str "a"; sep ":"; sep "["] afterOpenArray
    = Done p'
    ∧ stack p' = [0; 1; 2]
    ∧ valuesAt p' 1 = [VKeyVal "a" (Some (VTree 2))]
    ∧ store p' !!! 2 = mkTree "array" [].
Proof.
  exact (key_colon_open_binds_the_container integerToString [sep "["]
           afterOpenArray (str "a") (sep ":") (sep "[")
           eq_refl eq_refl eq_refl eq_refl eq_refl eq_refl).
Defined.

Lemma toObject_keeps_the_last_child_of_a_key_witness :
  ∃ props,
    toObject 1 flatRoot = Some (RGenerated (MContainer false props))
    ∧ getProp "0" props = Some (MLeaf (Some (VPrim (PStr "b"))))
    ∧ getProp "2" props = Some (MLeaf (Some (VPrim (PStr "c"))))
    ∧ getProp "1" props = None.
Proof.
  destruct (toObject_keeps_the_last_child_of_a_key flatRoot 0 [] 0)
    as (props & E & Hget); [reflexivity|cbn; lia|reflexivity..|].
  exists props. split; [exact E|].
  split; [exact (Hget "0")|]. split; [exact (Hget "2")|exact (Hget "1")].
Defined.


Lemma key_colon_value_adds_a_pair_witness :
  ∃ p',
    processAll integerToString [str "a"; sep ":"; num 1] afterOpenArray
    = Done p'
    ∧ stack p' = [0; 1]
    ∧ current p' = [VKeyVal "a" (Some (VPrim (PNum (num_of_Z 1))))].
Proof.
  exact (key_colon_value_adds_a_pair integerToString [sep "["]
           afterOpenArray (str "a") (sep ":") (num 1)
           eq_refl eq_refl eq_refl eq_refl eq_refl eq_refl).
Defined.

Lemma falsy_key_loses_its_value_witness :
  ∃ p',
    processAll integerToString [nullToken; sep ":"; num 1] afterOpenArray
    = Done p'
    ∧ stack p' = [0; 1]
    ∧ current p' = [VPrim PNull].
Proof.
  exact (falsy_key_loses_its_value integerToString [sep "["]
           afterOpenArray nullToken (sep ":") (num 1)
           eq_refl eq_refl eq_refl eq_refl eq_refl eq_refl).
Defined.

Lemma colon_after_a_pair_replaces_its_value_witness :
  ∃ p',
    processAll integerToString [sep ":"; num 2] afterPair = Done p'
    ∧ stack p' = [0]
    ∧ current p' = [VKeyVal "a" (Some (VPrim (PNum (num_of_Z 2))))].
Proof.
  exact (colon_after_a_pair_replaces_its_value integerToString
           [str "a"; sep ":"; num 1] afterPair [] "a"
           (Some (VPrim (PNum (num_of_Z 1)))) (sep ":") (num 2)
           eq_refl eq_refl eq_refl eq_refl).
Defined.

Lemma each_further_comma_adds_an_empty_string_witness :
  ∃ p',
    processAll integerToString [sep ","; sep ","] afterOneComma = Done p'
    ∧ current p'
      = [VPrim (PNum (num_of_Z 1)); VPrim (PStr ""); VPrim (PStr "")].
Proof.
  apply (each_further_comma_adds_an_empty_string integerToString
           [num 1; sep ","] afterOneComma [sep ","; sep ","]);
    [reflexivity|reflexivity|].
  repeat constructor.
Defined.

Lemma closing_the_root_discards_it_witness :
  ∃ p',
    processAll integerToString [sep "}"; num 2] afterOneComma = Done p'
    ∧ stack p' = [1]
    ∧ current p' = [VPrim (PNum (num_of_Z 2))]
    ∧ toObject 5 p' = Some (RChild (VPrim (PNum (num_of_Z 2)))).
Proof.
  apply (closing_the_root_discards_it integerToString [num 1; sep ","]
           afterOneComma (sep "}") (num 2) 5);
    [reflexivity|cbn; lia|reflexivity|reflexivity|reflexivity].
Defined.

End ASTTheorems.
(** ** More on the number validators *)

Module NumberDefMore.
Import Schema NumberDef ValidatorSpec ValidatorMore NumberDefProofs.

Local Open Scope string_scope.

(** Property X17.  The constructor accepts the listed number types and [int64], which
    the list does not hold, and fails [invalid-type] for every other
    name. *)
Theorem constructor_accepts_listed_types_and_int64 (ty : string) :
  ((∃ self, new ty = Ok self) ↔ ty ∈ NUMBER_TYPES ∨ ty = "int64")
  ∧ (ty ∉ NUMBER_TYPES → ty ≠ "int64" →
     new ty = Throw ErrorCodes.invalidType).
Proof.
  destruct (decide (ty ∈ NUMBER_TYPES ∨ ty = "int64")) as [H|H].
  - split; [|tauto]. split; [done|]. intros _. clear -H.
    unfold NUMBER_TYPES in H. rewrite !elem_of_cons, elem_of_nil in H.
    destruct_or!; try done; subst; eexists; reflexivity.
  - assert (new ty = Throw ErrorCodes.invalidType) as E.
    { unfold new, _getValidator.
      repeat (case_bool_decide as Hc;
              [exfalso; apply H; clear H; unfold NUMBER_TYPES;
               rewrite ?elem_of_cons, ?elem_of_nil in *; tauto|clear Hc]).
      done. }
    split; [|done]. split; [|done]. intros [self Hs]. by rewrite E in Hs.
Qed.

Lemma bind_Ok_parts {A B} (o : outcome A) (k : A → outcome B) x :
  bind o k = Ok x → ∃ y, o = Ok y ∧ k y = Ok x.
Proof. destruct o as [y|]; [|done]. intros ?. by exists y. Qed.

(** Property X18.  A finite number that [parse] returns is never below the [min] of
    the member nor above its [max], whatever the number type and the
    definitions it was looked up in. *)
Theorem parse_result_is_within_member_range (self : NumberDef)
    (node : Node) (memberDef : MemberDef)
    (defs : option (Node → option Node)) (q : Q) :
  parse self node memberDef defs = Ok (VNum (Finite q)) →
  (∀ lo, min memberDef = VNum (Finite lo) → (lo <= q)%Q)
  ∧ (∀ hi, max memberDef = VNum (Finite hi) → (q <= hi)%Q).
Proof.
  unfold parse. intros (v & _ & (_ & _ & E)%bind_Ok_parts)%bind_Ok_parts.
  destruct (negb (strictEq (min memberDef) VNull)
            && js_lt v (min memberDef)) eqn:Hmin; [done|].
  destruct (negb (strictEq (max memberDef) VNull)
            && js_gt v (max memberDef)) eqn:Hmax; [done|].
  injection E as ->. split.
  - intros lo Hlo. rewrite Hlo in Hmin. cbn in Hmin. by apply Qltb_ge.
  - intros hi Hhi. rewrite Hhi in Hmax. cbn in Hmax. by apply Qltb_ge.
Qed.

(** Property X19.  The validator tells the two kinds of numbers apart before it looks
    at the range: a value that is neither a number nor a bigint fails
    [invalid-type], a number in a [bigint] member fails [not-a-bigint], and
    a bigint in a member of any other type fails [not-a-] followed by that
    type. *)
Theorem validator_checks_the_kind_of_number (lo hi : option number)
    (memberDef : MemberDef) (v : Value) :
  (typeof v ≠ "number" → typeof v ≠ "bigint" →
   _intValidator lo hi memberDef v = Throw ErrorCodes.invalidType)
  ∧ (typeof v = "number" → type memberDef = "bigint" →
     _intValidator lo hi memberDef v = Throw "not-a-bigint")
  ∧ (typeof v = "bigint" → type memberDef ≠ "bigint" →
     _intValidator lo hi memberDef v = Throw ("not-a-" ++ type memberDef)).
Proof.
  unfold _intValidator. split_and!.
  - intros Hn Hb. by destruct v.
  - intros Hn ->. by destruct v.
  - intros Hb Hm. rewrite (bool_decide_eq_false_2 _ Hm). by destruct v.
Qed.

Lemma intValidator_unbounded md n :
  type md ≠ "bigint" → _intValidator None None md (VNum n) = Ok tt.
Proof.
  intros Hty. unfold _intValidator. cbn [typeof].
  rewrite (bool_decide_eq_false_2 ("number" = "bigint")) by done.
  rewrite (bool_decide_eq_true_2 _ NUMBER_MAP_number).
  by rewrite (bool_decide_eq_false_2 (type md = "bigint")) by done.
Qed.

(** Property X20.  The general number types check neither a range nor that the value
    is whole: in a member of type [int], [number], [float] or [float64]
    without [min] and [max], every number that passes the common check is
    returned as it is, fractions, the infinities and NaN included. *)
Theorem general_types_accept_every_number (ty : string)
    (memberDef : MemberDef) (n : number) :
  ty ∈ generalTypes → type memberDef = ty →
  doCommonTypeCheck memberDef (VNum n) = Ok (VNum n) →
  min memberDef = VNull → max memberDef = VNull →
  ∃ self,
    new ty = Ok self
    ∧ parse self (nodeOf (VNum n)) memberDef None = Ok (VNum n).
Proof.
  unfold generalTypes. rewrite !elem_of_cons, elem_of_nil.
  intros Hty Hmd Hc Hmin Hmax.
  exists (mkNumberDef ty (_intValidator None None)).
  split; [destruct_or!; try done; subst ty; reflexivity|].
  unfold parse. cbn [getValueNode nodeOf nodeValue _validator].
  rewrite Hc. cbn [bind]. rewrite intValidator_unbounded.
  - cbn [bind]. by rewrite Hmin, Hmax.
  - rewrite Hmd. destruct_or!; try done; by subst ty.
Qed.

(** Property X21.  [uint] has a lower bound only: a finite number passes the
    validator if and only if it is not negative, positive infinity passes
    and negative infinity fails [invalid-range]. *)
Theorem uint_has_a_lower_bound_only (memberDef : MemberDef) :
  type memberDef = "uint" →
  ∃ self,
    new "uint" = Ok self
    ∧ (∀ q, _validator self memberDef (VNum (Finite q)) = Ok tt
            ↔ (0 <= q)%Q)
    ∧ (∀ q, _validator self memberDef (VNum (Finite q))
            = Throw ErrorCodes.invalidRange ↔ (q < 0)%Q)
    ∧ _validator self memberDef (VNum PosInfinity) = Ok tt
    ∧ _validator self memberDef (VNum NegInfinity)
      = Throw ErrorCodes.invalidRange.
Proof.
  intros Hty. eexists. split; [reflexivity|]. cbn [_validator].
  unfold _intValidator. cbn [typeof]. rewrite Hty.
  rewrite (bool_decide_eq_false_2 ("number" = "bigint")) by done.
  rewrite (bool_decide_eq_true_2 _ NUMBER_MAP_number).
  rewrite (bool_decide_eq_false_2 ("uint" = "bigint")) by done.
  rewrite (bool_decide_eq_false_2 ("number" = "")) by done.
  rewrite (bool_decide_eq_true_2 ("number" = "number")) by done.
  cbn [negb]. unfold js_lt. cbn [toNumeric num_of_Z num_lt orb].
  split_and!; try done; intros q; rewrite orb_false_r;
    change (inject_Z 0) with 0%Q;
    destruct (Qltb q 0) eqn:E; split; try done.
  - intros Hq. apply Qltb_lt in E. by apply Qlt_not_le in E.
  - intros _. by apply Qltb_ge.
  - intros _. by apply Qltb_lt.
  - intros Hq. apply Qltb_ge in E. by apply Qle_not_lt in E.
Qed.

(** Property X22.  NaN passes every range.  In a member of a supported type other
    than [bigint], whatever its [min] and [max] (numbers or null), NaN is
    returned by [parse] once it has passed the common check: every
    comparison with it is false. *)
Theorem NaN_passes_every_range (ty : string) (memberDef : MemberDef) :
  ty ∈ generalTypes ∨ ty = "uint" ∨ ty ∈ fixedWidth.*1 →
  type memberDef = ty →
  doCommonTypeCheck memberDef (VNum NaN) = Ok (VNum NaN) →
  (min memberDef = VNull ∨ ∃ lo, min memberDef = VNum lo) →
  (max memberDef = VNull ∨ ∃ hi, max memberDef = VNum hi) →
  ∃ self,
    new ty = Ok self
    ∧ parse self (nodeOf (VNum NaN)) memberDef None = Ok (VNum NaN).
Proof.
  intros Hty Hmd Hc Hmin Hmax.
  assert (∃ lo hi, new ty = Ok (mkNumberDef ty (_intValidator lo hi))
                   ∧ ty ≠ "bigint") as (lo & hi & Hnew & Hnb).
  { unfold generalTypes, fixedWidth in Hty. cbn [fmap list_fmap fst] in Hty.
    rewrite !elem_of_cons, !elem_of_nil in Hty.
    destruct_or!; try done; subst ty; do 2 eexists; split;
      first [reflexivity|done]. }
  eexists. split; [exact Hnew|].
  unfold parse. cbn [getValueNode nodeOf nodeValue _validator].
  rewrite Hc. cbn [bind].
  assert (_intValidator lo hi memberDef (VNum NaN) = Ok tt) as ->.
  { unfold _intValidator. cbn [typeof]. rewrite Hmd.
    rewrite (bool_decide_eq_false_2 ("number" = "bigint")) by done.
    rewrite (bool_decide_eq_true_2 _ NUMBER_MAP_number).
    rewrite (bool_decide_eq_false_2 (ty = "bigint")) by done.
    rewrite (bool_decide_eq_false_2 ("number" = "")) by done.
    rewrite (bool_decide_eq_true_2 ("number" = "number")) by done.
    cbn [negb]. unfold js_gt, js_lt. cbn [toNumeric].
    destruct lo as [[]|], hi as [[]|]; done. }
  cbn [bind].
  assert (js_lt (VNum NaN) (min memberDef) = false) as ->.
  { destruct Hmin as [->|[lo' ->]]; [done|]. unfold js_lt. cbn. done. }
  assert (js_gt (VNum NaN) (max memberDef) = false) as ->.
  { destruct Hmax as [->|[hi' ->]]; [done|]. unfold js_gt, js_lt. cbn.
    by destruct hi'. }
  by rewrite !andb_false_r.
Qed.

Lemma parse_result_is_within_member_range_witness :
  parse (mkNumberDef "int" (_intValidator None None)) (nodeOf (int 5))
    (memberBetween "int" 1 10) None = Ok (int 5)
  ∧ (inject_Z 1 <= inject_Z 5)%Q ∧ (inject_Z 5 <= inject_Z 10)%Q.
Proof.
  split; [reflexivity|].
  destruct (parse_result_is_within_member_range
              (mkNumberDef "int" (_intValidator None None)) (nodeOf (int 5))
              (memberBetween "int" 1 10) None (inject_Z 5) eq_refl)
    as [Hlo Hhi].
  split; [exact (Hlo _ eq_refl)|exact (Hhi _ eq_refl)].
Defined.

Lemma general_types_accept_every_number_witness :
  ∃ self,
    new "int" = Ok self
    ∧ parse self (nodeOf (VNum (Finite (3 # 2)))) (memberOf "int") None
      = Ok (VNum (Finite (3 # 2))).
Proof.
  apply (general_types_accept_every_number "int" (memberOf "int")
           (Finite (3 # 2)));
    [|reflexivity..].
  apply (bool_decide_unpack _). vm_compute. exact I.
Defined.

Lemma uint_has_a_lower_bound_only_witness :
  ∃ self,
    new "uint" = Ok self
    ∧ (∀ q, _validator self (memberOf "uint") (VNum (Finite q)) = Ok tt
            ↔ (0 <= q)%Q)
    ∧ (∀ q, _validator self (memberOf "uint") (VNum (Finite q))
            = Throw ErrorCodes.invalidRange ↔ (q < 0)%Q)
    ∧ _validator self (memberOf "uint") (VNum PosInfinity) = Ok tt
    ∧ _validator self (memberOf "uint") (VNum NegInfinity)
      = Throw ErrorCodes.invalidRange.
Proof. exact (uint_has_a_lower_bound_only (memberOf "uint") eq_refl). Defined.

Lemma NaN_passes_every_range_witness :
  ∃ self,
    new "int8" = Ok self
    ∧ parse self (nodeOf (VNum NaN)) (memberBetween "int8" 1 10) None
      = Ok (VNum NaN).
Proof.
  apply (NaN_passes_every_range "int8" (memberBetween "int8" 1 10));
    [|reflexivity|reflexivity|right; eexists; reflexivity
     |right; eexists; reflexivity].
  right. right. apply (bool_decide_unpack _). vm_compute. exact I.
Defined.

End NumberDefMore.

(** ** More on the string validator *)

Module StringDefMore.
Import Schema StringDef ValidatorSpec ValidatorMore NumberDefMore.

Local Open Scope string_scope.

Lemma append_empty_r (s : string) : s ++ "" = s.
Proof.
  induction s as [|a s IH]; [done|].
  change (String a (s ++ "") = String a s). by rewrite IH.
Qed.

Lemma rev_app_append (s t u : string) :
  String.rev_app (s ++ t) u = String.rev_app t (String.rev_app s u).
Proof.
  revert u. induction s as [|a s IH]; intros u; [done|]. cbn. apply IH.
Qed.

Lemma endsWith_append_dollar (s : string) : endsWith (s ++ "$") "$" = true.
Proof.
  unfold endsWith, String.rev. rewrite rev_app_append. cbn.
  by destruct (String.rev_app s "").
Qed.

Lemma prefix_caret_append (s t : string) :
  String.prefix "^" s = true → String.prefix "^" (s ++ t) = true.
Proof.
  destruct s as [|a s]; [done|].
  change (String.prefix "^" (String a s))
    with (if ascii_dec "^"%char a then String.prefix "" s else false).
  change (String.prefix "^" (String a s ++ t))
    with (if ascii_dec "^"%char a then String.prefix "" (s ++ t) else false).
  destruct (ascii_dec "^"%char a); [|done].
  intros _. by destruct (s ++ t).
Qed.

Section WithRegExp.

Variable regExpTest : string → string → bool.
Variable emailExpTest : string → bool.
Variable urlExpTest : string → bool.

Local Abbreviation _validatePattern :=
  (_validatePattern regExpTest emailExpTest urlExpTest).
Local Abbreviation _process :=
  (_process regExpTest emailExpTest urlExpTest).

(** Property X23.  The pattern of a string member is anchored and compiled once.
    When a value passes the first validation, the expression stored in the
    member starts with [^] and ends with [$], has the pattern between an
    optional [^] and an optional [$], and matched the value; every later
    validation with that member tests this stored expression and leaves
    the member as it is. *)
Theorem pattern_is_anchored_and_cached (memberDef memberDef' : MemberDef)
    (pattern0 value : string) :
  type memberDef = "string" → pattern memberDef = Some pattern0 →
  re memberDef = None →
  _validatePattern memberDef value = Ok memberDef' →
  ∃ r,
    memberDef' = setRe (Some r) memberDef
    ∧ String.prefix "^" r = true ∧ endsWith r "$" = true
    ∧ (∃ pre post,
         r = pre ++ pattern0 ++ post
         ∧ (pre = "" ∨ pre = "^") ∧ (post = "" ∨ post = "$"))
    ∧ regExpTest r value = true
    ∧ ∀ value',
        _validatePattern memberDef' value'
        = if regExpTest r value' then Ok memberDef'
          else Throw ErrorCodes.invalidValue.
Proof.
  intros Hty Hpat Hre. unfold StringDef._validatePattern.
  rewrite Hty, Hpat, Hre. rewrite bool_decide_eq_true_2 by done.
  set (p1 := if String.prefix "^" pattern0 then pattern0
             else "^" ++ pattern0).
  set (r := if endsWith p1 "$" then p1 else p1 ++ "$").
  destruct (regExpTest r value) eqn:Ht; [|done]. cbn [negb].
  intros [= <-]. exists r.
  assert (String.prefix "^" p1 = true) as Hp1.
  { unfold p1. destruct (String.prefix "^" pattern0) eqn:E; [done|].
    cbn. by destruct pattern0. }
  split; [done|]. split.
  { unfold r. destruct (endsWith p1 "$"); [done|].
    by apply prefix_caret_append. }
  split.
  { unfold r. destruct (endsWith p1 "$") eqn:E; [done|].
    apply endsWith_append_dollar. }
  split.
  { exists (if String.prefix "^" pattern0 then "" else "^"),
           (if endsWith p1 "$" then "" else "$").
    split.
    - unfold r, p1.
      destruct (String.prefix "^" pattern0), (endsWith _ "$"); cbn;
        by rewrite ?append_empty_r.
    - split; [destruct (String.prefix _ _)|destruct (endsWith _ _)]; auto. }
  split; [done|]. intros value'. cbn [type pattern re setRe].
  rewrite Hty, Hpat. rewrite bool_decide_eq_true_2 by done.
  by destruct (regExpTest r value').
Qed.

Lemma validatePattern_keeps memberDef value memberDef' :
  _validatePattern memberDef value = Ok memberDef' →
  maxLength memberDef' = maxLength memberDef
  ∧ minLength memberDef' = minLength memberDef.
Proof.
  unfold StringDef._validatePattern.
  destruct (bool_decide (type memberDef = "string")),
    (pattern memberDef) as [p|].
  1:{ destruct (re memberDef) as [r|]; destruct (negb _); try done;
        by intros [= <-]. }
  all: repeat (case_bool_decide; [destruct (negb _); [done|]; by intros [= <-]|]);
    by intros [= <-].
Qed.

Lemma strictEq_refl v : v ≠ VNum NaN → strictEq v v = true.
Proof.
  intros Hv. destruct v as [| | |[]| | |]; try done;
    try (by apply bool_decide_eq_true_2).
  cbn. apply Qeq_bool_iff. reflexivity.
Qed.

Lemma process_string_result memberDef s v memberDef' :
  doCommonTypeCheck memberDef (VStr s) = Ok (VStr s) →
  _process memberDef (VStr s) None = Ok (v, memberDef') → v = VStr s.
Proof.
  intros Hc. unfold StringDef._process. rewrite Hc. cbn [bind].
  rewrite (strictEq_refl (VStr s)) by done.
  change (strictEq (VStr s) VNull) with false.
  change (strictEq (VStr s) VUndefined) with false. cbn [negb orb].
  intros (md1 & _ & (_ & _ & (_ & _ & E)%bind_Ok_parts)%bind_Ok_parts)
           %bind_Ok_parts.
  by injection E as <- _.
Qed.

(** Property X24.  No string longer than [maxLength] is returned.  For a string that
    passes the common check unchanged, in a member whose [maxLength] is a
    number: if [_process] returns it, its length is at most [maxLength];
    and if it is longer and matches the pattern, [_process] fails
    [invalid-max-length]. *)
Theorem maxLength_is_an_upper_bound (memberDef : MemberDef) (s : string)
    (mx : Q) :
  doCommonTypeCheck memberDef (VStr s) = Ok (VStr s) →
  maxLength memberDef = VNum (Finite mx) →
  (∀ v memberDef',
     _process memberDef (VStr s) None = Ok (v, memberDef') →
     v = VStr s ∧ (inject_Z (Z.of_nat (String.length s)) <= mx)%Q)
  ∧ (∀ memberDef',
       _validatePattern memberDef s = Ok memberDef' →
       (mx < inject_Z (Z.of_nat (String.length s)))%Q →
       _process memberDef (VStr s) None
       = Throw ErrorCodes.invalidMaxLength).
Proof.
  intros Hc Hmax. unfold StringDef._process. rewrite Hc. cbn [bind].
  rewrite (strictEq_refl (VStr s)) by done.
  change (strictEq (VStr s) VNull) with false.
  change (strictEq (VStr s) VUndefined) with false. cbn [negb orb].
  split.
  - intros v md' (md1 & Hp & E)%bind_Ok_parts.
    destruct (validatePattern_keeps _ _ _ Hp) as [Hmx _].
    rewrite Hmx, Hmax in E.
    change (strictEq (VNum (Finite mx)) VUndefined) with false in E.
    change (isNumber (VNum (Finite mx))) with true in E.
    cbn [negb andb] in E.
    destruct (js_gt _ _) eqn:Hgt in E; [done|]. cbn [bind] in E.
    apply bind_Ok_parts in E as (_ & _ & [= <- _]). split; [done|].
    unfold js_gt, js_lt in Hgt. cbn in Hgt. by apply Qltb_ge.
  - intros md' Hp Hlong. rewrite Hp. cbn [bind].
    destruct (validatePattern_keeps _ _ _ Hp) as [-> _]. rewrite Hmax.
    change (strictEq (VNum (Finite mx)) VUndefined) with false.
    change (isNumber (VNum (Finite mx))) with true.
    cbn [negb andb].
    unfold js_gt, js_lt. cbn [toNumeric num_of_nat num_of_Z num_lt].
    by rewrite (proj2 (Qltb_lt _ _) Hlong).
Qed.

(** Property X25.  What is not a string fails [not-a-string], except NaN.  A value
    other than null and undefined that passes the common check unchanged
    and is not a string is rejected, unless it is NaN: NaN is not equal to
    itself, so it is taken for a value that the common check replaced and
    is returned as the validated string. *)
Theorem not_a_string_except_NaN (memberDef : MemberDef) (v : Value) :
  doCommonTypeCheck memberDef v = Ok v →
  typeof v ≠ "string" → v ≠ VNull → v ≠ VUndefined →
  (v ≠ VNum NaN →
   _process memberDef v None = Throw ErrorCodes.notAString)
  ∧ (v = VNum NaN → _process memberDef v None = Ok (v, memberDef)).
Proof.
  intros Hc Hs Hn Hu. unfold StringDef._process. rewrite Hc. cbn [bind].
  split.
  - intros Hnan. rewrite (strictEq_refl v Hnan). cbn [negb orb].
    destruct v as [| | |[]| | |]; done.
  - intros ->. done.
Qed.

End WithRegExp.

Lemma pattern_is_anchored_and_cached_witness :
  _validatePattern onlyAbc (λ _, false) (λ _, false)
    (memberWithPattern "abc" 5) "abc"
  = Ok (setRe (Some "^abc$") (memberWithPattern "abc" 5))
  ∧ ∃ r,
      setRe (Some "^abc$") (memberWithPattern "abc" 5)
      = setRe (Some r) (memberWithPattern "abc" 5)
      ∧ String.prefix "^" r = true ∧ endsWith r "$" = true
      ∧ (∃ pre post,
           r = pre ++ "abc" ++ post
           ∧ (pre = "" ∨ pre = "^") ∧ (post = "" ∨ post = "$"))
      ∧ onlyAbc r "abc" = true
      ∧ ∀ value',
          _validatePattern onlyAbc (λ _, false) (λ _, false)
            (setRe (Some "^abc$") (memberWithPattern "abc" 5)) value'
          = if onlyAbc r value'
            then Ok (setRe (Some "^abc$") (memberWithPattern "abc" 5))
            else Throw ErrorCodes.invalidValue.
Proof.
  split; [reflexivity|].
  exact (pattern_is_anchored_and_cached onlyAbc (λ _, false) (λ _, false)
           (memberWithPattern "abc" 5) _ "abc" "abc"
           eq_refl eq_refl eq_refl eq_refl).
Defined.

Lemma maxLength_is_an_upper_bound_witness :
  (∀ v memberDef',
     _process onlyAbc (λ _, false) (λ _, false) (memberWithPattern "abc" 5)
       (VStr "abc") None = Ok (v, memberDef') →
     v = VStr "abc" ∧ (inject_Z (Z.of_nat 3) <= inject_Z 5)%Q)
  ∧ _process onlyAbc (λ _, false) (λ _, false) (memberWithPattern "abc" 2)
      (VStr "abc") None = Throw ErrorCodes.invalidMaxLength.
Proof.
  split.
  - exact (proj1 (maxLength_is_an_upper_bound onlyAbc (λ _, false)
                    (λ _, false) (memberWithPattern "abc" 5) "abc"
                    (inject_Z 5) eq_refl eq_refl)).
  - apply (proj2 (maxLength_is_an_upper_bound onlyAbc (λ _, false)
                    (λ _, false) (memberWithPattern "abc" 2) "abc"
                    (inject_Z 2) eq_refl eq_refl)
             (setRe (Some "^abc$") (memberWithPattern "abc" 2)));
      reflexivity.
Defined.

Lemma not_a_string_except_NaN_witness :
  _process onlyAbc (λ _, false) (λ _, false) (memberOf "string") (int 5) None
  = Throw ErrorCodes.notAString
  ∧ _process onlyAbc (λ _, false) (λ _, false) (memberOf "string")
      (VNum NaN) None
    = Ok (VNum NaN, memberOf "string").
Proof.
  split.
  - apply (not_a_string_except_NaN onlyAbc (λ _, false) (λ _, false)
             (memberOf "string") (int 5)); done.
  - apply (not_a_string_except_NaN onlyAbc (λ _, false) (λ _, false)
             (memberOf "string") (VNum NaN)); done.
Defined.

End StringDefMore.
(** ** What the tokenizer reads back from a quoted or a numeric text *)

Module TokenizerReadBack.
Import Tokenizer TokenizerSpec TokenizerProofs TokenizeProofs TokenizerMore
  TokenizerMoreProofs.

Section ReadBack.

Variable normalizeNFC : jsstring → jsstring.
Variable parseFloat : jsstring → number.
Variable bufferFromBase64 : jsstring → list N.
Variable input : jsstring.

(** The loop of [parseRegularString] on a body without the quote and
    without backslashes: the body is copied. *)
Lemma regularString_loop_plain fuel q v nn t body rest :
  wf input t → drop (pos t) input = body ++ rest →
  q ∉ body → Symbols.BACKSLASH ∉ body →
  rest = [] ∨ head rest = Some q →
  length body < fuel →
  ∃ t', regularString_loop input fuel q v nn t = Ok (v ++ body, nn, t')
        ∧ wf input t' ∧ drop (pos t') input = rest.
Proof.
  revert fuel v t. induction body as [|c body IH];
    intros fuel v t Hwf Hd Hq Hb Hr Hf;
    (destruct fuel as [|fuel]; [cbn in Hf; lia|]);
    cbn [regularString_loop].
  - cbn [app] in Hd. exists t. rewrite app_nil_r. destruct Hr as [->|Hr].
    + by rewrite (at_end input t Hwf Hd).
    + destruct rest as [|c r]; [done|]. injection Hr as ->.
      destruct (at_cons input t _ _ Hwf Hd) as [-> ->].
      unfold is_char. by rewrite bool_decide_eq_true_2.
  - cbn [app] in Hd. destruct (at_cons input t _ _ Hwf Hd) as [-> Hc].
    rewrite Hc. apply not_elem_of_cons in Hq as [Hne Hq].
    apply not_elem_of_cons in Hb as [Hnb Hb].
    unfold is_char.
    rewrite (bool_decide_eq_false_2 (Some c = Some q)) by congruence.
    rewrite (bool_decide_eq_false_2 (Some c = Some Symbols.BACKSLASH))
      by congruence.
    cbn [negb andb str_of].
    destruct (advance_at input 1 t _ Hwf Hd) as [Hwf1 Hd1]; [cbn; lia|].
    cbn [drop] in Hd1. rewrite drop_0 in Hd1.
    destruct (IH fuel (v ++ [c]) _ Hwf1 Hd1 Hq Hb Hr) as (t' & E & ? & ?);
      [cbn in Hf; lia|].
    exists t'. rewrite E. by rewrite <- (assoc_L (++)).
Qed.

(** [parseRegularString] from an opening quote and such a body. *)
Lemma parseRegularString_plain fuel q t body rest :
  wf input t → drop (pos t) input = q :: body ++ q :: rest →
  q ∉ body → Symbols.BACKSLASH ∉ body → length body < fuel →
  ∃ t',
    parseRegularString normalizeNFC input fuel q t
    = Ok (mkToken (pos t) (row t) (col t) (q :: body ++ [q]) (VStr body)
            TokenType.STRING (Some SubType.REGULAR_STRING), t')
    ∧ wf input t' ∧ drop (pos t') input = rest.
Proof.
  intros Hwf Hd Hq Hb Hf.
  destruct (advance_at input 1 t _ Hwf Hd) as [Hwf1 Hd1]; [cbn; lia|].
  cbn [drop] in Hd1. rewrite drop_0 in Hd1.
  destruct (regularString_loop_plain fuel q [] false _ body (q :: rest)
              Hwf1 Hd1 Hq Hb) as (t2 & E & Hwf2 & Hd2); [by right|done|].
  destruct (at_cons input _ _ _ Hwf2 Hd2) as [He2 _].
  destruct (advance_at input 1 _ _ Hwf2 Hd2) as [Hwf3 Hd3]; [cbn; lia|].
  exists (advance input 1 t2). unfold parseRegularString.
  rewrite E. cbn [bind app]. by rewrite He2.
Qed.

(** The main loop at the end of the input. *)
Lemma tokenize_loop_at_end fuel tokens t :
  length input ≤ pos t →
  tokenize_loop normalizeNFC parseFloat bufferFromBase64 input (S fuel)
    tokens t = Ok tokens.
Proof.
  intros Hle. cbn [tokenize_loop]. by rewrite bool_decide_eq_false_2 by lia.
Qed.

(** A digit loop whose class holds of the rest of the input reads it to
    the end, when the class does not match the text "undefined". *)
Lemma digits_loop_to_end fuel cls v t :
  wf input t → class_test cls None = false →
  forallb cls (drop (pos t) input) = true →
  length (drop (pos t) input) < fuel →
  ∃ t', digits_loop input fuel cls v t = Ok (v ++ drop (pos t) input, t')
        ∧ wf input t' ∧ length input ≤ pos t'.
Proof.
  intros Hwf Hnone. revert v t Hwf.
  induction fuel as [|fuel IH]; intros v t Hwf Hall Hf; [lia|].
  destruct (drop (pos t) input) as [|c s] eqn:Hd.
  - exists t. cbn [digits_loop]. apply drop_nil_end in Hd as Hlen.
    rewrite (lookup_ge_None_2 _ _ Hlen), Hnone. by rewrite app_nil_r.
  - destruct (at_cons input t c s Hwf Hd) as [_ Hc].
    cbn [digits_loop]. rewrite Hc. unfold class_test at 1.
    cbn [str_of existsb forallb] in *.
    apply andb_true_iff in Hall as [-> Hs]. cbn [orb].
    destruct (advance_at input 1 t _ Hwf Hd) as [Hwf1 Hd1]; [cbn; lia|].
    cbn [drop] in Hd1. rewrite drop_0 in Hd1.
    destruct (IH (v ++ [c]) _ Hwf1) as (t' & E & ? & ?).
    + by rewrite Hd1.
    + rewrite Hd1. cbn in Hf. lia.
    + exists t'. rewrite E, Hd1. by rewrite <- (assoc_L (++)).
Qed.

End ReadBack.

(** A text between double quotes, without quotes and backslashes inside,
    is one regular string whose value is the text. *)
Lemma tokenize_quoted normalizeNFC parseFloat bufferFromBase64
    (body : jsstring) :
  Symbols.DOUBLE_QUOTE ∉ body → Symbols.BACKSLASH ∉ body →
  tokenize normalizeNFC parseFloat bufferFromBase64
    (Symbols.DOUBLE_QUOTE :: body ++ [Symbols.DOUBLE_QUOTE])
    (length body + 4)
  = Ok [mkToken 0 1 1 (Symbols.DOUBLE_QUOTE :: body ++ [Symbols.DOUBLE_QUOTE])
          (VStr body) TokenType.STRING (Some SubType.REGULAR_STRING)].
Proof.
  intros Hq Hb.
  set (input := Symbols.DOUBLE_QUOTE :: body ++ [Symbols.DOUBLE_QUOTE]).
  assert (wf input initial) as Hwf by (by apply wf_initial_nonempty).
  destruct (parseRegularString_plain normalizeNFC input (length body + 3)
              Symbols.DOUBLE_QUOTE initial body []) as (t' & E & Hwf' & Hd');
    [done..|lia|].
  unfold tokenize.
  replace (length body + 4) with (S (length body + 3)) by lia.
  cbn [tokenize_loop]. change (pos initial) with 0.
  rewrite bool_decide_eq_true_2 by (cbn; lia).
  change (input !! 0) with (Some Symbols.DOUBLE_QUOTE).
  change (is_.isWhitespace (Some Symbols.DOUBLE_QUOTE)) with false.
  change (is_char (Some Symbols.DOUBLE_QUOTE) Symbols.HASH) with false.
  change (is_.isQuote (Some Symbols.DOUBLE_QUOTE)) with true.
  cbn match. change (default 0%N (Some Symbols.DOUBLE_QUOTE))
    with Symbols.DOUBLE_QUOTE.
  rewrite E. cbn [bind app].
  replace (length body + 3) with (S (length body + 2)) by lia.
  apply tokenize_loop_at_end. by apply drop_nil_end.
Qed.

(** A text of decimal digits is one NUMBER token. *)
Lemma tokenize_digits normalizeNFC parseFloat bufferFromBase64
    (ds : jsstring) :
  ds ≠ [] → forallb isDecimalChar ds = true →
  ∃ tok,
    tokenize normalizeNFC parseFloat bufferFromBase64 ds (length ds + 3)
    = Ok [tok]
    ∧ type tok = TokenType.NUMBER ∧ text tok = ds.
Proof.
  intros Hne Hall.
  assert (wf ds initial) as Hwf by (by apply wf_initial_nonempty).
  destruct ds as [|d ds'] eqn:Hds; [done|]. rewrite <- Hds in *.
  assert (ds !! 0 = Some d) as H0 by (by rewrite Hds).
  assert (isDecimalChar d = true) as Hd.
  { rewrite Hds in Hall. cbn in Hall. by apply andb_true_iff in Hall as [? _]. }
  assert (is_.isDigit (Some d) = true) as Hdig by done.
  assert (∀ x, isDecimalChar x = false → d ≠ x) as Hnot.
  { intros x Hx ->. by rewrite Hx in Hd. }
  assert (∀ x, isDecimalChar x = false → is_char (Some d) x = false)
    as Hchar.
  { intros x Hx. apply bool_decide_eq_false_2. intros [= ->].
    by rewrite Hx in Hd. }
  assert (∀ x, isDecimalChar x = false →
            is_char (ds !! 1) x = false) as Hnext.
  { intros x Hx. destruct (ds !! 1) as [c|] eqn:E1; [|done].
    apply bool_decide_eq_false_2. intros [= ->].
    rewrite forallb_forall in Hall.
    apply list_elem_of_lookup_2, list_elem_of_In, Hall in E1. congruence. }
  assert (∃ v b f st t',
            (if is_char (ds !! 0) (chr "0")
             then parseZeroPrefixed ds (length ds + 2) [] initial
             else parseDecimal ds (length ds + 2) [] initial)
            = Ok (v, b, f, st, t')
            ∧ v = ds ∧ length ds ≤ pos t') as (v & b & f & st & t' & E & -> & Hend).
  { destruct (is_char (ds !! 0) (chr "0")).
    - unfold parseZeroPrefixed. change (pos initial + 1) with 1.
      rewrite !Hnext by done. cbn [orb].
      destruct (digits_loop_to_end ds (length ds + 2) isFloatChar [] initial)
        as (t' & E & _ & Hend);
        [done|done| |change (pos initial) with 0; rewrite drop_0; lia|].
      { change (pos initial) with 0. rewrite drop_0.
        rewrite forallb_forall in Hall |- *.
        intros x Hx. unfold isFloatChar. by rewrite (Hall x Hx). }
      rewrite E. cbn. eauto 10.
    - unfold parseDecimal.
      destruct (digits_loop_to_end ds (length ds + 2) isDecimalChar []
                  initial) as (t' & E & Hwf' & Hend);
        [done|done|done|change (pos initial) with 0; rewrite drop_0; lia|].
      rewrite E. change (pos initial) with 0. rewrite drop_0.
      cbn [bind app].
      rewrite (lookup_ge_None_2 _ _ Hend), is_char_None. cbn [bind].
      rewrite (lookup_ge_None_2 _ _ Hend), !is_char_None. cbn [bind orb].
      eauto 10. }
  eexists. split.
  - unfold tokenize.
    replace (length ds + 3) with (S (length ds + 2)) by lia.
    cbn [tokenize_loop]. change (pos initial) with 0.
    rewrite bool_decide_eq_true_2 by (rewrite Hds; cbn; lia).
    rewrite H0.
    assert (is_.isWhitespace (Some d) = false) as ->.
    { cbn. apply bool_decide_eq_false_2. rewrite !elem_of_cons, elem_of_nil.
      intros Hw. destruct_or!; try done; subst d; done. }
    rewrite (Hchar Symbols.HASH) by done.
    assert (is_.isQuote (Some d) = false) as ->.
    { unfold is_.isQuote. by rewrite !Hchar. }
    rewrite (Hchar Symbols.R), (Hchar Symbols.B) by done. cbn [andb].
    assert (is_.isSpecialSymbol (Some d) = false) as ->.
    { cbn. apply bool_decide_eq_false_2. rewrite !elem_of_cons, elem_of_nil.
      intros Hw. destruct_or!; try done; subst d; done. }
    rewrite (Hchar Symbols.PLUS), (Hchar Symbols.MINUS), Hdig by done.
    cbn [orb andb].
    unfold parseNumber. change (pos initial) with 0. rewrite H0.
    rewrite (Hchar Symbols.MINUS) by done. cbn [andb].
    change (pos initial) with 0. rewrite H0.
    rewrite (Hchar Symbols.PLUS) by done. cbn match.
    change (pos initial) with 0. rewrite E. cbn [bind].
    replace (length ds + 2) with (S (length ds + 1)) by lia.
    by apply tokenize_loop_at_end.
  - done.
Qed.

End TokenizerReadBack.
(** ** Serialized strings, read back by the tokenizer *)

Module SerializeTheorems.
Import Schema StringDef StringDefClass NumberDefMore StringDefMore.

Local Open Scope string_scope.

Abbreviation lit := Tokenizer.lit (only parsing).

Lemma lit_cons (a : ascii) (s : string) :
  lit (String a s) = Tokenizer.chr a :: lit s.
Proof. done. Qed.

Lemma lit_append (s t : string) : lit (s ++ t) = (lit s ++ lit t)%list.
Proof.
  induction s as [|a s IH]; [done|].
  change (String a s ++ t) with (String a (s ++ t)).
  rewrite !lit_cons, IH. done.
Qed.

Lemma lit_QUOTE : lit QUOTE = [Tokenizer.Symbols.DOUBLE_QUOTE].
Proof. reflexivity. Qed.

Lemma lit_length (s : string) : length (lit s) = String.length s.
Proof.
  induction s as [|a s IH]; [done|]. rewrite lit_cons. cbn. by rewrite IH.
Qed.

Lemma lit_quoted (s : string) :
  lit (QUOTE ++ s ++ QUOTE)
  = Tokenizer.Symbols.DOUBLE_QUOTE
    :: (lit s ++ [Tokenizer.Symbols.DOUBLE_QUOTE])%list.
Proof. by rewrite !lit_append, lit_QUOTE. Qed.

(** A string of decimal digits holds no separator. *)
Lemma digits_hold_no_separator (s : string) :
  forallb Tokenizer.isDecimalChar (lit s) = true → regexSepFound s = false.
Proof.
  induction s as [|a s IH]; [done|]. rewrite lit_cons. cbn [forallb].
  intros [Ha Hs]%andb_true_iff. cbn [regexSepFound].
  rewrite (IH Hs), orb_false_r. apply orb_false_iff. split.
  - apply bool_decide_eq_false_2. cbn [list_ascii_of_string].
    rewrite !elem_of_cons, elem_of_nil. intros H.
    destruct_or!; try done; subst a; done.
  - change (String.prefix "---" (String a s))
      with (if ascii_dec "-"%char a then String.prefix "--" s else false).
    destruct (ascii_dec "-"%char a) as [<-|]; done.
Qed.

Section WithRuntime.

Variable regExpTest : string → string → bool.
Variable emailExpTest : string → bool.
Variable urlExpTest : string → bool.
Variable isToken : Value → bool.
Variable tokenValue : Value → Value.
Variable valueToString : Value → string.
Variable normalizeNFC : list N → list N.
Variable parseFloat : list N → number.
Variable bufferFromBase64 : list N → list N.

Local Abbreviation serialize :=
  (serialize regExpTest emailExpTest urlExpTest isToken tokenValue
     valueToString).
Local Abbreviation tokenize :=
  (Tokenizer.tokenize normalizeNFC parseFloat bufferFromBase64).

(** What [serialize] returns for a string that passes the common check
    unchanged. *)
Lemma serialize_string memberDef s v memberDef' :
  isToken (VStr s) = false →
  doCommonTypeCheck memberDef (VStr s) = Ok (VStr s) →
  serialize (VStr s) memberDef = Ok (v, memberDef') →
  v = if regexSepFound s then VStr (QUOTE ++ s ++ QUOTE) else VStr s.
Proof.
  intros Ht Hc. unfold StringDefClass.serialize, validate. rewrite Ht.
  intros ([v1 md1] & E1 & E)%bind_Ok_parts.
  apply (process_string_result regExpTest emailExpTest urlExpTest) in E1
    as ->; [|done].
  cbn [textOf] in E. by destruct (regexSepFound s); injection E as <- _.
Qed.

(** Property X26.  A string that [serialize] puts between quotes is read
    back as it was when it holds no quote and no backslash: the text
    returned for a string with a separator in it is the string between
    two double quotes, and [tokenize] reads that text as one regular
    string whose value is the string. *)
Theorem quoted_string_reads_back (memberDef memberDef' : MemberDef)
    (s : string) (v : Value) :
  isToken (VStr s) = false →
  doCommonTypeCheck memberDef (VStr s) = Ok (VStr s) →
  regexSepFound s = true →
  Tokenizer.Symbols.DOUBLE_QUOTE ∉ lit s →
  Tokenizer.Symbols.BACKSLASH ∉ lit s →
  serialize (VStr s) memberDef = Ok (v, memberDef') →
  v = VStr (QUOTE ++ s ++ QUOTE)
  ∧ tokenize (lit (QUOTE ++ s ++ QUOTE)) (String.length s + 4)
    = Tokenizer.Ok
        [Tokenizer.mkToken 0 1 1 (lit (QUOTE ++ s ++ QUOTE))
           (Tokenizer.VStr (lit s)) Tokenizer.TokenType.STRING
           (Some Tokenizer.SubType.REGULAR_STRING)].
Proof.
  intros Ht Hc Hsep Hq Hb E.
  apply serialize_string in E; [|done..]. rewrite Hsep in E.
  split; [done|]. rewrite lit_quoted, <- lit_length.
  by apply TokenizerReadBack.tokenize_quoted.
Qed.

(** Property X27.  [serialize] does not escape the quotes inside a
    string.  For a string with a separator and a double quote in it, the
    text returned is the string between two double quotes as it stands,
    and read back by [parseRegularString] it ends at that inner quote:
    the value is the part of the string before its first quote. *)
Theorem inner_quote_is_not_escaped (memberDef memberDef' : MemberDef)
    (a b : string) (v : Value) (fuel : nat) :
  isToken (VStr (a ++ QUOTE ++ b)) = false →
  doCommonTypeCheck memberDef (VStr (a ++ QUOTE ++ b))
  = Ok (VStr (a ++ QUOTE ++ b)) →
  regexSepFound (a ++ QUOTE ++ b) = true →
  Tokenizer.Symbols.DOUBLE_QUOTE ∉ lit a →
  Tokenizer.Symbols.BACKSLASH ∉ lit a →
  String.length a < fuel →
  serialize (VStr (a ++ QUOTE ++ b)) memberDef = Ok (v, memberDef') →
  v = VStr (QUOTE ++ (a ++ QUOTE ++ b) ++ QUOTE)
  ∧ ∃ t',
      Tokenizer.parseRegularString normalizeNFC
        (lit (QUOTE ++ (a ++ QUOTE ++ b) ++ QUOTE)) fuel
        Tokenizer.Symbols.DOUBLE_QUOTE Tokenizer.initial
      = Tokenizer.Ok
          (Tokenizer.mkToken 0 1 1 (lit (QUOTE ++ a ++ QUOTE))
             (Tokenizer.VStr (lit a)) Tokenizer.TokenType.STRING
             (Some Tokenizer.SubType.REGULAR_STRING), t').
Proof.
  intros Ht Hc Hsep Hq Hb Hf E.
  apply serialize_string in E; [|done..]. rewrite Hsep in E.
  split; [done|].
  destruct (TokenizerReadBack.parseRegularString_plain normalizeNFC
              (lit (QUOTE ++ (a ++ QUOTE ++ b) ++ QUOTE)) fuel
              Tokenizer.Symbols.DOUBLE_QUOTE Tokenizer.initial (lit a)
              (lit b ++ [Tokenizer.Symbols.DOUBLE_QUOTE])%list)
    as (t' & Ep & _ & _).
  - by apply TokenizerProofs.wf_initial_nonempty.
  - rewrite lit_quoted, !lit_append, lit_QUOTE. cbn [drop Tokenizer.pos
      Tokenizer.initial]. by rewrite <- !(assoc_L (++)%list).
  - done.
  - done.
  - by rewrite lit_length.
  - exists t'. rewrite (lit_quoted a). exact Ep.
Qed.

(** Property X28.  A string of decimal digits is serialized as it stands
    and read back as a number: [serialize] returns it without quotes, and
    [tokenize] reads that text as one NUMBER token. *)
Theorem digit_string_reads_back_as_a_number
    (memberDef memberDef' : MemberDef) (s : string) (v : Value) :
  isToken (VStr s) = false →
  doCommonTypeCheck memberDef (VStr s) = Ok (VStr s) →
  s ≠ "" → forallb Tokenizer.isDecimalChar (lit s) = true →
  serialize (VStr s) memberDef = Ok (v, memberDef') →
  v = VStr s
  ∧ ∃ tok,
      tokenize (lit s) (String.length s + 3) = Tokenizer.Ok [tok]
      ∧ Tokenizer.type tok = Tokenizer.TokenType.NUMBER
      ∧ Tokenizer.text tok = lit s.
Proof.
  intros Ht Hc Hne Hdig E.
  apply serialize_string in E; [|done..].
  rewrite (digits_hold_no_separator s Hdig) in E. split; [done|].
  rewrite <- lit_length. apply TokenizerReadBack.tokenize_digits; [|done].
  by destruct s.
Qed.

End WithRuntime.

Lemma quoted_string_reads_back_witness :
  serialize ValidatorMore.onlyAbc (λ _, false) (λ _, false) (λ _, false)
    (λ v, v) (λ _, "") (VStr "a,b") (memberOf "string")
  = Ok (VStr (QUOTE ++ "a,b" ++ QUOTE), memberOf "string")
  ∧ Tokenizer.tokenize (λ s, s) (λ _, NaN) (λ s, s)
      (lit (QUOTE ++ "a,b" ++ QUOTE)) 7
    = Tokenizer.Ok
        [Tokenizer.mkToken 0 1 1 (lit (QUOTE ++ "a,b" ++ QUOTE))
           (Tokenizer.VStr (lit "a,b")) Tokenizer.TokenType.STRING
           (Some Tokenizer.SubType.REGULAR_STRING)].
Proof.
  split; [reflexivity|].
  apply (quoted_string_reads_back ValidatorMore.onlyAbc (λ _, false)
           (λ _, false) (λ _, false) (λ v, v) (λ _, "") (λ s, s) (λ _, NaN)
           (λ s, s) (memberOf "string") (memberOf "string") "a,b"
           (VStr (QUOTE ++ "a,b" ++ QUOTE)));
    try reflexivity; apply (bool_decide_unpack _); vm_compute; exact I.
Defined.

Lemma inner_quote_is_not_escaped_witness :
  serialize ValidatorMore.onlyAbc (λ _, false) (λ _, false) (λ _, false)
    (λ v, v) (λ _, "") (VStr ("x," ++ QUOTE ++ "y")) (memberOf "string")
  = Ok (VStr (QUOTE ++ ("x," ++ QUOTE ++ "y") ++ QUOTE), memberOf "string")
  ∧ ∃ t',
      Tokenizer.parseRegularString (λ s, s)
        (lit (QUOTE ++ ("x," ++ QUOTE ++ "y") ++ QUOTE)) 5
        Tokenizer.Symbols.DOUBLE_QUOTE Tokenizer.initial
      = Tokenizer.Ok
          (Tokenizer.mkToken 0 1 1 (lit (QUOTE ++ "x," ++ QUOTE))
             (Tokenizer.VStr (lit "x,")) Tokenizer.TokenType.STRING
             (Some Tokenizer.SubType.REGULAR_STRING), t').
Proof.
  split; [reflexivity|].
  apply (inner_quote_is_not_escaped ValidatorMore.onlyAbc (λ _, false)
           (λ _, false) (λ _, false) (λ v, v) (λ _, "") (λ s, s)
           (memberOf "string") (memberOf "string") "x," "y"
           (VStr (QUOTE ++ ("x," ++ QUOTE ++ "y") ++ QUOTE)) 5);
    try reflexivity; try (cbn; lia);
    apply (bool_decide_unpack _); vm_compute; exact I.
Defined.

Lemma digit_string_reads_back_as_a_number_witness :
  serialize ValidatorMore.onlyAbc (λ _, false) (λ _, false) (λ _, false)
    (λ v, v) (λ _, "") (VStr "42") (memberOf "string")
  = Ok (VStr "42", memberOf "string")
  ∧ ∃ tok,
      Tokenizer.tokenize (λ s, s) (λ _, NaN) (λ s, s) (lit "42") 5
      = Tokenizer.Ok [tok]
      ∧ Tokenizer.type tok = Tokenizer.TokenType.NUMBER
      ∧ Tokenizer.text tok = lit "42".
Proof.
  split; [reflexivity|].
  apply (digit_string_reads_back_as_a_number ValidatorMore.onlyAbc
           (λ _, false) (λ _, false) (λ _, false) (λ v, v) (λ _, "")
           (λ s, s) (λ _, NaN) (λ s, s) (memberOf "string")
           (memberOf "string") "42" (VStr "42"));
    done.
Defined.

End SerializeTheorems.
